(** * Reactive core of the Vue 2 runtime: dependency tracking and scheduling

    A shallow embedding of [src/core/observer/{dep,watcher,index,array,
    scheduler}.js], [src/core/util/{lang,error}.js] and [callHook] of
    [src/core/instance/lifecycle.js], followed by the properties of the
    specification that are settled against it.

    Conventions.  Watchers, dependency nodes and observers are JavaScript
    objects with a unique numeric [id]; the embedding names them by that
    id.  Mutable module-level state ([Dep.target], [targetStack], the
    scheduler's [queue], [has], [circular], ...) is threaded explicitly.
    User code (getters, hooks, callbacks) is represented by what it does
    to the reactive core: the dependency nodes it reads, the watchers it
    makes stale, and whether it returns or throws. *)

From Stdlib Require Import ZArith Lia.
From stdpp Require Import base option list sorting gmap strings.

Set Warnings "-clear-no-such-hyp".

(* ================================================================== *)
(** * Part I.  The model *)
(* ================================================================== *)

(** ** JavaScript values *)

(** Strings are sequences of UTF-16 code units. *)
Abbreviation jsstring := (list N).

Definition js (s : string) : jsstring :=
  map Ascii.N_of_ascii (String.list_ascii_of_string s).

(** Numbers: the finite numbers of the model are the integers; [NaN] and
    the negative zero are kept apart because [===] treats them
    specially. *)
Inductive jsnum := NaN | NegZero | Num (z : Z).

Inductive value :=
| VUndef
| VNull
| VBool (b : bool)
| VNum (n : jsnum)
| VStr (s : jsstring)
| VRef (a : nat).          (* an object, array or function, by address *)

Global Instance jsnum_eq_dec : EqDecision jsnum.
Proof. solve_decision. Defined.
Global Instance value_eq_dec : EqDecision value.
Proof. solve_decision. Defined.

(** [a === b] *)
Definition strict_eq (a b : value) : bool :=
  match a, b with
  | VNum x, VNum y =>
      match x, y with
      | NaN, _ | _, NaN => false
      | NegZero, NegZero => true
      | NegZero, Num z | Num z, NegZero => (z =? 0)%Z
      | Num z1, Num z2 => (z1 =? z2)%Z
      end
  | _, _ => bool_decide (a = b)
  end.

(** [!!v] *)
Definition truthy (v : value) : bool :=
  match v with
  | VUndef | VNull | VBool false => false
  | VNum NaN | VNum NegZero => false
  | VNum (Num z) => negb (z =? 0)%Z
  | VStr s => negb (bool_decide (s = []))
  | VBool true | VRef _ => true
  end.

(** How a piece of code finishes. *)
Inductive outcome := Return (v : value) | Throw (e : value).

Definition TypeError : value := VStr (js "TypeError").
Definition RangeError : value := VStr (js "RangeError").

(** ** Build and runtime configuration *)

(** [production] stands for [process.env.NODE_ENV === 'production'],
    [async] for [config.async], [serverRendering] for
    [isServerRendering()], [hasConsole] for
    [(inBrowser || inWeex) && typeof console !== 'undefined'],
    [hasProto] for ['__proto__' in {}] and [errorHandler] for
    [config.errorHandler], a function of the error it receives. *)
Record config := Config {
  production : bool;
  async : bool;
  serverRendering : bool;
  hasConsole : bool;
  hasProto : bool;
  errorHandler : option (value → outcome)
}.

(** The guard [process.env.NODE_ENV !== 'production' && !config.async]
    shared by [Dep.notify] and [queueWatcher]. *)
Definition dev_sync (cfg : config) : bool :=
  negb (production cfg) && negb (async cfg).

(** ** [Array.prototype.sort((a, b) => a.id - b.id)]

    Watchers are compared by id only.  The embedding uses a stable
    insertion sort; on ids any correct sort returns the same list
    (lemma [sort_by_id_unique] below). *)

Fixpoint insert_by_id (x : nat) (l : list nat) : list nat :=
  match l with
  | [] => [x]
  | y :: r => if x <=? y then x :: l else y :: insert_by_id x r
  end.

Definition sort_by_id (l : list nat) : list nat := foldr insert_by_id [] l.

(** ** dep.js: [Dep.notify]

    [subs] is the subscriber list of the node as a function of the
    ambient state, [update] is [Watcher.prototype.update], which may run
    arbitrary code and in particular change the subscriber list.  The
    result records the watchers whose [update()] was invoked, in
    order. *)
Section DepNotify.
Context {S : Type}.
Variable cfg : config.
Variable subs : S → list nat.
Variable update : nat → S → S.

(** [for (let i = 0, l = subs.length; i < l; i++) subs[i].update()] *)
Fixpoint notify_loop (snapshot : list nat) (calls : list nat) (st : S)
  : list nat * S :=
  match snapshot with
  | [] => (calls, st)
  | w :: rest => notify_loop rest (calls ++ [w]) (update w st)
  end.

Definition notify (st : S) : list nat * S :=
  let snapshot := subs st in                       (* this.subs.slice() *)
  let snapshot := if dev_sync cfg then sort_by_id snapshot else snapshot in
  notify_loop snapshot [] st.
End DepNotify.

(** ** scheduler.js *)

Definition MAX_UPDATE_COUNT : nat := 100.

(** Values stored in [has]: [has[id] = true] and [has[id] = null]; an
    absent key reads as [undefined]. *)
Inductive flag := FTrue | FNull.

Record sched := Sched {
  queue : list nat;
  has : gmap nat flag;
  circular : gmap nat nat;
  waiting : bool;
  flushing : bool;
  index : nat;
  ticks : nat;               (* nextTick(flushSchedulerQueue) registrations *)
  runs : list nat;           (* calls of watcher.run(), oldest first *)
  warned : list nat;         (* 'You may have an infinite update loop' *)
  updated : list (list nat)  (* queues handed to callUpdatedHooks *)
}.

Definition sched_init : sched :=
  Sched [] ∅ ∅ false false 0 0 [] [] [].

Definition set_queue (q : list nat) (st : sched) : sched :=
  Sched q (has st) (circular st) (waiting st) (flushing st) (index st)
        (ticks st) (runs st) (warned st) (updated st).
Definition set_has (h : gmap nat flag) (st : sched) : sched :=
  Sched (queue st) h (circular st) (waiting st) (flushing st) (index st)
        (ticks st) (runs st) (warned st) (updated st).
Definition set_circular (c : gmap nat nat) (st : sched) : sched :=
  Sched (queue st) (has st) c (waiting st) (flushing st) (index st)
        (ticks st) (runs st) (warned st) (updated st).
Definition set_waiting (b : bool) (st : sched) : sched :=
  Sched (queue st) (has st) (circular st) b (flushing st) (index st)
        (ticks st) (runs st) (warned st) (updated st).
Definition set_flushing (b : bool) (st : sched) : sched :=
  Sched (queue st) (has st) (circular st) (waiting st) b (index st)
        (ticks st) (runs st) (warned st) (updated st).
Definition set_index (i : nat) (st : sched) : sched :=
  Sched (queue st) (has st) (circular st) (waiting st) (flushing st) i
        (ticks st) (runs st) (warned st) (updated st).
Definition add_tick (st : sched) : sched :=
  Sched (queue st) (has st) (circular st) (waiting st) (flushing st) (index st)
        (S (ticks st)) (runs st) (warned st) (updated st).
Definition log_run (id : nat) (st : sched) : sched :=
  Sched (queue st) (has st) (circular st) (waiting st) (flushing st) (index st)
        (ticks st) (runs st ++ [id]) (warned st) (updated st).
Definition log_warn (id : nat) (st : sched) : sched :=
  Sched (queue st) (has st) (circular st) (waiting st) (flushing st) (index st)
        (ticks st) (runs st) (warned st ++ [id]) (updated st).
Definition log_updated (q : list nat) (st : sched) : sched :=
  Sched (queue st) (has st) (circular st) (waiting st) (flushing st) (index st)
        (ticks st) (runs st) (warned st) (updated st ++ [q]).

(** [has[id] != null] *)
Definition pending (st : sched) (id : nat) : bool :=
  match has st !! id with
  | Some FTrue => true
  | _ => false
  end.

(** The insertion scan of [queueWatcher]:
    [let i = queue.length - 1;
     while (i > index && queue[i].id > watcher.id) i--].
    The argument [p] is [i + 1], the result is the final [i + 1]. *)
Fixpoint insert_pos (q : list nat) (idx id : nat) (p : nat) : nat :=
  match p with
  | 0 => 0
  | S i =>
      if (idx <? i) && (id <? default 0 (q !! i))
      then insert_pos q idx id i
      else S i
  end.

(** [resetSchedulerState] *)
Definition resetSchedulerState (cfg : config) (st : sched) : sched :=
  Sched [] ∅ (if production cfg then circular st else ∅) false false 0
        (ticks st) (runs st) (warned st) (updated st).

Section Scheduler.
Variable cfg : config.

(** User code reached from the scheduler.  [before_effect id] is
    [None] when [watcher.before] is undefined, otherwise the watchers
    that the hook hands to [queueWatcher].  [run_effect id history]
    lists the watchers that [watcher.run()] hands to [queueWatcher]
    (through [Dep.notify] and [Watcher.update]) when it is called
    after the runs in [history]. *)
Variable before_effect : nat → option (list nat).
Variable run_effect : nat → list nat → list nat.

(** [queueWatcher]; [flushNow] is [flushSchedulerQueue]. *)
Definition queueWatcher (flushNow : sched → option sched)
    (id : nat) (st : sched) : option sched :=
  if pending st id then Some st
  else
    let st := set_has (<[id := FTrue]> (has st)) st in
    let st :=
      if negb (flushing st) then set_queue (queue st ++ [id]) st
      else
        let p := insert_pos (queue st) (index st) id (length (queue st)) in
        (* queue.splice(i + 1, 0, watcher) *)
        set_queue (take p (queue st) ++ id :: drop p (queue st)) st in
    if negb (waiting st) then
      let st := set_waiting true st in
      if dev_sync cfg then flushNow st
      else Some (add_tick st)                (* nextTick(flushSchedulerQueue) *)
    else Some st.

Fixpoint queue_all (flushNow : sched → option sched)
    (ids : list nat) (st : sched) : option sched :=
  match ids with
  | [] => Some st
  | id :: rest =>
      match queueWatcher flushNow id st with
      | Some st' => queue_all flushNow rest st'
      | None => None
      end
  end.

(** The loop [for (index = 0; index < queue.length; index++)] of
    [flushSchedulerQueue], entered with [index] already set.  The
    queue can grow while it is walked, so the loop is driven by
    fuel; [None] means the fuel ran out. *)
Fixpoint flush_loop (flushNow : sched → option sched)
    (fuel : nat) (st : sched) : option sched :=
  match fuel with
  | 0 => None
  | S fuel' =>
      match queue st !! index st with
      | None => Some st
      | Some id =>
          match
            match before_effect id with
            | Some ws => queue_all flushNow ws st
            | None => Some st
            end
          with
          | None => None
          | Some st =>
              let st := set_has (<[id := FNull]> (has st)) st in
              let st := log_run id st in
              match queue_all flushNow (run_effect id (runs st)) st with
              | None => None
              | Some st =>
                  if negb (production cfg) && pending st id then
                    let c := default 0 (circular st !! id) + 1 in
                    let st := set_circular (<[id := c]> (circular st)) st in
                    if MAX_UPDATE_COUNT <? c
                    then Some (log_warn id st)              (* break *)
                    else flush_loop flushNow fuel' (set_index (S (index st)) st)
                  else flush_loop flushNow fuel' (set_index (S (index st)) st)
              end
          end
      end
  end.

(** [flushSchedulerQueue].  The post-flush hooks are external
    collaborators; the queue handed to them is recorded. *)
Fixpoint flushSchedulerQueue (fuel : nat) (st : sched) : option sched :=
  match fuel with
  | 0 => None
  | S fuel' =>
      let st := set_flushing true st in
      let st := set_queue (sort_by_id (queue st)) st in
      let st := set_index 0 st in
      match flush_loop (flushSchedulerQueue fuel') fuel' st with
      | None => None
      | Some st =>
          let updatedQueue := queue st in
          Some (log_updated updatedQueue (resetSchedulerState cfg st))
      end
  end.

(** The task-queue collaborator fires the registered flush. *)
Definition tick (fuel : nat) (st : sched) : option sched :=
  match ticks st with
  | 0 => Some st
  | S n =>
      flushSchedulerQueue fuel
        (Sched (queue st) (has st) (circular st) (waiting st) (flushing st)
               (index st) n (runs st) (warned st) (updated st))
  end.

(** One synchronous turn in which the watchers [ws] become stale, in
    that order, followed by the task-queue collaborator firing. *)
Definition turn (fuel : nat) (ws : list nat) (st : sched) : option sched :=
  match queue_all (flushSchedulerQueue fuel) ws st with
  | Some st => tick fuel st
  | None => None
  end.
End Scheduler.

(** ** Objects *)

(** What the checks of [observe] can tell apart: [Array.isArray],
    [isPlainObject] (the [toString] tag is [[object Object]]),
    [typeof === 'function'], and every other kind of object. *)
Inductive oclass := CArray | CPlain | CFunction | COther.

Global Instance oclass_eq_dec : EqDecision oclass.
Proof. solve_decision. Defined.

(** The own property [__ob__]: an [Observer] instance, named by the id
    of its [dep], or any other value. *)
Inductive obmark := ObObserver (id : nat) | ObForeign (v : value).

(** The closure that [defineReactive] creates around one property. *)
Record reactive := Reactive {
  r_dep : nat;              (* const dep = new Dep() *)
  r_val : value;            (* val *)
  r_childOb : option nat;   (* childOb, by the id of its dep *)
  r_shallow : bool;
  r_customSetter : bool;
  r_getter : bool;          (* property && property.get *)
  r_setter : bool           (* property && property.set *)
}.

(** An own property.  [p_value] is the value of a data property; for a
    pre-defined accessor pair it is the slot that the pair reads and
    writes.  [p_reactive] is set once [defineReactive] has replaced the
    descriptor by its getter and setter. *)
Record prop := Prop_ {
  p_enumerable : bool;
  p_configurable : bool;
  p_get : bool;
  p_set : bool;
  p_value : value;
  p_reactive : option reactive
}.

Record jsobj := Obj {
  o_class : oclass;
  o_vnode : bool;                       (* instanceof VNode *)
  o_isVue : bool;                       (* ._isVue is truthy *)
  o_extensible : bool;                  (* Object.isExtensible *)
  o_ob : option obmark;                 (* own property __ob__ *)
  o_intercepted : bool;                 (* arrayMethods shadow Array.prototype *)
  o_props : list (jsstring * prop);     (* own keys, in creation order *)
  o_elems : list value                  (* elements of an array *)
}.

Abbreviation heap := (list jsobj).

Record observer := Observer {
  ob_value : nat;
  ob_vmCount : nat
}.

(** User code that reads reactive state is represented by the
    dependency nodes whose [depend()] it reaches, in order, and by how
    it finishes.  Both can depend on whether there is a current reader
    ([Dep.target] is set), because the reactive getter only walks the
    dependency nodes in that case. *)
Definition behaviour := bool → heap → list nat * outcome.

(** An [errorCaptured] hook: it returns ([true] when the result is
    [=== false]) or throws. *)
Inductive captured := CapturedReturns (isFalse : bool) | CapturedThrows (e : value).

Record watcher := Watcher {
  w_user : bool;
  w_deep : bool;
  w_lazy : bool;
  w_sync : bool;
  w_active : bool;
  w_dirty : bool;
  w_deps : list nat;
  w_newDeps : list nat;
  w_depIds : gset nat;
  w_newDepIds : gset nat;
  w_value : value;
  w_getter : behaviour;                 (* this.getter.call(vm, vm) *)
  w_ancestors : list (list captured)    (* errorCaptured hooks along vm.$parent *)
}.

Inductive event :=
| EvNotify (dep : nat)                  (* dep.notify() *)
| EvUpdate (w : nat)                    (* watcher.update() *)
| EvWarn (about : jsstring)
| EvCustomSetter
| EvErrorHandler (e : value)            (* config.errorHandler called *)
| EvConsoleError (e : value)
| EvHandleError (e : value).            (* handleError called *)

Record world := World {
  wheap : heap;
  observers : gmap nat observer;
  subs : gmap nat (list nat);           (* Dep#subs, by Dep#id *)
  dep_uid : nat;                        (* uid of dep.js *)
  watchers : gmap nat watcher;
  watcher_uid : nat;                    (* uid of watcher.js *)
  target : option nat;                  (* Dep.target *)
  targetStack : list (option nat);      (* top of the stack first *)
  shouldObserve : bool;
  events : list event
}.

Definition set_heap (h : heap) (w : world) : world :=
  World h (observers w) (subs w) (dep_uid w) (watchers w) (watcher_uid w)
        (target w) (targetStack w) (shouldObserve w) (events w).
Definition set_observers (o : gmap nat observer) (w : world) : world :=
  World (wheap w) o (subs w) (dep_uid w) (watchers w) (watcher_uid w)
        (target w) (targetStack w) (shouldObserve w) (events w).
Definition set_subs (s : gmap nat (list nat)) (w : world) : world :=
  World (wheap w) (observers w) s (dep_uid w) (watchers w) (watcher_uid w)
        (target w) (targetStack w) (shouldObserve w) (events w).
Definition set_dep_uid (n : nat) (w : world) : world :=
  World (wheap w) (observers w) (subs w) n (watchers w) (watcher_uid w)
        (target w) (targetStack w) (shouldObserve w) (events w).
Definition set_watchers (ws : gmap nat watcher) (w : world) : world :=
  World (wheap w) (observers w) (subs w) (dep_uid w) ws (watcher_uid w)
        (target w) (targetStack w) (shouldObserve w) (events w).
Definition set_watcher_uid (n : nat) (w : world) : world :=
  World (wheap w) (observers w) (subs w) (dep_uid w) (watchers w) n
        (target w) (targetStack w) (shouldObserve w) (events w).
Definition set_target (t : option nat) (stack : list (option nat)) (w : world)
  : world :=
  World (wheap w) (observers w) (subs w) (dep_uid w) (watchers w)
        (watcher_uid w) t stack (shouldObserve w) (events w).
Definition log (e : event) (w : world) : world :=
  World (wheap w) (observers w) (subs w) (dep_uid w) (watchers w)
        (watcher_uid w) (target w) (targetStack w) (shouldObserve w)
        (events w ++ [e]).

(** [toggleObserving] *)
Definition toggleObserving (b : bool) (w : world) : world :=
  World (wheap w) (observers w) (subs w) (dep_uid w) (watchers w)
        (watcher_uid w) (target w) (targetStack w) b (events w).

(** ** dep.js *)

Definition subs_of (w : world) (d : nat) : list nat := default [] (subs w !! d).

(** [new Dep()]: [this.id = uid++; this.subs = []].  A node without
    an entry in [subs] has no subscribers, which is what the fresh id
    has. *)
Definition new_dep (w : world) : nat * world :=
  let d := dep_uid w in
  (d, set_dep_uid (S d) w).

(** [addSub]: [this.subs.push(sub)] *)
Definition addSub (d sub : nat) (w : world) : world :=
  set_subs (<[d := subs_of w d ++ [sub]]> (subs w)) w.

(** Modelled from the spec: [remove] of shared/util is not under src/.
    [removeSub] calls it to unsubscribe a unit from a node; it takes the
    first occurrence of the item out of the list. *)
Fixpoint remove (l : list nat) (x : nat) : list nat :=
  match l with
  | [] => []
  | y :: r => if bool_decide (y = x) then r else y :: remove r x
  end.

(** [removeSub] *)
Definition removeSub (d sub : nat) (w : world) : world :=
  set_subs (<[d := remove (subs_of w d) sub]> (subs w)) w.

(** [pushTarget], [popTarget] *)
Definition pushTarget (t : option nat) (w : world) : world :=
  set_target t (t :: targetStack w) w.

Definition popTarget (w : world) : world :=
  let stack := tail (targetStack w) in
  set_target (default None (head stack)) stack w.

(** ** watcher.js: dependency collection *)

Definition set_collect (deps newDeps : list nat) (depIds newDepIds : gset nat)
    (x : watcher) : watcher :=
  Watcher (w_user x) (w_deep x) (w_lazy x) (w_sync x) (w_active x) (w_dirty x)
          deps newDeps depIds newDepIds (w_value x) (w_getter x)
          (w_ancestors x).

(** [addDep] *)
Definition addDep (id d : nat) (w : world) : world :=
  match watchers w !! id with
  | None => w
  | Some x =>
      if bool_decide (d ∈ w_newDepIds x) then w
      else
        let x' := set_collect (w_deps x) (w_newDeps x ++ [d]) (w_depIds x)
                              ({[d]} ∪ w_newDepIds x) x in
        let w := set_watchers (<[id := x']> (watchers w)) w in
        if bool_decide (d ∈ w_depIds x) then w else addSub d id w
  end.

(** [Dep.prototype.depend] *)
Definition depend (d : nat) (w : world) : world :=
  match target w with
  | Some id => addDep id d w
  | None => w
  end.

Definition depend_all (ds : list nat) (w : world) : world :=
  foldl (λ w d, depend d w) w ds.

(** [cleanupDeps] *)
Definition cleanupDeps (id : nat) (w : world) : world :=
  match watchers w !! id with
  | None => w
  | Some x =>
      (* let i = this.deps.length; while (i--) ... *)
      let w :=
        foldr (λ d w, if bool_decide (d ∈ w_newDepIds x) then w
                      else removeSub d id w) w (w_deps x) in
      let x' := set_collect (w_newDeps x) [] (w_newDepIds x) ∅ x in
      set_watchers (<[id := x']> (watchers w)) w
  end.

(** ** error.js *)

(** [logError] *)
Definition logError (cfg : config) (err : value) (w : world) : outcome * world :=
  let w := if production cfg then w else log (EvWarn (js "Error in")) w in
  if hasConsole cfg then (Return VUndef, log (EvConsoleError err) w)
  else (Throw err, w).

(** [globalHandleError] *)
Definition globalHandleError (cfg : config) (err : value) (w : world)
  : outcome * world :=
  match errorHandler cfg with
  | Some handler =>
      let w := log (EvErrorHandler err) w in
      match handler err with
      | Return v => (Return v, w)
      | Throw e =>
          if negb (strict_eq e err) then           (* e !== err *)
            match logError cfg e w with
            | (Throw e', w) => (Throw e', w)
            | (Return _, w) => logError cfg err w
            end
          else logError cfg err w
      end
  | None => logError cfg err w
  end.

(** The hooks of one ancestor.  [Some o] means that [handleError]
    finishes with [o] at once. *)
Fixpoint run_captured (cfg : config) (hooks : list captured) (w : world)
  : option outcome * world :=
  match hooks with
  | [] => (None, w)
  | CapturedReturns true :: _ => (Some (Return VUndef), w)    (* if (capture) return *)
  | CapturedReturns false :: rest => run_captured cfg rest w
  | CapturedThrows e :: rest =>
      match globalHandleError cfg e w with
      | (Throw e', w) => (Some (Throw e'), w)
      | (Return _, w) => run_captured cfg rest w
      end
  end.

(** [while ((cur = cur.$parent))] *)
Fixpoint walk_parents (cfg : config) (ancestors : list (list captured))
    (w : world) : option outcome * world :=
  match ancestors with
  | [] => (None, w)
  | hooks :: rest =>
      match run_captured cfg hooks w with
      | (Some o, w) => (Some o, w)
      | (None, w) => walk_parents cfg rest w
      end
  end.

(** [handleError] *)
Definition handleError (cfg : config) (err : value)
    (ancestors : list (list captured)) (w : world) : outcome * world :=
  let w := pushTarget None (log (EvHandleError err) w) in
  let '(o, w) :=
    match walk_parents cfg ancestors w with
    | (Some o, w) => (o, w)
    | (None, w) => globalHandleError cfg err w
    end in
  (o, popTarget w).                                           (* finally *)

(** Running user code: every dependency node it reaches calls
    [depend()]. *)
Definition run_code (code : behaviour) (w : world) : outcome * world :=
  let '(reads, o) := code (bool_decide (is_Some (target w))) (wheap w) in
  (o, depend_all reads w).

(** [invokeWithErrorHandling].  The branch that attaches a [catch] to a
    returned promise acts after the call has returned and is left
    out. *)
Definition invokeWithErrorHandling (cfg : config) (handler : behaviour)
    (ancestors : list (list captured)) (w : world) : outcome * world :=
  match run_code handler w with
  | (Return v, w) => (Return v, w)
  | (Throw e, w) =>
      match handleError cfg e ancestors w with
      | (Throw e', w) => (Throw e', w)
      | (Return _, w) => (Return VUndef, w)
      end
  end.

Fixpoint invoke_all (cfg : config) (handlers : list behaviour)
    (ancestors : list (list captured)) (w : world) : outcome * world :=
  match handlers with
  | [] => (Return VUndef, w)
  | h :: rest =>
      match invokeWithErrorHandling cfg h ancestors w with
      | (Throw e, w) => (Throw e, w)
      | (Return _, w) => invoke_all cfg rest ancestors w
      end
  end.

(** ** lifecycle.js: [callHook]

    [handlers] is [vm.$options[hook]], [hasHookEvent] is
    [vm._hasHookEvent] and [listeners] is [vm._events['hook:' + hook]],
    which [$emit] calls through [invokeWithErrorHandling]. *)
Definition callHook (cfg : config) (handlers : option (list behaviour))
    (hasHookEvent : bool) (listeners : option (list behaviour))
    (ancestors : list (list captured)) (w : world) : outcome * world :=
  let w := pushTarget None w in
  match invoke_all cfg (default [] handlers) ancestors w with
  | (Throw e, w) => (Throw e, w)
  | (Return _, w) =>
      match
        if hasHookEvent then invoke_all cfg (default [] listeners) ancestors w
        else (Return VUndef, w)
      with
      | (Throw e, w) => (Throw e, w)
      | (Return _, w) => (Return VUndef, popTarget w)
      end
  end.

(** ** watcher.js: [get] *)

Section WatcherGet.
Variable cfg : config.

(** Modelled from the spec: [traverse] of observer/traverse.js is not
    under src/.  For a deep watcher it recursively touches every
    reachable property of the result; [traverse h v] lists the
    dependency nodes that are touched. *)
Variable traverse : heap → value → list nat.

(** The [catch] block: the value so far, the exception that leaves
    the block, and the state. *)
Definition get_catch (x : watcher) (o : outcome) (w : world)
  : value * option value * world :=
  match o with
  | Return v => (v, None, w)
  | Throw e =>
      if w_user x then
        match handleError cfg e (w_ancestors x) w with
        | (Return _, w) => (VUndef, None, w)
        | (Throw e', w) => (VUndef, Some e', w)
        end
      else (VUndef, Some e, w)                               (* throw e *)
  end.

(** The [finally] block. *)
Definition get_finally (id : nat) (x : watcher) (value : value) (w : world)
  : world :=
  let w := if w_deep x then depend_all (traverse (wheap w) value) w else w in
  let w := popTarget w in
  cleanupDeps id w.

Definition get (id : nat) (w : world) : option (outcome * world) :=
  match watchers w !! id with
  | None => None
  | Some x =>
      let w := pushTarget (Some id) w in
      let '(o, w) := run_code (w_getter x) w in
      let '(value, thrown, w) := get_catch x o w in
      let w := get_finally id x value w in
      Some (match thrown with Some e => Throw e | None => Return value end, w)
  end.
End WatcherGet.

(** ** Reading properties *)

Fixpoint find_prop (props : list (jsstring * prop)) (key : jsstring)
  : option prop :=
  match props with
  | [] => None
  | (k, p) :: rest => if bool_decide (k = key) then Some p else find_prop rest key
  end.

Definition is_array (h : heap) (v : value) : bool :=
  match v with
  | VRef a => match h !! a with
              | Some o => bool_decide (o_class o = CArray)
              | None => false
              end
  | _ => false
  end.

Definition elems_of (h : heap) (v : value) : list value :=
  match v with
  | VRef a => match h !! a with
              | Some o => o_elems o
              | None => []
              end
  | _ => []
  end.

(** [e && e.__ob__ && e.__ob__.dep.depend()] *)
Definition depend_element (h : heap) (e : value) : list nat * outcome :=
  match e with
  | VRef a =>
      match h !! a with
      | Some o =>
          match o_ob o with
          | Some (ObObserver d) => ([d], Return VUndef)
          | Some (ObForeign v) =>
              if truthy v then ([], Throw TypeError) else ([], Return VUndef)
          | None => ([], Return VUndef)
          end
      | None => ([], Return VUndef)
      end
  | _ => ([], Return VUndef)
  end.

(** [dependArray].  It recurses into nested arrays without looking for
    cycles; [stack] is the number of nested calls the engine allows
    before it throws a [RangeError]. *)
Fixpoint dependArray (stack : nat) (h : heap) (elems : list value)
  : list nat * outcome :=
  match stack with
  | 0 => ([], Throw RangeError)
  | S stack' =>
      (fix loop (es : list value) : list nat * outcome :=
         match es with
         | [] => ([], Return VUndef)
         | e :: rest =>
             match depend_element h e with
             | (r1, Throw x) => (r1, Throw x)
             | (r1, Return _) =>
                 match
                   if is_array h e then dependArray stack' h (elems_of h e)
                   else ([], Return VUndef)
                 with
                 | (r2, Throw x) => (r1 ++ r2, Throw x)
                 | (r2, Return _) =>
                     let '(r3, o) := loop rest in (r1 ++ r2 ++ r3, o)
                 end
             end
         end) elems
  end.

(** The value behind a reactive property:
    [getter ? getter.call(obj) : val] *)
Definition reactive_value (p : prop) (r : reactive) : value :=
  if r_getter r then p_value p else r_val r.

(** [reactiveGetter] *)
Definition reactiveGetter (stack : nat) (tracking : bool) (h : heap)
    (p : prop) (r : reactive) : list nat * outcome :=
  let value := reactive_value p r in
  if tracking then                                   (* if (Dep.target) *)
    match r_childOb r with
    | Some c =>
        if is_array h value then
          match dependArray stack h (elems_of h value) with
          | (rs, Throw x) => (r_dep r :: c :: rs, Throw x)
          | (rs, Return _) => (r_dep r :: c :: rs, Return value)
          end
        else ([r_dep r; c], Return value)
    | None => ([r_dep r], Return value)
    end
  else ([], Return value).

(** Reading a property that [defineReactive] has not touched. *)
Definition plain_value (p : prop) : value :=
  if p_get p then p_value p
  else if p_set p then VUndef
  else p_value p.

(** [obj[key]] on own string-keyed properties.  Inherited properties and
    the properties of primitive wrappers read as [undefined]. *)
Definition get_prop (stack : nat) (tracking : bool) (h : heap)
    (obj : value) (key : jsstring) : list nat * outcome :=
  match obj with
  | VUndef | VNull => ([], Throw TypeError)
  | VRef a =>
      match h !! a with
      | Some o =>
          match find_prop (o_props o) key with
          | Some p =>
              match p_reactive p with
              | Some r => reactiveGetter stack tracking h p r
              | None => ([], Return (plain_value p))
              end
          | None => ([], Return VUndef)
          end
      | None => ([], Return VUndef)
      end
  | _ => ([], Return VUndef)
  end.

(** ** Getter functions *)

(** A small expression language for getter functions such as
    [() => cond ? a : b]. *)
Inductive expr :=
| EConst (v : value)
| EProp (obj : expr) (key : jsstring)
| ECond (c t e : expr)
| EThrow (e : value).

Fixpoint eval (stack : nat) (e : expr) (tracking : bool) (h : heap)
  : list nat * outcome :=
  match e with
  | EConst v => ([], Return v)
  | EThrow x => ([], Throw x)
  | EProp obj key =>
      match eval stack obj tracking h with
      | (r1, Throw x) => (r1, Throw x)
      | (r1, Return v) =>
          let '(r2, o) := get_prop stack tracking h v key in (r1 ++ r2, o)
      end
  | ECond c t e =>
      match eval stack c tracking h with
      | (r1, Throw x) => (r1, Throw x)
      | (r1, Return v) =>
          let '(r2, o) := eval stack (if truthy v then t else e) tracking h in
          (r1 ++ r2, o)
      end
  end.

(** ** lang.js: [parsePath] *)

Definition in_range (lo hi c : N) : bool := ((lo <=? c) && (c <=? hi))%N.

(** The character class of [unicodeRegExp]. *)
Definition unicode_letter (c : N) : bool :=
  in_range 0x61 0x7A c || in_range 0x41 0x5A c ||
  (c =? 0xB7)%N ||
  in_range 0xC0 0xD6 c || in_range 0xD8 0xF6 c ||
  in_range 0xF8 0x37D c || in_range 0x37F 0x1FFF c ||
  in_range 0x200C 0x200D c || in_range 0x203F 0x2040 c ||
  in_range 0x2070 0x218F c || in_range 0x2C00 0x2FEF c ||
  in_range 0x3001 0xD7FF c || in_range 0xF900 0xFDCF c ||
  in_range 0xFDF0 0xFFFD c.

(** The characters that [bailRE] lets through:
    the class of [unicodeRegExp], [.], [$], [_] and [\d]. *)
Definition path_char (c : N) : bool :=
  unicode_letter c || (c =? 0x2E)%N || (c =? 0x24)%N || (c =? 0x5F)%N ||
  in_range 0x30 0x39 c.

(** [bailRE.test(path)] *)
Definition bailRE_test (path : jsstring) : bool :=
  existsb (λ c, negb (path_char c)) path.

(** [path.split('.')] *)
Fixpoint split_dot (path : jsstring) : list jsstring :=
  match path with
  | [] => [[]]
  | c :: rest =>
      if (c =? 0x2E)%N then [] :: split_dot rest
      else match split_dot rest with
           | [] => [[c]]
           | seg :: segs => (c :: seg) :: segs
           end
  end.

(** The function that [parsePath] returns, applied to [obj]. *)
Fixpoint path_getter (stack : nat) (segments : list jsstring) (obj : value)
    (tracking : bool) (h : heap) : list nat * outcome :=
  match segments with
  | [] => ([], Return obj)
  | seg :: rest =>
      if negb (truthy obj) then ([], Return VUndef)          (* if (!obj) return *)
      else
        match get_prop stack tracking h obj seg with
        | (r1, Throw x) => (r1, Throw x)
        | (r1, Return v) =>
            let '(r2, o) := path_getter stack rest v tracking h in
            (r1 ++ r2, o)
        end
  end.

Definition parsePath (stack : nat) (path : jsstring)
  : option (value → behaviour) :=
  if bailRE_test path then None
  else Some (path_getter stack (split_dot path)).

(** Modelled from the spec: [noop] of shared/util is not under src/.  It
    is the no-op getter, which returns [undefined]. *)
Definition noop : behaviour := λ _ _, ([], Return VUndef).

(** ** watcher.js: the constructor *)

Record watcher_options := WatcherOptions {
  opt_deep : bool;
  opt_user : bool;
  opt_lazy : bool;
  opt_sync : bool
}.

Definition set_value (v : value) (x : watcher) : watcher :=
  Watcher (w_user x) (w_deep x) (w_lazy x) (w_sync x) (w_active x) (w_dirty x)
          (w_deps x) (w_newDeps x) (w_depIds x) (w_newDepIds x) v (w_getter x)
          (w_ancestors x).

Section WatcherNew.
Variable cfg : config.
Variable traverse : heap → value → list nat.
Variable stack : nat.

(** [new Watcher(vm, expOrFn, cb, options)].  [expOrFn] is a path or
    a function; the result is the id of the new watcher and how the
    constructor finishes. *)
Definition new_watcher (vm : value) (ancestors : list (list captured))
    (expOrFn : jsstring + behaviour) (options : option watcher_options)
    (w : world) : option (nat * outcome * world) :=
  let opts := default (WatcherOptions false false false false) options in
  let id := S (watcher_uid w) in                             (* ++uid *)
  let w := set_watcher_uid id w in
  let '(getter, w) :=
    match expOrFn with
    | inr f => (f, w)
    | inl path =>
        match parsePath stack path with
        | Some g => (g vm, w)
        | None =>
            (noop,
             if production cfg then w
             else log (EvWarn (js "Failed watching path")) w)
        end
    end in
  let x := Watcher (opt_user opts) (opt_deep opts) (opt_lazy opts)
                   (opt_sync opts) true (opt_lazy opts) [] [] ∅ ∅
                   VUndef getter ancestors in
  let w := set_watchers (<[id := x]> (watchers w)) w in
  if opt_lazy opts then Some (id, Return VUndef, w)
  else
    match get cfg traverse id w with
    | None => None
    | Some (Return v, w) =>
        (* this.value = this.get() *)
        Some (id, Return VUndef,
              set_watchers (alter (set_value v) id (watchers w)) w)
    | Some (Throw e, w) => Some (id, Throw e, w)
    end.
End WatcherNew.

(** ** observer/index.js *)

Definition set_ob (m : option obmark) (o : jsobj) : jsobj :=
  Obj (o_class o) (o_vnode o) (o_isVue o) (o_extensible o) m
      (o_intercepted o) (o_props o) (o_elems o).
Definition set_intercepted (b : bool) (o : jsobj) : jsobj :=
  Obj (o_class o) (o_vnode o) (o_isVue o) (o_extensible o) (o_ob o)
      b (o_props o) (o_elems o).
Definition set_props (ps : list (jsstring * prop)) (o : jsobj) : jsobj :=
  Obj (o_class o) (o_vnode o) (o_isVue o) (o_extensible o) (o_ob o)
      (o_intercepted o) ps (o_elems o).
Definition set_elems (es : list value) (o : jsobj) : jsobj :=
  Obj (o_class o) (o_vnode o) (o_isVue o) (o_extensible o) (o_ob o)
      (o_intercepted o) (o_props o) es.

Definition set_obj (a : nat) (o : jsobj) (w : world) : world :=
  set_heap (<[a := o]> (wheap w)) w.

(** Replace the descriptor of [key], or add the key at the end. *)
Fixpoint define_prop (key : jsstring) (p : prop) (props : list (jsstring * prop))
  : list (jsstring * prop) :=
  match props with
  | [] => [(key, p)]
  | (k, q) :: rest =>
      if bool_decide (k = key) then (k, p) :: rest
      else (k, q) :: define_prop key p rest
  end.

(** Modelled from the spec: [isObject] of shared/util is not under src/.
    It separates objects from the primitives that the reactive surface
    skips: [obj !== null && typeof obj === 'object']. *)
Definition isObject (h : heap) (v : value) : option (nat * jsobj) :=
  match v with
  | VRef a =>
      match h !! a with
      | Some o => if bool_decide (o_class o = CFunction) then None else Some (a, o)
      | None => None
      end
  | _ => None
  end.

(** The second branch of [observe]:
    [shouldObserve && !isServerRendering() &&
     (Array.isArray(value) || isPlainObject(value)) &&
     Object.isExtensible(value) && !value._isVue] *)
Definition observable (cfg : config) (w : world) (o : jsobj) : bool :=
  shouldObserve w && negb (serverRendering cfg) &&
  (bool_decide (o_class o = CArray) || bool_decide (o_class o = CPlain)) &&
  o_extensible o && negb (o_isVue o).

(** [ob.vmCount++] *)
Definition bump_vmCount (d : nat) (w : world) : world :=
  set_observers
    (alter (λ ob, Observer (ob_value ob) (S (ob_vmCount ob))) d (observers w)) w.

(** [obj[key]] as [defineReactive] reads it before the accessor is
    installed. *)
Definition read_own (o : jsobj) (key : jsstring) : value :=
  match find_prop (o_props o) key with
  | Some p =>
      match p_reactive p with
      | Some r => reactive_value p r
      | None => plain_value p
      end
  | None => VUndef
  end.

(** The slot that a captured getter and setter keep working on. *)
Definition slot_of (o : jsobj) (key : jsstring) : value :=
  match find_prop (o_props o) key with
  | Some p =>
      match p_reactive p with
      | Some r => reactive_value p r
      | None => p_value p
      end
  | None => VUndef
  end.

Fixpoint for_each {A : Type} (step : A → world → option world)
    (xs : list A) (w : world) : option world :=
  match xs with
  | [] => Some w
  | x :: rest =>
      match step x w with
      | Some w => for_each step rest w
      | None => None
      end
  end.

Section ObserveBody.
Variable cfg : config.

(** The recursive calls of [observe]. *)
Variable observe_rec : value → bool → world → option (option nat * world).

(** [observeArray] *)
Definition observeArray_with (items : list value) (w : world) : option world :=
  for_each (λ v w, snd <$> observe_rec v false w) items w.

(** [defineReactive(obj, key, val, customSetter, shallow)].  [val] is
    [None] when the call has two arguments.  [Object.defineProperty]
    is taken to succeed: it throws only when a key is added to a
    non-extensible object, which [walk] never does. *)
Definition defineReactive_with (a : nat) (key : jsstring) (val : option value)
    (customSetter shallow : bool) (w : world) : option world :=
  let '(d, w) := new_dep w in
  match wheap w !! a with
  | None => Some w
  | Some o =>
      let property := find_prop (o_props o) key in
      if bool_decide (p_configurable <$> property = Some false) then Some w
      else
        let getter := default false (p_get <$> property) in
        let setter := default false (p_set <$> property) in
        let val :=
          if (negb getter || setter) && bool_decide (val = None)
          then read_own o key
          else default VUndef val in
        match
          if shallow then Some (None, w) else observe_rec val false w
        with
        | None => None
        | Some (childOb, w) =>
            match wheap w !! a with
            | None => Some w
            | Some o =>
                let p := Prop_ true true true true (slot_of o key)
                           (Some (Reactive d val childOb shallow customSetter
                                           getter setter)) in
                Some (set_obj a (set_props (define_prop key p (o_props o)) o) w)
            end
        end
  end.

(** [Object.keys(obj)] *)
Definition own_keys (o : jsobj) : list jsstring :=
  (filter (λ kp, p_enumerable kp.2 = true) (o_props o)).*1.

(** [walk] *)
Definition walk_with (a : nat) (w : world) : option world :=
  match wheap w !! a with
  | None => Some w
  | Some o =>
      for_each (λ key w, defineReactive_with a key None false false w)
               (own_keys o) w
  end.

(** [new Observer(value)]; the observer is named by the id of its
    [dep]. *)
Definition new_observer (a : nat) (o : jsobj) (w : world)
  : option (nat * world) :=
  let '(d, w) := new_dep w in
  let w := set_observers (<[d := Observer a 0]> (observers w)) w in
  let o := set_ob (Some (ObObserver d)) o in       (* def(value, '__ob__', this) *)
  if bool_decide (o_class o = CArray) then
    (* protoAugment or copyAugment *)
    let w := set_obj a (set_intercepted true o) w in
    (λ w, (d, w)) <$> observeArray_with (o_elems o) w
  else
    (λ w, (d, w)) <$> walk_with a (set_obj a o w).

(** The body of [observe]. *)
Definition observe_body (v : value) (asRootData : bool) (w : world)
  : option (option nat * world) :=
  match isObject (wheap w) v with
  | None => Some (None, w)
  | Some (a, o) =>
      if o_vnode o then Some (None, w)                 (* value instanceof VNode *)
      else
        match
          match o_ob o with
          | Some (ObObserver d) => Some (Some d, w)
          | _ =>
              if observable cfg w o then
                (λ '(d, w), (Some d, w)) <$> new_observer a o w
              else Some (None, w)
          end
        with
        | None => None
        | Some (Some d, w) =>
            Some (Some d, if asRootData then bump_vmCount d w else w)
        | Some (None, w) => Some (None, w)
        end
  end.
End ObserveBody.

(** [observe].  Observing a value observes what it contains; [fuel]
    bounds the depth of these nested calls and [None] means that it ran
    out (lemma [observe_total]: the number of values that can still be
    wrapped is enough). *)
Fixpoint observe (cfg : config) (fuel : nat) (v : value) (asRootData : bool)
    (w : world) : option (option nat * world) :=
  match fuel with
  | 0 => None
  | S fuel' => observe_body cfg (observe cfg fuel') v asRootData w
  end.

Definition observeArray (cfg : config) (fuel : nat) :=
  observeArray_with (observe cfg fuel).
Definition defineReactive (cfg : config) (fuel : nat) :=
  defineReactive_with (observe cfg fuel).

(** [Dep.prototype.notify] on the node [d], with [Watcher.update]
    recorded as an event. *)
Definition dep_notify (cfg : config) (d : nat) (w : world) : world :=
  (notify cfg (λ w, subs_of w d) (λ id w, log (EvUpdate id) w)
          (log (EvNotify d) w)).2.

Definition set_reactive (a : nat) (key : jsstring) (f : prop → prop)
    (w : world) : world :=
  match wheap w !! a with
  | None => w
  | Some o =>
      match find_prop (o_props o) key with
      | None => w
      | Some p => set_obj a (set_props (define_prop key (f p) (o_props o)) o) w
      end
  end.

Definition with_slot (v : value) (p : prop) : prop :=
  Prop_ (p_enumerable p) (p_configurable p) (p_get p) (p_set p) v (p_reactive p).
Definition with_val (v : value) (p : prop) : prop :=
  Prop_ (p_enumerable p) (p_configurable p) (p_get p) (p_set p) (p_value p)
        ((λ r, Reactive (r_dep r) v (r_childOb r) (r_shallow r)
                        (r_customSetter r) (r_getter r) (r_setter r))
           <$> p_reactive p).
Definition with_childOb (c : option nat) (p : prop) : prop :=
  Prop_ (p_enumerable p) (p_configurable p) (p_get p) (p_set p) (p_value p)
        ((λ r, Reactive (r_dep r) (r_val r) c (r_shallow r)
                        (r_customSetter r) (r_getter r) (r_setter r))
           <$> p_reactive p).

(** [reactiveSetter] of the property [key] of the object at [a]. *)
Definition reactiveSetter (cfg : config) (fuel : nat) (a : nat) (key : jsstring)
    (newVal : value) (w : world) : option world :=
  match wheap w !! a with
  | None => None
  | Some o =>
      match find_prop (o_props o) key with
      | None => None
      | Some p =>
          match p_reactive p with
          | None => None
          | Some r =>
              let value := reactive_value p r in
              if strict_eq newVal value ||
                 (negb (strict_eq newVal newVal) && negb (strict_eq value value))
              then Some w
              else
                let w := if negb (production cfg) && r_customSetter r
                         then log EvCustomSetter w else w in
                if r_getter r && negb (r_setter r) then Some w
                else
                  let w := if r_setter r
                           then set_reactive a key (with_slot newVal) w
                           else set_reactive a key (with_val newVal) w in
                  match
                    if r_shallow r then Some (None, w)
                    else observe cfg fuel newVal false w
                  with
                  | None => None
                  | Some (childOb, w) =>
                      let w := set_reactive a key (with_childOb childOb) w in
                      Some (dep_notify cfg (r_dep r) w)
                  end
          end
      end
  end.

(** ** observer/array.js *)

Inductive method := Push | Pop | Shift | Unshift | Splice | Sort | Reverse.

(** What a method returns: a value, a new array with the given
    elements, or the array itself. *)
Inductive mresult := RValue (v : value) | RArray (elems : list value) | RThis.

Definition to_integer (v : value) : Z :=
  match v with
  | VNum (Num z) => z
  | VBool true => 1
  | _ => 0
  end.

Definition num (n : nat) : value := VNum (Num (Z.of_nat n)).

Fixpoint insert_value (le : value → value → bool) (x : value) (l : list value)
  : list value :=
  match l with
  | [] => [x]
  | y :: r => if le x y then x :: l else y :: insert_value le x r
  end.

(** The seven methods of [Array.prototype], on the elements of [this].
    [le x y] tells whether the comparison function of [sort] puts [x]
    before [y]; strings are not converted to numbers by [splice]. *)
Definition arrayProto (le : value → value → bool) (m : method)
    (elems args : list value) : mresult * list value :=
  match m with
  | Push => (RValue (num (length (elems ++ args))), elems ++ args)
  | Pop =>
      match reverse elems with
      | [] => (RValue VUndef, [])
      | x :: r => (RValue x, reverse r)
      end
  | Shift =>
      match elems with
      | [] => (RValue VUndef, [])
      | x :: r => (RValue x, r)
      end
  | Unshift => (RValue (num (length (args ++ elems))), args ++ elems)
  | Splice =>
      let len := Z.of_nat (length elems) in
      let rel := to_integer (default VUndef (head args)) in
      let start := if (rel <? 0)%Z then Z.max (len + rel) 0 else Z.min rel len in
      let count :=
        match args with
        | [] => 0%Z
        | [_] => (len - start)%Z
        | _ :: dc :: _ => Z.min (Z.max (to_integer dc) 0) (len - start)
        end in
      let s := Z.to_nat start in
      let c := Z.to_nat count in
      (RArray (take c (drop s elems)),
       take s elems ++ drop 2 args ++ drop (s + c) elems)
  | Sort => (RThis, foldr (insert_value le) [] elems)
  | Reverse => (RThis, reverse elems)
  end.

Section ArrayMethods.
Variable cfg : config.

(** [const original = arrayProto[method]] *)
Variable original : method → list value → list value → mresult * list value.

Definition inserted (m : method) (args : list value) : option (list value) :=
  match m with
  | Push | Unshift => Some args
  | Splice => Some (drop 2 args)                      (* args.slice(2) *)
  | Pop | Shift | Sort | Reverse => None
  end.

(** [mutator] for [method], called on the array at [this]. *)
Definition mutator (fuel : nat) (m : method) (this : nat) (args : list value)
    (w : world) : option (mresult * world) :=
  match wheap w !! this with
  | None => None
  | Some o =>
      let '(result, elems) := original m (o_elems o) args in
      let w := set_obj this (set_elems elems o) w in
      match o_ob o with
      | Some (ObObserver ob) =>
          match
            match inserted m args with
            | Some items => observeArray cfg fuel items w
            | None => Some w
            end
          with
          | None => None
          | Some w => Some (result, dep_notify cfg ob w)
          end
      | _ => None
      end
  end.
End ArrayMethods.

(** ** watcher.js: [update], [run], [evaluate], [depend], [teardown] *)

Definition set_dirty (b : bool) (x : watcher) : watcher :=
  Watcher (w_user x) (w_deep x) (w_lazy x) (w_sync x) (w_active x) b
          (w_deps x) (w_newDeps x) (w_depIds x) (w_newDepIds x) (w_value x)
          (w_getter x) (w_ancestors x).

Definition set_active (b : bool) (x : watcher) : watcher :=
  Watcher (w_user x) (w_deep x) (w_lazy x) (w_sync x) b (w_dirty x)
          (w_deps x) (w_newDeps x) (w_depIds x) (w_newDepIds x) (w_value x)
          (w_getter x) (w_ancestors x).

Section WatcherMethods.
Variable cfg : config.
Variable traverse : heap → value → list nat.

(** [this.cb] of each watcher, applied to the new and the old value. *)
Variable cb : nat → value → value → behaviour.

(** [run].  The result lists the calls of the callback that were
    made, each with the new and the old value. *)
Definition run (id : nat) (w : world)
  : option (outcome * list (value * value) * world) :=
  match watchers w !! id with
  | None => None
  | Some x =>
      if w_active x then
        match get cfg traverse id w with
        | None => None
        | Some (Throw e, w) => Some (Throw e, [], w)
        | Some (Return value, w) =>
            match watchers w !! id with
            | None => None
            | Some x =>
                if negb (strict_eq value (w_value x)) ||
                   bool_decide (is_Some (isObject (wheap w) value)) ||
                   w_deep x
                then
                  let oldValue := w_value x in
                  let w := set_watchers (<[id := set_value value x]> (watchers w)) w in
                  let '(o, w) :=
                    if w_user x
                    then invokeWithErrorHandling cfg (cb id value oldValue)
                           (w_ancestors x) w
                    else run_code (cb id value oldValue) w in
                  Some (match o with Throw e => Throw e | Return _ => Return VUndef end,
                        [(value, oldValue)], w)
                else Some (Return VUndef, [], w)
            end
        end
      else Some (Return VUndef, [], w)
  end.

(** [update].  [flushNow] is [flushSchedulerQueue], which
    [queueWatcher] calls in the synchronous development mode. *)
Definition update (flushNow : sched → option sched) (id : nat)
    (st : world * sched)
  : option (outcome * list (value * value) * (world * sched)) :=
  let '(w, s) := st in
  match watchers w !! id with
  | None => None
  | Some x =>
      if w_lazy x then
        Some (Return VUndef, [],
              (set_watchers (<[id := set_dirty true x]> (watchers w)) w, s))
      else if w_sync x then
        (λ '(o, calls, w), (o, calls, (w, s))) <$> run id w
      else
        (λ s, (Return VUndef, [], (w, s))) <$> queueWatcher cfg flushNow id s
  end.

(** [evaluate] *)
Definition evaluate (id : nat) (w : world) : option (outcome * world) :=
  match get cfg traverse id w with
  | None => None
  | Some (Throw e, w) => Some (Throw e, w)
  | Some (Return v, w) =>
      Some (Return VUndef,
            set_watchers
              (alter (λ x, set_dirty false (set_value v x)) id (watchers w)) w)
  end.
End WatcherMethods.

(** [Watcher.prototype.depend]:
    [let i = this.deps.length; while (i--) this.deps[i].depend()] *)
Definition watcher_depend (id : nat) (w : world) : world :=
  match watchers w !! id with
  | None => w
  | Some x => depend_all (reverse (w_deps x)) w
  end.

(** [teardown].  [vm_watchers] is [this.vm._watchers] and
    [isBeingDestroyed] is [this.vm._isBeingDestroyed]; [remove] is the
    function that [removeSub] uses. *)
Definition teardown (isBeingDestroyed : bool) (id : nat)
    (st : world * list nat) : world * list nat :=
  let '(w, vm_watchers) := st in
  match watchers w !! id with
  | None => st
  | Some x =>
      if w_active x then
        let vm_watchers :=
          if isBeingDestroyed then vm_watchers else remove vm_watchers id in
        let w := foldr (λ d w, removeSub d id w) w (w_deps x) in
        (set_watchers (<[id := set_active false x]> (watchers w)) w, vm_watchers)
      else st
  end.

(** ** util/next-tick.js *)

(** What is handed to [nextTick]: a callback [cb] with its context, or
    nothing, in which case [nextTick] returns a promise.  A callback is
    represented by the calls of [nextTick] that it makes and by how it
    finishes; [ancestors] are the [errorCaptured] hooks above its
    context, which [handleError] walks. *)
Local Unset Elimination Schemes.
Inductive task :=
| Callback (label : nat) (registers : list task) (finish : outcome)
           (ancestors : list (list captured))
| Promised (label : nat).
Local Set Elimination Schemes.

Record ticker := Ticker {
  callbacks : list task;
  tick_pending : bool;                  (* pending *)
  timers : nat;                         (* calls of timerFunc not yet served *)
  ran : list nat;                       (* callbacks called, oldest first *)
  resolved : list nat                   (* promises resolved *)
}.

Definition ticker_init : ticker := Ticker [] false 0 [] [].

(** [nextTick(cb, ctx)] *)
Definition nextTick (t : task) (k : ticker) : ticker :=
  let cbs := callbacks k ++ [t] in
  if tick_pending k
  then Ticker cbs true (timers k) (ran k) (resolved k)
  else Ticker cbs true (S (timers k)) (ran k) (resolved k).       (* timerFunc() *)

Definition nextTick_all (ts : list task) (k : ticker) : ticker :=
  foldl (λ k t, nextTick t k) k ts.

Section NextTick.
Variable cfg : config.

(** [typeof Promise !== 'undefined'] *)
Variable hasPromise : bool.

(** The function that [nextTick] pushes, when it is called. *)
Definition call_task (t : task) (st : ticker * world)
  : outcome * (ticker * world) :=
  let '(k, w) := st in
  match t with
  | Callback label registers finish ancestors =>
      let k := Ticker (callbacks k) (tick_pending k) (timers k)
                      (ran k ++ [label]) (resolved k) in
      let k := nextTick_all registers k in
      match finish with
      | Return _ => (Return VUndef, (k, w))
      | Throw e =>
          match handleError cfg e ancestors w with
          | (Throw e', w) => (Throw e', (k, w))
          | (Return _, w) => (Return VUndef, (k, w))
          end
      end
  | Promised label =>
      (Return VUndef,
       (if hasPromise
        then Ticker (callbacks k) (tick_pending k) (timers k) (ran k)
                    (resolved k ++ [label])
        else k, w))
  end.

(** [for (let i = 0; i < copies.length; i++) copies[i]()] *)
Fixpoint call_copies (copies : list task) (st : ticker * world)
  : outcome * (ticker * world) :=
  match copies with
  | [] => (Return VUndef, st)
  | t :: rest =>
      match call_task t st with
      | (Throw e, st) => (Throw e, st)
      | (Return _, st) => call_copies rest st
      end
  end.

(** [flushCallbacks] *)
Definition flushCallbacks (st : ticker * world) : outcome * (ticker * world) :=
  let '(k, w) := st in
  let copies := callbacks k in
  call_copies copies (Ticker [] false (timers k) (ran k) (resolved k), w).

(** The timer that [timerFunc] set goes off. *)
Definition fire (st : ticker * world) : outcome * (ticker * world) :=
  let '(k, w) := st in
  match timers k with
  | 0 => (Return VUndef, st)
  | S n =>
      flushCallbacks
        (Ticker (callbacks k) (tick_pending k) n (ran k) (resolved k), w)
  end.
End NextTick.

(** ** instance/state.js: computed getters, [getData], [$watch] *)

Section State.
Variable cfg : config.
Variable traverse : heap → value → list nat.
Variable stack : nat.

(** The getter that [createComputedGetter] returns; [watcher] is
    [this._computedWatchers && this._computedWatchers[key]]. *)
Definition computedGetter (watcher : option nat) (w : world)
  : option (outcome * world) :=
  match watcher with
  | None => Some (Return VUndef, w)
  | Some id =>
      match watchers w !! id with
      | None => None
      | Some x =>
          match
            if w_dirty x then evaluate cfg traverse id w
            else Some (Return VUndef, w)
          with
          | None => None
          | Some (Throw e, w) => Some (Throw e, w)
          | Some (Return _, w) =>
              let w := if bool_decide (is_Some (target w))
                       then watcher_depend id w else w in
              match watchers w !! id with
              | None => None
              | Some x => Some (Return (w_value x), w)
              end
          end
      end
  end.

(** [getData(data, vm)].  The empty object of the [catch] block is a
    new object, at the end of the heap. *)
Definition getData (data : behaviour) (ancestors : list (list captured))
    (w : world) : outcome * world :=
  let w := pushTarget None w in
  let '(o, w) :=
    match run_code data w with
    | (Return v, w) => (Return v, w)
    | (Throw e, w) =>
        match handleError cfg e ancestors w with
        | (Throw e', w) => (Throw e', w)
        | (Return _, w) =>
            (Return (VRef (length (wheap w))),
             set_heap (wheap w ++ [Obj CPlain false false true None false [] []]) w)
        end
    end in
  (o, popTarget w).                                         (* finally *)

(** [vm.$watch(expOrFn, cb, options)], for a [cb] that is a function.
    [cb v] is the callback applied to one argument.  The result names
    the watcher that the returned [unwatchFn] tears down and lists the
    values that the callback was called with. *)
Definition watch (vm : value) (ancestors : list (list captured))
    (expOrFn : jsstring + behaviour) (cb : value → behaviour)
    (options : option watcher_options) (immediate : bool) (w : world)
  : option (nat * outcome * list value * world) :=
  let opts := default (WatcherOptions false false false false) options in
  (* options.user = true *)
  let opts := WatcherOptions (opt_deep opts) true (opt_lazy opts) (opt_sync opts) in
  match new_watcher cfg traverse stack vm ancestors expOrFn (Some opts) w with
  | None => None
  | Some (id, Throw e, w) => Some (id, Throw e, [], w)
  | Some (id, Return _, w) =>
      if immediate then
        match watchers w !! id with
        | None => None
        | Some x =>
            let w := pushTarget None w in
            match invokeWithErrorHandling cfg (cb (w_value x)) ancestors w with
            | (Throw e, w) => Some (id, Throw e, [w_value x], w)
            | (Return _, w) => Some (id, Return VUndef, [w_value x], popTarget w)
            end
        end
      else Some (id, Return VUndef, [], w)
  end.
End State.

(** ** instance/events.js: [$on], [$once], [$off], [$emit] *)

(** A function value, by identity: a function of the application, or
    the closure [on] that the [k]-th call of [$once] made. *)
Inductive fref := UserFn (n : nat) | OnceFn (k : nat).

(** An element of a listener array: a function of the application,
    which has no [fn] property, or an [on] closure of [$once], which
    remembers its event and has [on.fn = fn]. *)
Inductive listener :=
| Plain (n : nat)
| OnceHandler (k : nat) (event : jsstring) (n : nat).

Global Instance fref_eq_dec : EqDecision fref.
Proof. solve_decision. Defined.
Global Instance listener_eq_dec : EqDecision listener.
Proof. solve_decision. Defined.

(** The part of a component that events.js uses.  A key of [_events]
    holds an array or, after [$off(event)], [null].  [once_uid] counts
    the [on] closures made so far and [tips] lists the calls of [tip],
    newest last. *)
Record component := Component {
  _events : gmap jsstring (option (list listener));
  _hasHookEvent : bool;
  once_uid : nat;
  tips : list jsstring
}.

Definition set_events (e : gmap jsstring (option (list listener)))
    (vm : component) : component :=
  Component e (_hasHookEvent vm) (once_uid vm) (tips vm).

(** [vm._events[event]] where the code tests it: [undefined] and [null]
    are falsy, an array is truthy, also an empty one. *)
Definition cbs_of (vm : component) (event : jsstring)
  : option (list listener) :=
  mjoin (_events vm !! event).

(** [hookRE.test(event)] for [/^hook:/] *)
Definition hookRE (event : jsstring) : bool :=
  bool_decide (js "hook:" `prefix_of` event).

Definition on_one (event : jsstring) (fn : listener) (vm : component)
  : component :=
  let cbs := default [] (cbs_of vm event) in
  Component (<[event := Some (cbs ++ [fn])]> (_events vm))
            (if hookRE event then true else _hasHookEvent vm)
            (once_uid vm) (tips vm).

(** [vm.$on(event, fn)], for a string or an array of strings. *)
Definition on (event : jsstring + list jsstring) (fn : listener)
    (vm : component) : component :=
  match event with
  | inl e => on_one e fn vm
  | inr es => foldl (λ vm e, on_one e fn vm) vm es
  end.

(** [vm.$once(event, fn)], for a function [fn] of the application. *)
Definition once (event : jsstring) (fn : nat) (vm : component) : component :=
  let k := once_uid vm in
  on (inl event) (OnceHandler k event fn)
     (Component (_events vm) (_hasHookEvent vm) (S k) (tips vm)).

(** [cb === fn || cb.fn === fn] *)
Definition matches (fn : fref) (cb : listener) : bool :=
  match cb with
  | Plain n => bool_decide (fn = UserFn n)
  | OnceHandler k _ n =>
      bool_decide (fn = OnceFn k) || bool_decide (fn = UserFn n)
  end.

(** The loop [while (i--)] of [$off]. *)
Fixpoint off_loop (fn : fref) (cbs : list listener) (i : nat)
  : list listener :=
  match i with
  | 0 => cbs
  | S i =>
      match cbs !! i with
      | Some cb => if matches fn cb then delete i cbs (* splice; break *)
                   else off_loop fn cbs i
      | None => off_loop fn cbs i
      end
  end.

Definition off_one (event : jsstring) (fn : option fref) (vm : component)
  : component :=
  match cbs_of vm event with
  | None => vm
  | Some cbs =>
      match fn with
      | None => set_events (<[event := None]> (_events vm)) vm
      | Some fn =>
          set_events (<[event := Some (off_loop fn cbs (length cbs))]> (_events vm)) vm
      end
  end.

(** The arguments of [$off]: none, or an event and perhaps a function. *)
Inductive off_args :=
| OffAll
| OffEvent (event : jsstring + list jsstring) (fn : option fref).

(** [vm.$off(...)] *)
Definition off (args : off_args) (vm : component) : component :=
  match args with
  | OffAll => set_events ∅ vm
  | OffEvent (inl e) fn => off_one e fn vm
  | OffEvent (inr es) fn => foldl (λ vm e, off_one e fn vm) vm es
  end.

Section Emit.
Variable cfg : config.

(** [String.prototype.toLowerCase] *)
Variable toLowerCase : jsstring → jsstring.

(** The code of the functions of the application, applied to the
    arguments of the event.  They are taken not to call [$on], [$once]
    or [$off] themselves. *)
Variable body : nat → list value → behaviour.

(** [invokeWithErrorHandling(cbs[i], vm, args, vm, info)].  The result
    lists the functions of the application that were called, with
    their arguments. *)
Definition call_listener (cb : listener) (args : list value)
    (ancestors : list (list captured)) (st : world * component)
  : outcome * list (nat * list value) * (world * component) :=
  let '(w, vm) := st in
  match cb with
  | Plain n =>
      let '(o, w) := invokeWithErrorHandling cfg (body n args) ancestors w in
      (o, [(n, args)], (w, vm))
  | OnceHandler k event n =>
      (* vm.$off(event, on); fn.apply(vm, arguments) *)
      let vm := off (OffEvent (inl event) (Some (OnceFn k))) vm in
      let '(o, w) := invokeWithErrorHandling cfg (body n args) ancestors w in
      (match o with Return _ => Return VUndef | Throw e => Throw e end,
       [(n, args)], (w, vm))
  end.

Fixpoint emit_loop (cbs : list listener) (args : list value)
    (ancestors : list (list captured)) (st : world * component)
  : outcome * list (nat * list value) * (world * component) :=
  match cbs with
  | [] => (Return VUndef, [], st)
  | cb :: rest =>
      match call_listener cb args ancestors st with
      | (Throw e, calls, st) => (Throw e, calls, st)
      | (Return _, calls, st) =>
          let '(o, calls', st) := emit_loop rest args ancestors st in
          (o, calls ++ calls', st)
      end
  end.

(** [vm.$emit(event, ...args)].  The loop runs over the listeners that
    there are when it starts: an array of more than one listener is
    copied, and the only element of a shorter one is read before any
    listener runs. *)
Definition emit (event : jsstring) (args : list value)
    (ancestors : list (list captured)) (st : world * component)
  : outcome * list (nat * list value) * (world * component) :=
  let '(w, vm) := st in
  let vm :=
    if negb (production cfg) then
      let lowerCaseEvent := toLowerCase event in
      if negb (bool_decide (lowerCaseEvent = event)) &&
         bool_decide (is_Some (cbs_of vm lowerCaseEvent))
      then Component (_events vm) (_hasHookEvent vm) (once_uid vm)
                     (tips vm ++ [lowerCaseEvent])
      else vm
    else vm in
  match cbs_of vm event with
  | Some cbs => emit_loop cbs args ancestors (w, vm)
  | None => (Return VUndef, [], (w, vm))
  end.
End Emit.

(* ================================================================== *)
(** * Part II.  Vocabulary of the statements *)
(* ================================================================== *)

(** C8 as stated: whenever [config.async] is false, [update()] is
    invoked in ascending id order. *)
Definition notify_sorted_whenever_sync : Prop :=
  ∀ (cfg : config) (subs : unit → list nat) (update : nat → unit → unit),
    async cfg = false → Sorted le (notify cfg subs update tt).1.

Definition self_inv (w k : nat) (st : sched) : Prop :=
  queue st = replicate (S k) w ∧ index st = k ∧
  has st !! w = Some FTrue ∧
  waiting st = true ∧ flushing st = true.

Definition queued_one (id : nat) : sched :=
  Sched [id] (<[id := FTrue]> ∅) ∅ true false 0 0 [] [] [].

Definition collecting (st : sched) : Prop :=
  flushing st = false ∧ NoDup (queue st) ∧
  (∀ id, pending st id = true ↔ id ∈ queue st) ∧
  waiting st = bool_decide (queue st ≠ []) ∧
  ticks st = (if waiting st then 1 else 0) ∧
  runs st = [] ∧ warned st = [] ∧ updated st = [].

Definition pushed (id : nat) (st : sched) : sched :=
  set_queue (queue st ++ [id]) (set_has (<[id := FTrue]> (has st)) st).

Definition quiet (before_effect : nat → option (list nat))
    (run_effect : nat → list nat → list nat) (id : nat) : Prop :=
  (before_effect id = None ∨ before_effect id = Some []) ∧
  ∀ h, run_effect id h = [].

(** C2 as stated: within one flush a watcher runs at most once, however
    the flush was filled and whatever the runs do. *)
Definition run_at_most_once_per_flush : Prop :=
  ∀ cfg before_effect run_effect ws st fuel st',
    dev_sync cfg = false →
    queue_all cfg (λ _, None) ws sched_init = Some st →
    flushSchedulerQueue cfg before_effect run_effect fuel st = Some st' →
    NoDup (runs st').

(** A watcher without [before] hook whose every run makes it stale. *)
Definition self_triggering (before_effect : nat → option (list nat))
    (run_effect : nat → list nat → list nat) (w : nat) : Prop :=
  before_effect w = None ∧ ∀ h, run_effect w h = [w].

(** C4 as stated: the flush of a self-triggering watcher comes to an
    end. *)
Definition cycle_guard_always : Prop :=
  ∀ cfg before_effect run_effect w,
    self_triggering before_effect run_effect w →
    ∃ fuel st', turn cfg before_effect run_effect fuel [w] sched_init = Some st'.

(** [Dep.target] is the top of [targetStack]. *)
Definition wf_target (w : world) : Prop :=
  target w = default None (head (targetStack w)).

(** Two worlds with the same subscriber lists and watchers. *)
Definition same_deps (w1 w2 : world) : Prop :=
  subs w1 = subs w2 ∧ watchers w1 = watchers w2.

(** What the error path and the target stack leave alone. *)
Definition same_state (w1 w2 : world) : Prop :=
  wheap w1 = wheap w2 ∧ observers w1 = observers w2 ∧ subs w1 = subs w2 ∧
  dep_uid w1 = dep_uid w2 ∧ watchers w1 = watchers w2 ∧
  watcher_uid w1 = watcher_uid w2 ∧ shouldObserve w1 = shouldObserve w2.

(** [w'] differs from [w] by reported events and by the reader. *)
Definition reported (w w' : world) : Prop :=
  same_state w' w ∧ events w `prefix_of` events w'.

Definition reports_only (f : world → outcome * world) : Prop :=
  ∀ w, reported w (f w).2 ∧
       target (f w).2 = target w ∧
       targetStack (f w).2 = targetStack w ∧
       ∀ w', (f w').1 = (f w).1.

Definition handle_steps (cfg : config) (err : value)
    (ancestors : list (list captured)) (w : world) : outcome * world :=
  match walk_parents cfg ancestors w with
  | (Some o, w) => (o, w)
  | (None, w) => globalHandleError cfg err w
  end.

(** How many times [id] occurs in a subscriber list. *)
Definition occ (id : nat) (l : list nat) : nat :=
  length (filter (λ y, y = id) l).

(** What collection leaves alone. *)
Definition same_outside (w w' : world) : Prop :=
  wheap w' = wheap w ∧ observers w' = observers w ∧ dep_uid w' = dep_uid w ∧
  watcher_uid w' = watcher_uid w ∧ target w' = target w ∧
  targetStack w' = targetStack w ∧ shouldObserve w' = shouldObserve w ∧
  events w' = events w.

Definition addDeps (id : nat) (ds : list nat) (w : world) : world :=
  foldl (λ w d, addDep id d w) w ds.

(** Between two evaluations: nothing is pending, and the watcher is
    subscribed exactly once to each of its dependency nodes and to no
    other node. *)
Definition idle (id : nat) (w : world) : Prop :=
  ∃ x, watchers w !! id = Some x ∧
    w_newDeps x = [] ∧ w_newDepIds x = ∅ ∧
    NoDup (w_deps x) ∧ w_depIds x = list_to_set (w_deps x) ∧
    ∀ d, occ id (subs_of w d) = if decide (d ∈ w_deps x) then 1 else 0.

(** One evaluation that reads [rs], seen from the dependency sets. *)
Definition collect (id : nat) (rs : list nat) (w : world) : world :=
  cleanupDeps id (addDeps id rs w).

(** The value that [get] hands back when nothing propagates. *)
Definition getter_value (x : watcher) (h : heap) : value :=
  match (w_getter x true h).2 with
  | Return v => v
  | Throw _ => VUndef
  end.

(** The dependency nodes whose [depend()] runs during one evaluation:
    those that the getter reaches and, for a deep watcher, those that
    [traverse] touches. *)
Definition get_reads (traverse : heap → value → list nat) (x : watcher)
    (h : heap) : list nat :=
  (w_getter x true h).1 ++
  (if w_deep x then traverse h (getter_value x h) else []).

(** How [get] finishes. *)
Definition get_outcome (cfg : config) (x : watcher) (w : world) : outcome :=
  match (w_getter x true (wheap w)).2 with
  | Return v => Return v
  | Throw e =>
      if w_user x then
        match (handleError cfg e (w_ancestors x) w).1 with
        | Return _ => Return VUndef
        | Throw e' => Throw e'
        end
      else Throw e
  end.

Definition observer_of (o : jsobj) : option nat :=
  match o_ob o with
  | Some (ObObserver d) => Some d
  | _ => None
  end.

(** [observe] would create an [Observer] for this object. *)
Definition wrappable (cfg : config) (w : world) (o : jsobj) : bool :=
  negb (o_vnode o) && negb (bool_decide (is_Some (observer_of o))) &&
  observable cfg w o.

Fixpoint count_if {A : Type} (P : A → bool) (l : list A) : nat :=
  match l with
  | [] => 0
  | x :: r => (if P x then 1 else 0) + count_if P r
  end.

(** The number of objects that can still be wrapped. *)
Definition unwrapped (cfg : config) (w : world) : nat :=
  count_if (wrappable cfg w) (wheap w).

(** What [observe] keeps of an object. *)
Definition keeps (o o' : jsobj) : Prop :=
  o_class o' = o_class o ∧ o_vnode o' = o_vnode o ∧ o_isVue o' = o_isVue o ∧
  o_extensible o' = o_extensible o ∧ o_elems o' = o_elems o ∧
  ∀ d, o_ob o = Some (ObObserver d) → o_ob o' = Some (ObObserver d).

(** [w'] is [w] after some observing: more observers, more reactive
    properties, nothing else. *)
Definition grows (w w' : world) : Prop :=
  subs w' = subs w ∧ watchers w' = watchers w ∧
  watcher_uid w' = watcher_uid w ∧ target w' = target w ∧
  targetStack w' = targetStack w ∧ shouldObserve w' = shouldObserve w ∧
  events w' = events w ∧
  length (wheap w') = length (wheap w) ∧
  ∀ a o, wheap w !! a = Some o → ∃ o', wheap w' !! a = Some o' ∧ keeps o o'.

(** The value is an object that carries an [Observer]. *)
Definition observed_in (w : world) (v : value) (d : nat) : Prop :=
  ∃ a o, isObject (wheap w) v = Some (a, o) ∧ o_ob o = Some (ObObserver d).

(** [observe] answers with an observer for this value: it carries one
    or one can be created. *)
Definition to_observe (cfg : config) (w : world) (v : value) : Prop :=
  ∃ a o, isObject (wheap w) v = Some (a, o) ∧ o_vnode o = false ∧
    (is_Some (observer_of o) ∨ observable cfg w o = true).

(** What a call of [observe] does when the fuel is enough. *)
Definition observe_ok (cfg : config) (bound : nat)
    (rec : value → bool → world → option (option nat * world)) : Prop :=
  ∀ v asRoot w, unwrapped cfg w < bound →
    ∃ r w', rec v asRoot w = Some (r, w') ∧ grows w w' ∧
      unwrapped cfg w' ≤ unwrapped cfg w ∧
      (to_observe cfg w v → ∃ d, r = Some d ∧ observed_in w' v d) ∧
      (¬ to_observe cfg w v → r = None ∧ w' = w).

(** [h] as it behaves when [Dep.target] is not set. *)
Definition untracked (h : behaviour) : behaviour := λ _, h false.

(** [w'] is [w] with more reported events; the reader and its stack
    are the same. *)
Definition reported_only (w w' : world) : Prop :=
  reported w w' ∧ target w' = target w ∧ targetStack w' = targetStack w.

Definition untracked_all (hs : option (list behaviour))
  : option (list behaviour) :=
  (λ l : list behaviour, untracked <$> l) <$> hs.

Global Instance event_eq_dec : EqDecision event.
Proof. solve_decision. Defined.

(** How many times [update()] of the watcher [id] is among the events. *)
Definition updates_of (id : nat) (evs : list event) : nat :=
  length (filter (λ e, e = EvUpdate id) evs).

(** How many times [notify()] of the node [d] is among the events. *)
Definition notifies_of (d : nat) (evs : list event) : nat :=
  length (filter (λ e, e = EvNotify d) evs).

(** The order in which [notify] calls the subscribers. *)
Definition fire_order (cfg : config) (l : list nat) : list nat :=
  if dev_sync cfg then sort_by_id l else l.

(** [newVal === value || (newVal !== newVal && value !== value)] *)
Definition same_value (newVal value : value) : bool :=
  strict_eq newVal value ||
  (negb (strict_eq newVal newVal) && negb (strict_eq value value)).

(** The values that [observe] leaves alone: what is not an object, the
    nodes of the render tree, and, when they carry no observer yet, what
    is neither an array nor a plain object, what is not extensible and
    what is marked [_isVue]. *)
Definition skipped (w : world) (v : value) : Prop :=
  isObject (wheap w) v = None ∨
  ∃ a o, isObject (wheap w) v = Some (a, o) ∧
    (o_vnode o = true ∨
     (observer_of o = None ∧
      ((o_class o ≠ CArray ∧ o_class o ≠ CPlain) ∨
       o_extensible o = false ∨ o_isVue o = true))).

(** The arguments that a method inserts into the array. *)
Definition new_items (m : method) (args : list value) : list value :=
  match m with
  | Push | Unshift => args
  | Splice => drop 2 args
  | Pop | Shift | Sort | Reverse => []
  end.

(** [d] is the node of the observer of some object. *)
Definition observer_node (h : heap) (d : nat) : Prop :=
  ∃ a o, h !! a = Some o ∧ observer_of o = Some d.

(** The getter [() => vm.c ? vm.a : vm.b]. *)
Definition ternary (vm : nat) (c a b : jsstring) : expr :=
  ECond (EProp (EConst (VRef vm)) c)
        (EProp (EConst (VRef vm)) a)
        (EProp (EConst (VRef vm)) b).

(** [segments.join('.')] *)
Fixpoint join_dot (segments : list jsstring) : jsstring :=
  match segments with
  | [] => []
  | [seg] => seg
  | seg :: rest => seg ++ 0x2E%N :: join_dot rest
  end.

(** What dependency collection never changes in a watcher. *)
Definition same_watcher (x x' : watcher) : Prop :=
  w_user x' = w_user x ∧ w_deep x' = w_deep x ∧ w_lazy x' = w_lazy x ∧
  w_sync x' = w_sync x ∧ w_active x' = w_active x ∧ w_dirty x' = w_dirty x ∧
  w_value x' = w_value x ∧ w_getter x' = w_getter x ∧
  w_ancestors x' = w_ancestors x.

Definition demo_cfg : config := Config false true false true true None.

Definition data (v : value) : prop := Prop_ true true false false v None.

Definition demo_heap : heap :=
  [ Obj CPlain false false true None false
        [ (js "cond", data (VBool true)); (js "a", data (VNum (Num 1)));
          (js "b", data (VNum (Num 2))); (js "arr", data (VRef 1)) ] [];
    Obj CArray false false true None false []
        [ VNum (Num 1); VNum (Num 2); VNum (Num 3) ] ].

Definition demo_fresh : world :=
  World demo_heap ∅ ∅ 0 ∅ 0 None [] true [].

Definition demo_observed : world :=
  default demo_fresh (snd <$> observe demo_cfg 3 (VRef 0) true demo_fresh).

Definition no_traverse : heap → value → list nat := λ _ _, [].

Definition demo_getter : behaviour :=
  eval 8 (ternary 0 (js "cond") (js "a") (js "b")).

Definition demo_watcher : watcher :=
  Watcher false false false false true false [] [] ∅ ∅ VUndef demo_getter [].

Definition demo : world :=
  set_watchers (<[1 := demo_watcher]> ∅) (set_watcher_uid 1 demo_observed).

Definition failing_getter : behaviour := λ _ _, ([], Throw (VStr (js "boom"))).

Definition demo_user_watcher : watcher :=
  Watcher true false false false true false [] [] ∅ ∅ VUndef failing_getter [].

(** A world without console: a user watcher whose getter throws. *)
Definition headless_cfg : config := Config false true false false true None.

Definition headless : world :=
  World [] ∅ ∅ 0 (<[1 := demo_user_watcher]> ∅) 1 None [] true [].

(** C6 as stated fails: without a console [handleError] throws the
    error again, so the evaluation of a user watcher whose getter
    throws does not yield [undefined]. *)
Definition user_getter_error_yields_undefined : Prop :=
  ∀ cfg traverse id w x e,
    watchers w !! id = Some x → wf_target w → w_user x = true →
    (w_getter x true (wheap w)).2 = Throw e →
    ∃ w', get cfg traverse id w = Some (Return VUndef, w').

Definition push_all (ts : list (option nat)) (w : world) : world :=
  foldl (λ w t, pushTarget t w) w ts.

Definition pop_times (n : nat) (w : world) : world := Nat.iter n popTarget w.

(** The state of the scheduler inside the loop of a flush. *)
Definition in_flush (st : sched) : Prop :=
  flushing st = true ∧ waiting st = true.

(** What user code can do to the scheduler while the entry at the
    cursor is being processed: the entries up to the cursor stay, and
    nothing runs and nothing is reported. *)
Definition queued_behind (st st' : sched) : Prop :=
  in_flush st' ∧ index st' = index st ∧
  take (S (index st)) (queue st') = take (S (index st)) (queue st) ∧
  length (queue st) ≤ length (queue st') ∧
  runs st' = runs st ∧ warned st' = warned st ∧
  updated st' = updated st ∧ ticks st' = ticks st ∧
  circular st' = circular st.

(** The scheduler at rest. *)
Definition at_rest (st : sched) : Prop :=
  queue st = [] ∧ has st = ∅ ∧ waiting st = false ∧ flushing st = false.

(** [vm] of the small application and a plain object
    [{ x: 1 }] that nothing refers to yet. *)
Definition spare_heap : heap :=
  demo_heap ++ [Obj CPlain false false true None false
                    [(js "x", data (VNum (Num 1)))] []].

Definition spare : world :=
  default demo_fresh
    (snd <$> observe demo_cfg 3 (VRef 0) true
               (World spare_heap ∅ ∅ 0 ∅ 0 None [] true [])).

(** [{ get full () { ... } }], observed: a reactive property over a
    getter without setter. *)
Definition computed_heap : heap :=
  [Obj CPlain false false true None false
       [(js "full", Prop_ true true true false (VStr (js "ab")) None)] []].

Definition computed : world :=
  default demo_fresh
    (snd <$> observe demo_cfg 2 (VRef 0) false
               (World computed_heap ∅ ∅ 0 ∅ 0 None [] true [])).

(** [loop = []; loop.push(loop)], held by a reactive property. *)
Definition loop_heap : heap :=
  [Obj CArray false false true (Some (ObObserver 1)) true [] [VNum (Num 1); VRef 0]].

(** The watcher of a computed property: lazy, not yet evaluated. *)
Definition lazy_watcher : watcher :=
  Watcher false false true false true true [] [] ∅ ∅ VUndef demo_getter [].

Definition lazy_demo : world :=
  set_watchers (<[1 := lazy_watcher]> ∅) (set_watcher_uid 1 demo_observed).

Definition silent_cb : nat → value → value → behaviour := λ _ _ _, noop.

(** After the first evaluation of the watcher of [demo]. *)
Definition tracked : world :=
  default demo (snd <$> get demo_cfg no_traverse 1 demo).

(** A second watcher is being evaluated. *)
Definition consumer : world :=
  pushTarget (Some 2) (set_watchers (<[2 := demo_watcher]> (watchers tracked)) tracked).

(** The callbacks of a batch, the promises of a batch, and what the
    callbacks of a batch hand to [nextTick]. *)
Definition cb_labels (ts : list task) : list nat :=
  omap (λ t, match t with Callback l _ _ _ => Some l | Promised _ => None end) ts.

Definition promised_labels (ts : list task) : list nat :=
  omap (λ t, match t with Callback _ _ _ _ => None | Promised l => Some l end) ts.

Definition registered (ts : list task) : list task :=
  flat_map (λ t, match t with Callback _ rs _ _ => rs | Promised _ => [] end) ts.

(** [handleError] returns for the error of this callback. *)
Definition settles (cfg : config) (t : task) : Prop :=
  match t with
  | Callback _ _ (Throw e) ancestors =>
      ∀ w, ∃ v, (handleError cfg e ancestors w).1 = Return v
  | _ => True
  end.

Definition nonempty {A : Type} (l : list A) : bool :=
  match l with [] => false | _ => true end.

(** A batch of three: a callback that hands another one to [nextTick]
    and throws, a call without callback, and a callback that
    returns. *)
Definition batch : list task :=
  [Callback 1 [Callback 4 [] (Return VUndef) []] (Throw (VStr (js "boom"))) [];
   Promised 2;
   Callback 3 [] (Return VUndef) []].

(** The function of the application that a listener calls. *)
Definition fn_of (cb : listener) : nat :=
  match cb with Plain n => n | OnceHandler _ _ n => n end.

Definition is_plain (cb : listener) : bool :=
  match cb with Plain _ => true | OnceHandler _ _ _ => false end.

(** The [on] closures of a listener array. *)
Definition once_ids (cbs : list listener) : list nat :=
  omap (λ cb, match cb with OnceHandler k _ _ => Some k | Plain _ => None end) cbs.

(** What [$on] and [$once] keep: an [on] closure is in the array of its
    own event, once, and was counted. *)
Definition wf_component (vm : component) : Prop :=
  ∀ event cbs, cbs_of vm event = Some cbs →
    NoDup (once_ids cbs) ∧
    ∀ k ev n, OnceHandler k ev n ∈ cbs → ev = event ∧ k < once_uid vm.

Definition no_listeners : component := Component ∅ false 0 [].

(** [toLowerCase] on the letters A to Z. *)
Definition ascii_lower (s : jsstring) : jsstring :=
  map (λ c, if (65 <=? c)%N && (c <=? 90)%N then (c + 32)%N else c) s.

(** Function 2 throws, the others return. *)
Definition demo_listener (n : nat) (args : list value) : behaviour :=
  if bool_decide (n = 2) then failing_getter else noop.

(** [$on('save', f1); $once('save', f2); $on('save', f3)] *)
Definition demo_component : component :=
  on (inl (js "save")) (Plain 3)
     (once (js "save") 2 (on (inl (js "save")) (Plain 1) no_listeners)).

(** [$on('save', f1); $on('save', f3); $on('save', f1)] *)
Definition twice_registered : component :=
  on (inl (js "save")) (Plain 1)
     (on (inl (js "save")) (Plain 3) (on (inl (js "save")) (Plain 1) no_listeners)).

(* ================================================================== *)
(** * Part III.  Properties *)
(* ================================================================== *)

(** ** Sorting by id *)

Lemma insert_by_id_perm x l : insert_by_id x l ≡ₚ x :: l.
Proof.
  induction l as [|y r IH]; simpl; [done|].
  destruct (x <=? y); [done|].
  rewrite IH. apply Permutation_swap.
Qed.

Lemma sort_by_id_perm l : sort_by_id l ≡ₚ l.
Proof.
  induction l as [|x l IH]; simpl; [done|].
  by rewrite insert_by_id_perm, IH.
Qed.

Lemma insert_by_id_hd x y l :
  y ≤ x → HdRel le y l → HdRel le y (insert_by_id x l).
Proof.
  intros Hyx Hl. destruct l as [|z r]; simpl.
  - by constructor.
  - destruct (x <=? z); constructor; [done|]. by inversion Hl.
Qed.

Lemma insert_by_id_sorted x l : Sorted le l → Sorted le (insert_by_id x l).
Proof.
  induction 1 as [|y r Hr IH Hhd]; simpl.
  - by repeat constructor.
  - destruct (x <=? y) eqn:E.
    + apply Nat.leb_le in E. constructor; [by constructor|by constructor].
    + apply Nat.leb_gt in E. constructor; [done|].
      apply insert_by_id_hd; [lia|done].
Qed.

Lemma sort_by_id_sorted l : Sorted le (sort_by_id l).
Proof.
  induction l; simpl; [constructor|by apply insert_by_id_sorted].
Qed.

Lemma sort_by_id_unique l l' : Sorted le l' → l' ≡ₚ l → l' = sort_by_id l.
Proof.
  intros Hs Hp. apply (Sorted_unique le); [done|apply sort_by_id_sorted|].
  by rewrite sort_by_id_perm.
Qed.

Lemma sort_by_id_elem x l : x ∈ sort_by_id l ↔ x ∈ l.
Proof. by rewrite sort_by_id_perm. Qed.

Lemma sort_by_id_NoDup l : NoDup l → NoDup (sort_by_id l).
Proof. by rewrite sort_by_id_perm. Qed.

Lemma sort_by_id_length l : length (sort_by_id l) = length l.
Proof. by rewrite sort_by_id_perm. Qed.

(** ** [Dep.notify] *)

Section DepNotifyFacts.
Context {S : Type}.
Variable cfg : config.
Variable subs : S → list nat.
Variable update : nat → S → S.

Lemma notify_loop_calls snapshot calls st :
  (notify_loop update snapshot calls st).1 = calls ++ snapshot.
Proof.
  revert calls st. induction snapshot as [|w rest IH]; intros calls st; simpl.
  - by rewrite app_nil_r.
  - rewrite IH. by rewrite <- app_assoc.
Qed.

Lemma notify_calls st :
  (notify cfg subs update st).1 =
  if dev_sync cfg then sort_by_id (subs st) else subs st.
Proof. unfold notify. by rewrite notify_loop_calls. Qed.
End DepNotifyFacts.

(** C8, as the code has it.  [Dep.notify] calls [update()] once on each
    subscriber of the snapshot.  The snapshot is sorted by ascending
    watcher id only when the build is not a production build and
    [config.async] is false; in a production build, and whenever
    [config.async] is true, the calls follow the subscription order. *)
Theorem notify_fire_order {S : Type} (cfg : config)
    (subs : S → list nat) (update : nat → S → S) (st : S) :
  let calls := (notify cfg subs update st).1 in
  calls ≡ₚ subs st ∧
  (if production cfg then calls = subs st
   else if async cfg then calls = subs st
   else Sorted le calls ∧ calls = sort_by_id (subs st)).
Proof.
  simpl. rewrite notify_calls. unfold dev_sync.
  destruct (production cfg), (async cfg); simpl; try done.
  split; [apply sort_by_id_perm|]. split; [apply sort_by_id_sorted|done].
Qed.

(** In a production build with [config.async] false the subscribers
    [2; 1] are notified in that order. *)
Lemma notify_production_keeps_insertion_order : ¬ notify_sorted_whenever_sync.
Proof.
  intros H.
  specialize (H (Config true false false true true None) (λ _, [2; 1]) (λ _ s, s) eq_refl).
  vm_compute in H. inversion H as [|? ? _ Hhd]. inversion Hhd. lia.
Qed.

Section SchedulerFacts.
Variable cfg : config.
Variable before_effect : nat → option (list nat).
Variable run_effect : nat → list nat → list nat.

Local Abbreviation queueWatcher := (queueWatcher cfg).
Local Abbreviation queue_all := (queue_all cfg).
Local Abbreviation flush_loop := (flush_loop cfg before_effect run_effect).
Local Abbreviation flushSchedulerQueue :=
  (flushSchedulerQueue cfg before_effect run_effect).

Lemma queueWatcher_pending flushNow id st :
  pending st id = true → queueWatcher flushNow id st = Some st.
Proof. intros H. unfold queueWatcher. by rewrite H. Qed.

Lemma pending_insert_true id h st : pending (set_has (<[id := FTrue]> h) st) id = true.
Proof. unfold pending; simpl. by rewrite lookup_insert_eq. Qed.

Lemma pending_insert_null id h st : pending (set_has (<[id := FNull]> h) st) id = false.
Proof. unfold pending; simpl. by rewrite lookup_insert_eq. Qed.

(** *** A watcher that re-queues itself *)

Lemma insert_pos_at_cursor q idx id : insert_pos q idx id (S idx) = S idx.
Proof. simpl. by rewrite Nat.ltb_irrefl. Qed.

Lemma self_requeue w k st flushNow :
  self_inv w k st →
  let st1 := log_run w (set_has (<[w := FNull]> (has st)) st) in
  ∃ st2, queueWatcher flushNow w st1 = Some st2 ∧
    (∀ c, self_inv w (S k) (set_index (S (index st2)) (set_circular c st2))) ∧
    pending st2 w = true ∧
    circular st2 = circular st ∧ runs st2 = runs st ++ [w] ∧
    warned st2 = warned st ∧ ticks st2 = ticks st ∧ updated st2 = updated st.
Proof.
  intros (Hq & Hi & Hh & Hw & Hf). simpl.
  unfold queueWatcher.
  assert (pending (log_run w (set_has (<[w:=FNull]> (has st)) st)) w = false) as ->.
  { unfold pending; simpl. by rewrite lookup_insert_eq. }
  simpl. rewrite Hf. simpl. rewrite Hw. simpl.
  eexists. split; [done|]. simpl. rewrite Hq, Hi.
  rewrite length_replicate, insert_pos_at_cursor.
  rewrite take_ge, drop_ge by (rewrite length_replicate; lia).
  unfold self_inv, pending; simpl. rewrite !lookup_insert_eq.
  repeat split; try done.
  change (w :: replicate k w) with (replicate (S k) w).
  change [w] with (replicate 1 w). rewrite <- replicate_add.
  do 2 f_equal. lia.
Qed.

Variable w : nat.
Hypothesis no_before : before_effect w = None.
Hypothesis self_trigger : ∀ h, run_effect w h = [w].

Lemma self_loop_dev flushNow n : ∀ k st fuel,
  production cfg = false →
  self_inv w k st → default 0 (circular st !! w) = k →
  k + n = MAX_UPDATE_COUNT → n < fuel →
  ∃ st', flush_loop flushNow fuel st = Some st' ∧
    runs st' = runs st ++ replicate (S n) w ∧
    warned st' = warned st ++ [w] ∧
    ticks st' = ticks st ∧ updated st' = updated st.
Proof.
  induction n as [|n IH]; intros k st fuel Hprod Hinv Hc Hk Hfuel.
  - destruct fuel as [|fuel]; [lia|]. simpl.
    destruct (self_requeue _ k st flushNow Hinv)
      as (st2 & Hq & _ & Hp & Hc2 & Hr & Hw & Ht & Hu).
    destruct Hinv as (Hqu & Hi & _).
    rewrite Hqu, Hi, lookup_replicate_2 by lia.
    rewrite no_before, self_trigger. simpl. rewrite Hq, Hprod, Hp. simpl.
    rewrite Hc2, Hc.
    replace (k + 1) with (S MAX_UPDATE_COUNT) by lia.
    replace (MAX_UPDATE_COUNT <? S MAX_UPDATE_COUNT) with true by done.
    eexists. split; [done|]. simpl. by rewrite Hr, Hw, Ht, Hu.
  - destruct fuel as [|fuel]; [lia|]. simpl.
    destruct (self_requeue _ k st flushNow Hinv)
      as (st2 & Hq & Hnext & Hp & Hc2 & Hr & Hw & Ht & Hu).
    pose proof Hinv as (Hqu & Hi & _).
    rewrite Hqu, Hi, lookup_replicate_2 by lia.
    rewrite no_before, self_trigger. simpl. rewrite Hq, Hprod, Hp. simpl.
    rewrite Hc2, Hc.
    assert ((MAX_UPDATE_COUNT <? k + 1) = false) as ->.
    { apply Nat.ltb_ge. lia. }
    destruct (IH (S k)
      (set_index (S (index st2))
         (set_circular (<[w:=k + 1]> (circular st)) st2)) fuel Hprod)
      as (st' & Hl & Hr' & Hw' & Ht' & Hu'); try lia.
    + apply Hnext.
    + simpl. rewrite lookup_insert_eq. simpl. lia.
    + exists st'. split; [done|]. simpl in *.
      rewrite Hr', Hr, Hw', Hw, Ht', Ht, Hu', Hu.
      repeat split; try done.
      by rewrite <- app_assoc.
Qed.

Lemma self_loop_production flushNow fuel : ∀ k st,
  production cfg = true →
  self_inv w k st →
  flush_loop flushNow fuel st = None.
Proof.
  induction fuel as [|fuel IH]; intros k st Hprod Hinv; [done|]. simpl.
  destruct (self_requeue _ k st flushNow Hinv)
    as (st2 & Hq & Hnext & Hp & Hc2 & Hr & Hw & Ht & Hu).
  pose proof Hinv as (Hqu & Hi & _).
  rewrite Hqu, Hi, lookup_replicate_2 by lia.
  rewrite no_before, self_trigger. simpl. rewrite Hq, Hprod. simpl.
  apply (IH (S k)); [done|].
  specialize (Hnext (circular st2)). by destruct st2.
Qed.

Lemma self_flush_dev fuel st :
  production cfg = false →
  queue st = [w] → has st !! w = Some FTrue → waiting st = true →
  circular st !! w = None →
  MAX_UPDATE_COUNT + 2 ≤ fuel →
  ∃ st', flushSchedulerQueue fuel st = Some st' ∧
    runs st' = runs st ++ replicate (S MAX_UPDATE_COUNT) w ∧
    warned st' = warned st ++ [w] ∧ ticks st' = ticks st ∧
    queue st' = [] ∧ waiting st' = false ∧ flushing st' = false.
Proof.
  intros Hprod Hq Hh Hw Hc Hfuel.
  destruct fuel as [|fuel]; [lia|]. simpl.
  edestruct (self_loop_dev (flushSchedulerQueue fuel) MAX_UPDATE_COUNT 0
    (set_index 0 (set_queue (sort_by_id (queue st)) (set_flushing true st)))
    fuel Hprod) as (st' & -> & Hr & Hwn & Ht & Hu).
  - unfold self_inv; simpl. by rewrite Hq.
  - simpl. by rewrite Hc.
  - done.
  - unfold MAX_UPDATE_COUNT in *. lia.
  - eexists. split; [done|]. simpl. by rewrite Hr, Hwn, Ht.
Qed.

Lemma self_flush_production fuel st :
  production cfg = true →
  queue st = [w] → has st !! w = Some FTrue → waiting st = true →
  flushSchedulerQueue fuel st = None.
Proof.
  intros Hprod Hq Hh Hw.
  destruct fuel as [|fuel]; [done|]. simpl.
  rewrite (self_loop_production (flushSchedulerQueue fuel) fuel 0); [done..|].
  unfold self_inv; simpl. by rewrite Hq.
Qed.

Lemma queueWatcher_first flushNow id :
  queueWatcher flushNow id sched_init =
  if dev_sync cfg then flushNow (queued_one id)
  else Some (add_tick (queued_one id)).
Proof. unfold queueWatcher, pending. simpl. by rewrite lookup_empty. Qed.

Lemma self_turn_dev fuel :
  production cfg = false → MAX_UPDATE_COUNT + 2 ≤ fuel →
  ∃ st', turn cfg before_effect run_effect fuel [w] sched_init = Some st' ∧
    runs st' = replicate (S MAX_UPDATE_COUNT) w ∧ warned st' = [w] ∧
    queue st' = [] ∧ waiting st' = false ∧ flushing st' = false.
Proof.
  intros Hprod Hfuel. unfold turn, queue_all.
  rewrite queueWatcher_first.
  destruct (dev_sync cfg) eqn:Hs.
  - destruct (self_flush_dev fuel (queued_one w))
      as (st' & -> & Hr & Hwn & Ht & Hrest); try done.
    { apply lookup_insert_eq. }
    unfold tick. rewrite Ht. cbn [queued_one ticks]. eauto.
  - unfold tick. cbn [add_tick queued_one ticks].
    edestruct (self_flush_dev fuel) as (st' & -> & Hr & Hwn & Ht & Hrest);
      [done| | | | |done|]; cbn [queue has waiting circular]; try done.
    { apply lookup_insert_eq. }
    eauto.
Qed.

Lemma self_turn_production fuel :
  production cfg = true →
  turn cfg before_effect run_effect fuel [w] sched_init = None.
Proof.
  intros Hprod. unfold turn, queue_all.
  rewrite queueWatcher_first. unfold dev_sync. rewrite Hprod.
  cbn [negb andb]. unfold tick. cbn [add_tick queued_one ticks].
  apply self_flush_production; try done. apply lookup_insert_eq.
Qed.
End SchedulerFacts.

Section BatchedTurn.
Variable cfg : config.
Variable before_effect : nat → option (list nat).
Variable run_effect : nat → list nat → list nat.

Local Abbreviation queueWatcher := (queueWatcher cfg).
Local Abbreviation queue_all := (queue_all cfg).
Local Abbreviation flush_loop := (flush_loop cfg before_effect run_effect).
Local Abbreviation flushSchedulerQueue :=
  (flushSchedulerQueue cfg before_effect run_effect).

(** *** Collecting stale watchers before the flush *)

Lemma collecting_init : collecting sched_init.
Proof.
  unfold collecting, pending; simpl. split_and!; try done.
  - constructor.
  - intros id. rewrite lookup_empty. split; [done|by intros ?%elem_of_nil].
Qed.

Lemma pending_set_has_ne id id' f st :
  id ≠ id' → pending (set_has (<[id := f]> (has st)) st) id' = pending st id'.
Proof. intros. unfold pending; simpl. by rewrite lookup_insert_ne. Qed.

Lemma queue_push_NoDup (q : list nat) id : NoDup q → id ∉ q → NoDup (q ++ [id]).
Proof.
  intros Hnd Hnin. apply NoDup_app. split_and!; [done| |apply NoDup_singleton].
  by intros x Hx ->%list_elem_of_singleton.
Qed.

Lemma pending_push id st st0 :
  (∀ x, pending st x = true ↔ x ∈ queue st) →
  ∀ x, pending (set_has (<[id := FTrue]> (has st)) st0) x = true
       ↔ x ∈ queue st ++ [id].
Proof.
  intros Hp x. rewrite elem_of_app, list_elem_of_singleton, <- Hp.
  unfold pending; simpl.
  destruct (decide (x = id)) as [->|Hne].
  - rewrite lookup_insert_eq. tauto.
  - rewrite lookup_insert_ne by done. tauto.
Qed.

Lemma queueWatcher_push flushNow id st :
  dev_sync cfg = false → pending st id = false → flushing st = false →
  queueWatcher flushNow id st =
  Some (if waiting st then pushed id st
        else add_tick (set_waiting true (pushed id st))).
Proof.
  intros Hs Hp Hf. unfold queueWatcher. rewrite Hp. simpl.
  rewrite Hf. simpl.
  destruct (waiting st); simpl; rewrite ?Hs; done.
Qed.

Lemma queueWatcher_collecting flushNow id st :
  dev_sync cfg = false → collecting st →
  ∃ st', queueWatcher flushNow id st = Some st' ∧ collecting st' ∧
    ∀ x, x ∈ queue st' ↔ x = id ∨ x ∈ queue st.
Proof.
  intros Hs (Hf & Hnd & Hp & Hw & Ht & Hr & Hwn & Hu).
  destruct (pending st id) eqn:E.
  - exists st. rewrite queueWatcher_pending by done.
    split; [done|]. split; [done|].
    apply Hp in E. intros x. split; [tauto|]. by intros [->|?].
  - assert (id ∉ queue st) as Hnin.
    { intros Hin%Hp. congruence. }
    rewrite queueWatcher_push by done.
    eexists. split; [done|].
    assert (queue st ++ [id] ≠ []) as Hne by (by destruct (queue st)).
    split.
    + destruct (waiting st) eqn:Ew; unfold collecting;
        cbn [flushing queue waiting ticks runs warned updated
             add_tick set_waiting set_queue set_has pushed];
        rewrite ?Ew in *; rewrite ?bool_decide_eq_true_2 by done;
        split_and!; try done;
        try (by apply queue_push_NoDup); try (by apply pending_push);
        by rewrite Ht.
    + intros x. destruct (waiting st);
        cbn [queue add_tick set_waiting set_queue pushed];
        rewrite elem_of_app, list_elem_of_singleton; tauto.
Qed.

Lemma queue_all_collecting flushNow ws : ∀ st,
  dev_sync cfg = false → collecting st →
  ∃ st', queue_all flushNow ws st = Some st' ∧ collecting st' ∧
    ∀ x, x ∈ queue st' ↔ x ∈ ws ∨ x ∈ queue st.
Proof.
  induction ws as [|id ws IH]; intros st Hs Hc; simpl.
  - exists st. split; [done|]. split; [done|]. intros x. rewrite elem_of_nil. tauto.
  - destruct (queueWatcher_collecting flushNow id st Hs Hc) as (st1 & -> & Hc1 & Hq1).
    destruct (IH st1 Hs Hc1) as (st2 & -> & Hc2 & Hq2).
    exists st2. split; [done|]. split; [done|].
    intros x. rewrite Hq2, Hq1, elem_of_cons. tauto.
Qed.

(** *** A flush in which no user code makes a watcher stale *)

Lemma quiet_loop flushNow n : ∀ st fuel,
  (∀ id, id ∈ queue st → quiet before_effect run_effect id) →
  length (queue st) = index st + n → n < fuel →
  ∃ st', flush_loop flushNow fuel st = Some st' ∧
    runs st' = runs st ++ drop (index st) (queue st) ∧
    queue st' = queue st ∧ warned st' = warned st ∧
    ticks st' = ticks st ∧ updated st' = updated st.
Proof.
  induction n as [|n IH]; intros st fuel Hquiet Hlen Hfuel;
    (destruct fuel as [|fuel]; [lia|]); simpl.
  - rewrite lookup_ge_None_2 by lia.
    exists st. rewrite drop_ge by lia. by rewrite app_nil_r.
  - destruct (lookup_lt_is_Some_2 (queue st) (index st)) as [id Hid]; [lia|].
    rewrite Hid.
    destruct (Hquiet id) as [Hb Hr]; [by eapply list_elem_of_lookup_2|].
    assert (match before_effect id with
            | Some ws => queue_all flushNow ws st
            | None => Some st
            end = Some st) as ->.
    { by destruct Hb as [-> | ->]. }
    rewrite Hr. simpl.
    assert (pending (log_run id (set_has (<[id:=FNull]> (has st)) st)) id = false) as ->.
    { unfold pending; simpl. by rewrite lookup_insert_eq. }
    rewrite andb_false_r.
    edestruct (IH (set_index (S (index st))
              (log_run id (set_has (<[id:=FNull]> (has st)) st))) fuel)
      as (st' & -> & Hr' & Hq' & Hw' & Ht' & Hu'); simpl; try done; try lia.
    exists st'. split; [done|]. simpl in *.
    rewrite Hr', Hq', Hw', Ht', Hu'. repeat split; try done.
    rewrite <- app_assoc. f_equal. simpl.
    by rewrite (drop_S _ _ _ Hid).
Qed.

Lemma quiet_flush fuel st :
  (∀ id, id ∈ queue st → quiet before_effect run_effect id) →
  length (queue st) + 1 < fuel →
  ∃ st', flushSchedulerQueue fuel st = Some st' ∧
    runs st' = runs st ++ sort_by_id (queue st) ∧
    queue st' = [] ∧ waiting st' = false ∧ flushing st' = false ∧
    warned st' = warned st ∧ ticks st' = ticks st.
Proof.
  intros Hquiet Hfuel. destruct fuel as [|fuel]; [lia|]. simpl.
  edestruct (quiet_loop (flushSchedulerQueue fuel) (length (queue st))
               (set_index 0 (set_queue (sort_by_id (queue st))
                  (set_flushing true st))) fuel)
    as (st' & -> & Hr' & Hq' & Hw' & Ht' & Hu'); simpl.
  - intros id Hid. apply Hquiet. by apply sort_by_id_elem.
  - by rewrite sort_by_id_length.
  - lia.
  - eexists. split; [done|]. simpl in *. by rewrite Hr', Hw', Ht'.
Qed.
End BatchedTurn.

Lemma insert_pos_bounds q idx id p :
  idx < p → idx < insert_pos q idx id p ≤ p.
Proof.
  induction p as [|i IH]; intros Hlt; [lia|]. simpl.
  destruct (idx <? i) eqn:E; simpl; [|lia].
  apply Nat.ltb_lt in E.
  destruct (id <? default 0 (q !! i)); [|lia].
  specialize (IH E). lia.
Qed.

Lemma queueWatcher_during_flush cfg flushNow id st :
  pending st id = false → flushing st = true → waiting st = true →
  index st < length (queue st) →
  ∃ st' p, queueWatcher cfg flushNow id st = Some st' ∧
    index st < p ∧ queue st' !! p = Some id ∧
    length (queue st') = S (length (queue st)) ∧
    index st' = index st ∧ pending st' id = true ∧ runs st' = runs st.
Proof.
  intros Hp Hf Hw Hi. unfold queueWatcher. rewrite Hp. simpl.
  rewrite Hf. simpl. rewrite Hw. simpl.
  pose proof (insert_pos_bounds (queue st) (index st) id _ Hi) as Hb.
  set (p := insert_pos (queue st) (index st) id (length (queue st))) in *.
  eexists _, p. split; [done|]. simpl. split_and!; try done; try lia.
  - rewrite lookup_app_r by (rewrite length_take; lia).
    rewrite length_take. by replace (p - p `min` length (queue st)) with 0 by lia.
  - rewrite length_app, length_take. simpl. rewrite length_drop. lia.
  - unfold pending; simpl. by rewrite lookup_insert_eq.
Qed.







(** ** The reader stack *)

Lemma wf_target_push t w : wf_target (pushTarget t w).
Proof. done. Qed.

Lemma wf_target_pop w : wf_target (popTarget w).
Proof. done. Qed.

Lemma pop_push t w :
  wf_target w →
  target (popTarget (pushTarget t w)) = target w ∧
  targetStack (popTarget (pushTarget t w)) = targetStack w.
Proof. intros H. unfold popTarget, pushTarget; simpl. by rewrite H. Qed.

Global Instance same_deps_equiv : Equivalence same_deps.
Proof.
  split.
  - by intros w.
  - by intros w1 w2 [].
  - intros w1 w2 w3 [] []. split; congruence.
Qed.

Global Instance same_state_equiv : Equivalence same_state.
Proof.
  split.
  - by intros w.
  - intros w1 w2 (?&?&?&?&?&?&?). by split_and!.
  - intros w1 w2 w3 (?&?&?&?&?&?&?) (?&?&?&?&?&?&?). split_and!; congruence.
Qed.

Lemma same_state_deps w1 w2 : same_state w1 w2 → same_deps w1 w2.
Proof. intros (?&?&?&?&?&?&?). by split. Qed.

Lemma same_state_log e w : same_state (log e w) w.
Proof. by split_and!. Qed.
Lemma same_state_push t w : same_state (pushTarget t w) w.
Proof. by split_and!. Qed.
Lemma same_state_pop w : same_state (popTarget w) w.
Proof. by split_and!. Qed.

(** *** [handleError] only reports *)

Global Instance reported_preorder : PreOrder reported.
Proof.
  split.
  - by intros w.
  - intros w1 w2 w3 [] []. split; by etrans.
Qed.

Lemma reported_log e w : reported w (log e w).
Proof. split; [by split_and!|]. by apply prefix_app_r. Qed.
Lemma reported_push t w : reported w (pushTarget t w).
Proof. split; [by split_and!|]. done. Qed.
Lemma reported_pop w : reported w (popTarget w).
Proof. split; [by split_and!|]. done. Qed.

Lemma reports_ret o : reports_only (λ w, (o, w)).
Proof. intros w. by split_and!. Qed.

Lemma reports_log o e : reports_only (λ w, (o, log e w)).
Proof. intros w. split_and!; try done. apply reported_log. Qed.

Lemma reports_after_log e f : reports_only f → reports_only (λ w, f (log e w)).
Proof.
  intros Hf w. destruct (Hf (log e w)) as (Hs & Ht & Hts & Ho).
  split_and!; try done.
  etrans; [apply (reported_log e)|done].
Qed.

Lemma reports_bind f (g : outcome → world → outcome * world) :
  reports_only f → (∀ o, reports_only (g o)) →
  reports_only (λ w, g (f w).1 (f w).2).
Proof.
  intros Hf Hg w. destruct (Hf w) as (Hs & Ht & Hts & Ho).
  destruct (Hg (f w).1 (f w).2) as (Hs' & Ht' & Hts' & Ho').
  split_and!.
  - by etrans.
  - congruence.
  - congruence.
  - intros w'. rewrite (Ho w'). apply Ho'.
Qed.

Lemma reports_ext f g : (∀ w, f w = g w) → reports_only f → reports_only g.
Proof.
  intros E Hf w. destruct (Hf w) as (Hs & Ht & Hts & Ho).
  rewrite <- !E. split_and!; try done. intros w'. by rewrite <- !E.
Qed.

Lemma logError_reports cfg err : reports_only (logError cfg err).
Proof.
  unfold logError.
  destruct (production cfg), (hasConsole cfg).
  - apply reports_log.
  - apply reports_ret.
  - apply (reports_after_log _ (λ w, (Return VUndef, log (EvConsoleError err) w))),
      reports_log.
  - apply (reports_after_log _ (λ w, (Throw err, w))), reports_ret.
Qed.

Lemma logError_outcome cfg err w :
  (logError cfg err w).1 = if hasConsole cfg then Return VUndef else Throw err.
Proof. unfold logError. by destruct (production cfg), (hasConsole cfg). Qed.

Lemma globalHandleError_reports cfg err : reports_only (globalHandleError cfg err).
Proof.
  unfold globalHandleError.
  destruct (errorHandler cfg) as [handler|]; [|apply logError_reports].
  apply (reports_after_log (EvErrorHandler err)
    (λ w, match handler err with
          | Return v => (Return v, w)
          | Throw e =>
              if negb (strict_eq e err)
              then match logError cfg e w with
                   | (Throw e', w) => (Throw e', w)
                   | (Return _, w) => logError cfg err w
                   end
              else logError cfg err w
          end)).
  destruct (handler err) as [v|e]; [apply reports_ret|].
  destruct (negb (strict_eq e err)); [|apply logError_reports].
  eapply reports_ext;
    [|apply (reports_bind (logError cfg e)
               (λ o, match o with
                     | Throw e' => λ w, (Throw e', w)
                     | Return _ => logError cfg err
                     end))].
  - intros w. simpl. by destruct (logError cfg e w) as [[] ?].
  - apply logError_reports.
  - intros [|]; [apply logError_reports|apply reports_ret].
Qed.

Lemma run_captured_spec cfg hooks :
  ∀ w, reported w (run_captured cfg hooks w).2 ∧
       target (run_captured cfg hooks w).2 = target w ∧
       targetStack (run_captured cfg hooks w).2 = targetStack w ∧
       ∀ w', (run_captured cfg hooks w').1 = (run_captured cfg hooks w).1.
Proof.
  induction hooks as [|[[]|e] rest IH]; intros w; simpl; try by split_and!.
  - apply IH.
  - destruct (globalHandleError_reports cfg e w) as (Hs & Ht & Hts & Ho).
    destruct (globalHandleError cfg e w) as [[v|e'] w1] eqn:E; simpl in *.
    + destruct (IH w1) as (Hs' & Ht' & Hts' & Ho').
      split_and!; [by etrans|congruence|congruence|].
      intros w'. specialize (Ho w').
      destruct (globalHandleError cfg e w') as [[v'|e''] w1']; simpl in *; [|done].
      rewrite (Ho' w1'). apply Ho'.
    + split_and!; try done.
      intros w'. specialize (Ho w').
      destruct (globalHandleError cfg e w') as [[v'|e''] w1']; simpl in *; congruence.
Qed.

Lemma walk_parents_spec cfg ancestors :
  ∀ w, reported w (walk_parents cfg ancestors w).2 ∧
       target (walk_parents cfg ancestors w).2 = target w ∧
       targetStack (walk_parents cfg ancestors w).2 = targetStack w ∧
       ∀ w', (walk_parents cfg ancestors w').1 = (walk_parents cfg ancestors w).1.
Proof.
  induction ancestors as [|hooks rest IH]; intros w; simpl; [by split_and!|].
  destruct (run_captured_spec cfg hooks w) as (Hs & Ht & Hts & Ho).
  destruct (run_captured cfg hooks w) as [[o|] w1] eqn:E; simpl in *.
  - split_and!; try done. intros w'. specialize (Ho w').
    destruct (run_captured cfg hooks w') as [[o'|] w1']; simpl in *; congruence.
  - destruct (IH w1) as (Hs' & Ht' & Hts' & Ho').
    split_and!; [by etrans|congruence|congruence|].
    intros w'. specialize (Ho w').
    destruct (run_captured cfg hooks w') as [[o'|] w1']; simpl in *; [done|].
    rewrite (Ho' w1'). apply Ho'.
Qed.

Lemma handle_steps_reports cfg err ancestors :
  reports_only (handle_steps cfg err ancestors).
Proof.
  intros w. unfold handle_steps.
  destruct (walk_parents_spec cfg ancestors w) as (Hs & Ht & Hts & Ho).
  destruct (walk_parents cfg ancestors w) as [[o|] w1] eqn:E; simpl in *.
  - split_and!; try done. intros w'. specialize (Ho w').
    destruct (walk_parents cfg ancestors w') as [[o'|] w1']; simpl in *; congruence.
  - destruct (globalHandleError_reports cfg err w1) as (Hs' & Ht' & Hts' & Ho').
    split_and!; [by etrans|congruence|congruence|].
    intros w'. specialize (Ho w').
    destruct (walk_parents cfg ancestors w') as [[o'|] w1']; simpl in *; [done|].
    apply Ho'.
Qed.

Lemma handleError_unfold cfg err ancestors w :
  handleError cfg err ancestors w =
  ((handle_steps cfg err ancestors (pushTarget None (log (EvHandleError err) w))).1,
   popTarget (handle_steps cfg err ancestors
                (pushTarget None (log (EvHandleError err) w))).2).
Proof.
  unfold handleError, handle_steps.
  destruct (walk_parents cfg ancestors _) as [[o|] w1]; [done|].
  by destruct (globalHandleError cfg err w1).
Qed.

(** [handleError] restores the reader it found and changes nothing but
    the event log; whether it returns does not depend on the state. *)
Lemma handleError_spec cfg err ancestors w :
  wf_target w →
  reported w (handleError cfg err ancestors w).2 ∧
  EvHandleError err ∈ events (handleError cfg err ancestors w).2 ∧
  target (handleError cfg err ancestors w).2 = target w ∧
  targetStack (handleError cfg err ancestors w).2 = targetStack w ∧
  ∀ w', (handleError cfg err ancestors w').1 = (handleError cfg err ancestors w).1.
Proof.
  intros Hwf. rewrite handleError_unfold. simpl.
  set (w0 := pushTarget None (log (EvHandleError err) w)).
  destruct (handle_steps_reports cfg err ancestors w0) as (Hs & Ht & Hts & Ho).
  split_and!.
  - etrans; [|apply reported_pop]. etrans; [|exact Hs].
    etrans; [apply (reported_log (EvHandleError err))|apply reported_push].
  - destruct Hs as [_ [evs Hevs]]. simpl in *. rewrite Hevs.
    rewrite !elem_of_app, list_elem_of_singleton. tauto.
  - unfold popTarget; simpl. rewrite Hts. simpl. by rewrite Hwf.
  - unfold popTarget; simpl. by rewrite Hts.
  - intros w'. rewrite handleError_unfold. simpl. apply Ho.
Qed.

(** With a console, [handleError] always returns. *)
Lemma globalHandleError_console cfg err w :
  hasConsole cfg = true → ∃ v, (globalHandleError cfg err w).1 = Return v.
Proof.
  intros Hc. unfold globalHandleError.
  destruct (errorHandler cfg) as [handler|].
  - destruct (handler err) as [v|e]; [by eexists|].
    destruct (negb (strict_eq e err)).
    + pose proof (logError_outcome cfg e (log (EvErrorHandler err) w)) as He.
      destruct (logError cfg e _) as [[] w1]; simpl in *.
      * rewrite logError_outcome, Hc. by eexists.
      * by rewrite Hc in He.
    + rewrite logError_outcome, Hc. by eexists.
  - rewrite logError_outcome, Hc. by eexists.
Qed.

Lemma run_captured_console cfg hooks : ∀ w,
  hasConsole cfg = true →
  (run_captured cfg hooks w).1 = None ∨
  ∃ v, (run_captured cfg hooks w).1 = Some (Return v).
Proof.
  induction hooks as [|[[]|e] rest IH]; intros w Hc; simpl; eauto.
  destruct (globalHandleError_console cfg e w Hc) as [v Hv].
  destruct (globalHandleError cfg e w) as [[] w1]; simpl in *; [|done].
  by apply IH.
Qed.

Lemma walk_parents_console cfg ancestors : ∀ w,
  hasConsole cfg = true →
  (walk_parents cfg ancestors w).1 = None ∨
  ∃ v, (walk_parents cfg ancestors w).1 = Some (Return v).
Proof.
  induction ancestors as [|hooks rest IH]; intros w Hc; simpl; eauto.
  destruct (run_captured_console cfg hooks w Hc) as [Hn|[v Hv]];
    destruct (run_captured cfg hooks w) as [[o|] w1]; simpl in *; try done.
  - by apply IH.
  - right. eauto.
Qed.

Lemma handleError_console cfg err ancestors w :
  hasConsole cfg = true → ∃ v, (handleError cfg err ancestors w).1 = Return v.
Proof.
  intros Hc. rewrite handleError_unfold. simpl. unfold handle_steps.
  set (w0 := pushTarget None (log (EvHandleError err) w)).
  destruct (walk_parents_console cfg ancestors w0 Hc) as [Hn|[v Hv]];
    destruct (walk_parents cfg ancestors w0) as [[o|] w1]; simpl in *; try done.
  - by apply globalHandleError_console.
  - injection Hv as ->. by eexists.
Qed.

(** ** Subscriber lists *)

Lemma occ_nil id : occ id [] = 0.
Proof. done. Qed.

Lemma occ_cons id y l :
  occ id (y :: l) = (if decide (y = id) then 1 else 0) + occ id l.
Proof.
  unfold occ. destruct (decide (y = id)).
  - by rewrite filter_cons_True.
  - by rewrite filter_cons_False.
Qed.

Lemma occ_app id l1 l2 : occ id (l1 ++ l2) = occ id l1 + occ id l2.
Proof. unfold occ. by rewrite filter_app, length_app. Qed.

Lemma occ_zero id l : occ id l = 0 ↔ id ∉ l.
Proof.
  induction l as [|y l IH].
  - split; [intros _; apply not_elem_of_nil|done].
  - rewrite occ_cons, not_elem_of_cons. destruct (decide (y = id)) as [->|Hne].
    + split; [lia|tauto].
    + simpl. rewrite IH. split; [intros; split; congruence|tauto].
Qed.

Lemma occ_remove id l : occ id (remove l id) = occ id l - 1.
Proof.
  induction l as [|y l IH]; [done|]. simpl.
  rewrite occ_cons. case_bool_decide as E.
  - rewrite decide_True by done. lia.
  - rewrite decide_False by done. by rewrite occ_cons, decide_False, IH.
Qed.

Lemma occ_remove_ne id id' l : id' ≠ id → occ id' (remove l id) = occ id' l.
Proof.
  intros Hne. induction l as [|y l IH]; [done|]. simpl.
  case_bool_decide as E.
  - subst. by rewrite occ_cons, decide_False.
  - by rewrite !occ_cons, IH.
Qed.

Lemma subs_of_addSub d sub w d' :
  subs_of (addSub d sub w) d' =
  if decide (d' = d) then subs_of w d ++ [sub] else subs_of w d'.
Proof.
  unfold addSub, subs_of at 1; simpl. destruct (decide (d' = d)) as [->|].
  - by rewrite lookup_insert_eq.
  - by rewrite lookup_insert_ne.
Qed.

Lemma subs_of_removeSub d sub w d' :
  subs_of (removeSub d sub w) d' =
  if decide (d' = d) then remove (subs_of w d) sub else subs_of w d'.
Proof.
  unfold removeSub, subs_of at 1; simpl. destruct (decide (d' = d)) as [->|].
  - by rewrite lookup_insert_eq.
  - by rewrite lookup_insert_ne.
Qed.

(** ** Dependency collection *)

Global Instance same_outside_preorder : PreOrder same_outside.
Proof.
  split.
  - by intros w.
  - intros w1 w2 w3 (?&?&?&?&?&?&?&?) (?&?&?&?&?&?&?&?). split_and!; congruence.
Qed.

Lemma addDep_outside id d w : same_outside w (addDep id d w).
Proof.
  unfold addDep. destruct (watchers w !! id) as [x|]; [|done].
  destruct (bool_decide (d ∈ w_newDepIds x)); [reflexivity|].
  destruct (bool_decide (d ∈ w_depIds x)); by split_and!.
Qed.

Lemma addDep_same_deps id d w1 w2 :
  same_deps w1 w2 → same_deps (addDep id d w1) (addDep id d w2).
Proof.
  intros [Hs Hw]. unfold addDep. rewrite Hw.
  destruct (watchers w2 !! id) as [x|]; [|by split].
  destruct (bool_decide (d ∈ w_newDepIds x)); [by split|].
  destruct (bool_decide (d ∈ w_depIds x)); split; simpl;
    rewrite ?Hw; try done.
  unfold subs_of; simpl. by rewrite Hs.
Qed.

Lemma addDeps_outside id ds : ∀ w, same_outside w (addDeps id ds w).
Proof.
  induction ds as [|d ds IH]; intros w; simpl; [done|].
  etrans; [apply (addDep_outside id d)|apply IH].
Qed.

Lemma addDeps_same_deps id ds : ∀ w1 w2,
  same_deps w1 w2 → same_deps (addDeps id ds w1) (addDeps id ds w2).
Proof.
  induction ds as [|d ds IH]; intros w1 w2 H; simpl; [done|].
  by apply IH, addDep_same_deps.
Qed.

Lemma depend_all_reader id ds : ∀ w,
  target w = Some id → depend_all ds w = addDeps id ds w.
Proof.
  unfold depend_all, addDeps.
  induction ds as [|d ds IH]; intros w Ht; simpl; [done|].
  assert (depend d w = addDep id d w) as -> by (unfold depend; by rewrite Ht).
  apply IH. by destruct (addDep_outside id d w) as (_&_&_&_&->&_).
Qed.

Lemma depend_all_no_reader ds : ∀ w, target w = None → depend_all ds w = w.
Proof.
  unfold depend_all.
  induction ds as [|d ds IH]; intros w Ht; simpl; [done|].
  assert (depend d w = w) as -> by (unfold depend; by rewrite Ht).
  by apply IH.
Qed.

Lemma cleanup_loop_outside id (N : gset nat) D : ∀ w,
  same_outside w
    (foldr (λ d w, if bool_decide (d ∈ N) then w else removeSub d id w) w D) ∧
  watchers (foldr (λ d w, if bool_decide (d ∈ N) then w else removeSub d id w) w D)
  = watchers w.
Proof.
  induction D as [|d D IH]; intros w; simpl; [done|].
  destruct (IH w) as [Ho Hw].
  case_bool_decide; [done|]. split; [|done].
  etrans; [exact Ho|]. by split_and!.
Qed.

Lemma cleanup_loop_subs id (N : gset nat) D w d :
  NoDup D →
  subs_of (foldr (λ d w, if bool_decide (d ∈ N) then w else removeSub d id w) w D) d
  = if decide (d ∈ D ∧ d ∉ N) then remove (subs_of w d) id else subs_of w d.
Proof.
  induction 1 as [|d0 D Hnin Hnd IH]; cbn [foldr].
  - destruct (decide (d ∈ [] ∧ d ∉ N)) as [[H%elem_of_nil _]|]; done.
  - assert (subs_of
        (if bool_decide (d0 ∈ N)
         then foldr (λ d w, if bool_decide (d ∈ N) then w else removeSub d id w) w D
         else removeSub d0 id
                (foldr (λ d w, if bool_decide (d ∈ N) then w else removeSub d id w) w D)) d
      = if decide (d = d0 ∧ d0 ∉ N)
        then remove (if decide (d ∈ D ∧ d ∉ N)
                     then remove (subs_of w d) id else subs_of w d) id
        else (if decide (d ∈ D ∧ d ∉ N)
              then remove (subs_of w d) id else subs_of w d)) as ->.
    { case_bool_decide as HN.
      - rewrite IH. destruct (decide (d = d0 ∧ d0 ∉ N)) as [[_ ?]|]; done.
      - rewrite subs_of_removeSub.
        destruct (decide (d = d0)) as [->|Hne]; rewrite !IH.
        + rewrite (decide_True (P := d0 = d0 ∧ d0 ∉ N)); [done|by split].
        + rewrite (decide_False (P := d = d0 ∧ d0 ∉ N)); [done|tauto]. }
    destruct (decide (d = d0 ∧ d0 ∉ N)) as [[-> HN]|Hn1].
    + rewrite (decide_False (P := d0 ∈ D ∧ d0 ∉ N)) by tauto.
      rewrite decide_True; [done|]. split; [by left|done].
    + destruct (decide (d ∈ D ∧ d ∉ N)) as [[? ?]|Hn2].
      * rewrite decide_True; [done|]. split; [by right|done].
      * rewrite decide_False; [done|].
        intros [[->|?]%elem_of_cons ?]; tauto.
Qed.

Lemma cleanup_loop_same_deps id (N : gset nat) D : ∀ w1 w2,
  same_deps w1 w2 →
  same_deps
    (foldr (λ d w, if bool_decide (d ∈ N) then w else removeSub d id w) w1 D)
    (foldr (λ d w, if bool_decide (d ∈ N) then w else removeSub d id w) w2 D).
Proof.
  induction D as [|d D IH]; intros w1 w2 H; simpl; [done|].
  specialize (IH w1 w2 H). case_bool_decide; [done|].
  destruct IH as [Hs Hw]. split; simpl; [|done].
  unfold subs_of. by rewrite Hs.
Qed.

Lemma cleanupDeps_outside id w : same_outside w (cleanupDeps id w).
Proof.
  unfold cleanupDeps. destruct (watchers w !! id) as [x|]; [|done].
  destruct (cleanup_loop_outside id (w_newDepIds x) (w_deps x) w) as [Ho _].
  etrans; [exact Ho|]. by split_and!.
Qed.

Lemma cleanupDeps_same_deps id w1 w2 :
  same_deps w1 w2 → same_deps (cleanupDeps id w1) (cleanupDeps id w2).
Proof.
  intros H. unfold cleanupDeps. destruct H as [Hs Hw]. rewrite Hw.
  destruct (watchers w2 !! id) as [x|]; [|by split].
  destruct (cleanup_loop_same_deps id (w_newDepIds x) (w_deps x) w1 w2) as [Hs' Hw'];
    [by split|].
  split; simpl; congruence.
Qed.

Lemma addDep_watchers_ne id d w id' :
  id' ≠ id → watchers (addDep id d w) !! id' = watchers w !! id'.
Proof.
  intros Hne. unfold addDep. destruct (watchers w !! id) as [x|] eqn:E; [|done].
  destruct (bool_decide (d ∈ w_newDepIds x)); [done|].
  destruct (bool_decide (d ∈ w_depIds x)); simpl; by rewrite lookup_insert_ne.
Qed.

Lemma addDep_known id d w x :
  watchers w !! id = Some x → d ∈ w_newDepIds x → addDep id d w = w.
Proof.
  intros Hx Hd. unfold addDep. rewrite Hx. by rewrite bool_decide_eq_true_2.
Qed.

Lemma addDep_new id d w x :
  watchers w !! id = Some x → d ∉ w_newDepIds x →
  watchers (addDep id d w) !! id =
    Some (set_collect (w_deps x) (w_newDeps x ++ [d]) (w_depIds x)
                      ({[d]} ∪ w_newDepIds x) x) ∧
  ∀ d', subs_of (addDep id d w) d' =
        subs_of w d' ++ (if decide (d' = d ∧ d ∉ w_depIds x) then [id] else []).
Proof.
  intros Hx Hd. unfold addDep. rewrite Hx, bool_decide_eq_false_2 by done.
  case_bool_decide as Hin; simpl.
  - split; [by rewrite lookup_insert_eq|]. intros d'.
    rewrite decide_False by tauto. by rewrite app_nil_r.
  - split; [by rewrite lookup_insert_eq|]. intros d'.
    rewrite subs_of_addSub. destruct (decide (d' = d)) as [->|Hne].
    + by rewrite decide_True.
    + rewrite decide_False by tauto. by rewrite app_nil_r.
Qed.

Lemma addDeps_snoc id rs d w :
  addDeps id (rs ++ [d]) w = addDep id d (addDeps id rs w).
Proof. unfold addDeps. by rewrite foldl_app. Qed.

(** The state of a collection after the reads [rs]. *)
Lemma addDeps_spec id w x rs :
  watchers w !! id = Some x → w_newDeps x = [] → w_newDepIds x = ∅ →
  ∃ nd,
    watchers (addDeps id rs w) !! id =
      Some (set_collect (w_deps x) nd (w_depIds x) (list_to_set rs) x) ∧
    NoDup nd ∧ (∀ d, d ∈ nd ↔ d ∈ rs) ∧
    (∀ id', id' ≠ id → watchers (addDeps id rs w) !! id' = watchers w !! id') ∧
    (∀ d, subs_of (addDeps id rs w) d =
          subs_of w d ++ (if decide (d ∈ rs ∧ d ∉ w_depIds x) then [id] else [])).
Proof.
  intros Hx Hnd Hni. induction rs as [|d rs IH] using rev_ind.
  - exists []. unfold addDeps; cbn [foldl]. split_and!.
    + rewrite Hx. f_equal. destruct x; simpl in *. by subst.
    + constructor.
    + done.
    + done.
    + intros d. rewrite decide_False; [by rewrite app_nil_r|].
      rewrite elem_of_nil. tauto.
  - destruct IH as (nd & Hw & Hnodup & Hmem & Hother & Hsubs).
    rewrite addDeps_snoc.
    destruct (decide (d ∈ rs)) as [Hin|Hnin].
    + rewrite (addDep_known id d _ _ Hw) by (simpl; set_solver).
      exists nd. split_and!; try done.
      * rewrite Hw. do 2 f_equal.
        rewrite list_to_set_app_L. simpl. set_solver.
      * intros d'. rewrite Hmem. set_solver.
      * intros d'. rewrite Hsubs.
        destruct (decide (d' ∈ rs ∧ d' ∉ w_depIds x)) as [[? ?]|Hn].
        -- rewrite decide_True; [done|]. set_solver.
        -- rewrite decide_False; [done|]. set_solver.
    + destruct (addDep_new id d _ _ Hw) as [Hw' Hs']; [simpl; set_solver|].
      exists (nd ++ [d]). split_and!.
      * rewrite Hw'. simpl. unfold set_collect; simpl. do 2 f_equal.
        rewrite list_to_set_app_L. simpl. set_solver.
      * apply NoDup_app. split_and!; [done| |apply NoDup_singleton].
        intros y Hy ->%list_elem_of_singleton. by apply Hnin, Hmem.
      * intros d'. rewrite !elem_of_app, Hmem. done.
      * intros id' Hne. by rewrite addDep_watchers_ne, Hother.
      * intros d'. rewrite Hs', Hsubs. simpl.
        destruct (decide (d' ∈ rs ∧ d' ∉ w_depIds x)) as [[? ?]|Hn1].
        -- rewrite decide_False by set_solver.
           rewrite decide_True by set_solver. by rewrite app_nil_r.
        -- destruct (decide (d' = d ∧ d ∉ w_depIds x)) as [[-> ?]|Hn2].
           ++ rewrite decide_True by set_solver. by rewrite app_nil_r.
           ++ rewrite decide_False; [by rewrite app_nil_r|]. set_solver.
Qed.

Lemma collect_spec id w x rs :
  watchers w !! id = Some x → idle id w →
  ∃ nd,
    watchers (collect id rs w) !! id =
      Some (set_collect nd [] (list_to_set rs) ∅ x) ∧
    NoDup nd ∧ (∀ d, d ∈ nd ↔ d ∈ rs) ∧
    (∀ id', id' ≠ id → watchers (collect id rs w) !! id' = watchers w !! id') ∧
    (∀ d, occ id (subs_of (collect id rs w) d) = if decide (d ∈ rs) then 1 else 0) ∧
    (∀ id' d, id' ≠ id →
       occ id' (subs_of (collect id rs w) d) = occ id' (subs_of w d)).
Proof.
  intros Hx (x0 & Hx0 & Hnd & Hni & Hnodup & Hids & Hocc).
  assert (x0 = x) as -> by congruence.
  destruct (addDeps_spec id w x rs Hx Hnd Hni) as (nd & Hw & Hnodup' & Hmem & Hother & Hsubs).
  unfold collect, cleanupDeps. rewrite Hw. cbn [w_deps w_newDepIds w_newDeps set_collect].
  set (loop := foldr _ _ _).
  assert (∀ d, subs_of loop d =
    if decide (d ∈ w_deps x ∧ d ∉ (list_to_set rs : gset nat))
    then remove (subs_of (addDeps id rs w) d) id
    else subs_of (addDeps id rs w) d) as Hloop.
  { intros d. unfold loop. by rewrite cleanup_loop_subs. }
  assert (watchers loop = watchers (addDeps id rs w)) as Hlw.
  { unfold loop. apply cleanup_loop_outside. }
  exists nd. split_and!; try done.
  - simpl. rewrite lookup_insert_eq. f_equal.
  - intros id' Hne. simpl. rewrite lookup_insert_ne by done. by rewrite Hlw, Hother.
  - intros d. unfold subs_of at 1. simpl. fold (subs_of loop d).
    rewrite Hloop, Hsubs. specialize (Hocc d). rewrite Hids.
    destruct (decide (d ∈ rs)) as [Hin|Hnin].
    + rewrite (decide_False (P := d ∈ w_deps x ∧ d ∉ list_to_set rs)) by set_solver.
      rewrite occ_app, Hocc.
      destruct (decide (d ∈ w_deps x)) as [Hd|Hd].
      * rewrite decide_False by set_solver. done.
      * rewrite decide_True by set_solver. by rewrite occ_cons, decide_True.
    + rewrite (decide_False (P := d ∈ rs ∧ _)) by tauto. rewrite app_nil_r.
      destruct (decide (d ∈ w_deps x)) as [Hd|Hd].
      * rewrite decide_True by set_solver. rewrite occ_remove, Hocc. done.
      * rewrite decide_False by tauto. done.
  - intros id' d Hne. unfold subs_of at 1. simpl. fold (subs_of loop d).
    rewrite Hloop, Hsubs.
    assert (occ id' (subs_of w d ++
              (if decide (d ∈ rs ∧ d ∉ w_depIds x) then [id] else []))
            = occ id' (subs_of w d)) as Hsame.
    { rewrite occ_app. destruct (decide _); [|by rewrite Nat.add_0_r].
      rewrite occ_cons, decide_False by done. rewrite occ_nil. lia. }
    destruct (decide (d ∈ w_deps x ∧ d ∉ (list_to_set rs : gset nat)));
      [by rewrite occ_remove_ne|done].
Qed.

Lemma collect_idle id w x rs :
  watchers w !! id = Some x → idle id w → idle id (collect id rs w).
Proof.
  intros Hx Hidle.
  destruct (collect_spec id w x rs Hx Hidle) as (nd & Hw & Hnodup & Hmem & _ & Hocc & _).
  eexists. split; [exact Hw|]. simpl. split_and!; try done.
  - apply set_eq. intros d. rewrite !elem_of_list_to_set. by rewrite Hmem.
  - intros d. rewrite Hocc. destruct (decide (d ∈ rs)) as [Hin|Hnin].
    + by rewrite decide_True by (by apply Hmem).
    + rewrite decide_False; [done|]. by rewrite Hmem.
Qed.

Lemma collect_same_deps id rs w1 w2 :
  same_deps w1 w2 → same_deps (collect id rs w1) (collect id rs w2).
Proof. intros H. by apply cleanupDeps_same_deps, addDeps_same_deps. Qed.

Lemma collect_outside id rs w : same_outside w (collect id rs w).
Proof.
  unfold collect. etrans; [apply (addDeps_outside id rs)|apply cleanupDeps_outside].
Qed.

(** ** [Watcher.get] *)

Lemma same_outside_push_pop t w w' :
  wf_target w →
  same_outside (pushTarget t w) w' →
  target (popTarget w') = target w ∧ targetStack (popTarget w') = targetStack w.
Proof.
  intros Hwf (_&_&_&_&_&Hts&_&_). unfold popTarget; simpl.
  rewrite Hts. simpl. by rewrite Hwf.
Qed.

Section GetFacts.
Variable cfg : config.
Variable traverse : heap → value → list nat.

Lemma get_spec id w x :
  watchers w !! id = Some x → wf_target w →
  ∃ w', get cfg traverse id w = Some (get_outcome cfg x w, w') ∧
    same_deps w' (collect id (get_reads traverse x (wheap w)) w) ∧
    target w' = target w ∧ targetStack w' = targetStack w ∧
    wheap w' = wheap w ∧ observers w' = observers w ∧
    dep_uid w' = dep_uid w ∧ watcher_uid w' = watcher_uid w ∧
    shouldObserve w' = shouldObserve w ∧
    events w `prefix_of` events w' ∧
    (∀ e, (w_getter x true (wheap w)).2 = Throw e → w_user x = true →
          EvHandleError e ∈ events w') ∧
    (w_user x = false → events w' = events w) ∧
    (∀ v, (w_getter x true (wheap w)).2 = Return v → events w' = events w).
Proof.
  intros Hx Hwf. unfold get, get_outcome, get_reads, getter_value, run_code.
  rewrite Hx. cbn [target pushTarget set_target wheap].
  rewrite bool_decide_eq_true_2 by eauto.
  destruct (w_getter x true (wheap w)) as [r1 o] eqn:Hg. cbn [fst snd].
  set (w1 := pushTarget (Some id) w).
  assert (depend_all r1 w1 = addDeps id r1 w1) as -> by (by apply depend_all_reader).
  set (w2 := addDeps id r1 w1).
  assert (same_outside w1 w2) as Ho2 by apply addDeps_outside.
  assert (same_deps w2 (addDeps id r1 w)) as Hd2.
  { apply addDeps_same_deps. by split. }
  assert (target w2 = Some id ∧ targetStack w2 = Some id :: targetStack w) as [Ht2 Hts2].
  { by destruct Ho2 as (_&_&_&_&->&->&_). }
  assert (wf_target w2) as Hwf2.
  { unfold wf_target. by rewrite Ht2, Hts2. }
  (* the state after the catch block *)
  assert (∃ w3,
    get_catch cfg x o w2 =
      (match o with Return v => v | Throw _ => VUndef end,
       match o with
       | Return v => None
       | Throw e =>
           if w_user x then
             match (handleError cfg e (w_ancestors x) w).1 with
             | Return _ => None
             | Throw e' => Some e'
             end
           else Some e
       end, w3)
    ∧ reported w2 w3 ∧ target w3 = target w2 ∧ targetStack w3 = targetStack w2
    ∧ (∀ e, o = Throw e → w_user x = true → EvHandleError e ∈ events w3)
    ∧ (w_user x = false → w3 = w2)
    ∧ (∀ v, o = Return v → w3 = w2))
    as (w3 & -> & Hrep & Ht3 & Hts3 & Hev & Hnu & Hret).
  { unfold get_catch. destruct o as [v|e].
    - exists w2. by split_and!.
    - destruct (w_user x) eqn:Hu.
      + destruct (handleError_spec cfg e (w_ancestors x) w2 Hwf2)
          as (Hr & He & Ht & Hts & Hout).
        rewrite (Hout w).
        destruct (handleError cfg e (w_ancestors x) w2) as [[v|e'] w3];
          simpl in *; exists w3; split_and!; try done.
        all: by intros e0 [= ->] _.
      + exists w2. by split_and!. }
  unfold get_finally.
  assert (wheap w3 = wheap w) as Hh3.
  { destruct Hrep as [(-> & _) _]. by destruct Ho2 as (-> & _). }
  rewrite Hh3.
  set (value := match o with Return v => v | Throw _ => VUndef end).
  set (r2 := if w_deep x then traverse (wheap w) value else []).
  assert ((if w_deep x then depend_all (traverse (wheap w) value) w3 else w3)
          = addDeps id r2 w3) as ->.
  { unfold r2. destruct (w_deep x); [|done].
    apply depend_all_reader. congruence. }
  set (w4 := addDeps id r2 w3).
  assert (same_outside w3 w4) as Ho4 by apply addDeps_outside.
  assert (same_deps w4 (addDeps id (r1 ++ r2) w)) as Hd4.
  { assert (addDeps id (r1 ++ r2) w = addDeps id r2 (addDeps id r1 w)) as ->.
    { unfold addDeps. by rewrite foldl_app. }
    apply addDeps_same_deps.
    etrans; [|exact Hd2]. apply same_state_deps, Hrep. }
  pose proof (cleanupDeps_outside id (popTarget w4)) as Ho5.
  eexists. split.
  { f_equal. f_equal. destruct o as [v|e]; [done|].
    destruct (w_user x); [|done].
    by destruct (handleError cfg e (w_ancestors x) w).1. }
  split_and!.
  - apply cleanupDeps_same_deps. etrans; [|exact Hd4]. by split.
  - destruct Ho5 as (_&_&_&_&->&_). unfold popTarget; simpl.
    destruct Ho4 as (_&_&_&_&_&->&_). rewrite Hts3, Hts2. simpl. by rewrite Hwf.
  - destruct Ho5 as (_&_&_&_&_&->&_). unfold popTarget; simpl.
    destruct Ho4 as (_&_&_&_&_&->&_). by rewrite Hts3, Hts2.
  - destruct Ho5 as (->&_). simpl. destruct Ho4 as (->&_). done.
  - destruct Ho5 as (_&->&_). simpl. destruct Ho4 as (_&->&_).
    destruct Hrep as [(_ & -> & _) _]. by destruct Ho2 as (_ & -> & _).
  - destruct Ho5 as (_&_&->&_). simpl. destruct Ho4 as (_&_&->&_).
    destruct Hrep as [(_ & _ & _ & -> & _) _]. by destruct Ho2 as (_ & _ & -> & _).
  - destruct Ho5 as (_&_&_&->&_). simpl. destruct Ho4 as (_&_&_&->&_).
    destruct Hrep as [(_ & _ & _ & _ & _ & -> & _) _].
    by destruct Ho2 as (_ & _ & _ & -> & _).
  - destruct Ho5 as (_&_&_&_&_&_&->&_). simpl. destruct Ho4 as (_&_&_&_&_&_&->&_).
    destruct Hrep as [(_ & _ & _ & _ & _ & _ & ->) _].
    by destruct Ho2 as (_ & _ & _ & _ & _ & _ & -> & _).
  - destruct Ho5 as (_&_&_&_&_&_&_&->). simpl. destruct Ho4 as (_&_&_&_&_&_&_&->).
    destruct Hrep as [_ Hp]. etrans; [|exact Hp].
    by destruct Ho2 as (_ & _ & _ & _ & _ & _ & _ & ->).
  - intros e He Hu. destruct Ho5 as (_&_&_&_&_&_&_&->). simpl.
    destruct Ho4 as (_&_&_&_&_&_&_&->). by apply Hev.
  - intros Hu. destruct Ho5 as (_&_&_&_&_&_&_&->). simpl.
    destruct Ho4 as (_&_&_&_&_&_&_&->). rewrite (Hnu Hu).
    by destruct Ho2 as (_ & _ & _ & _ & _ & _ & _ & ->).
  - intros v Hv. destruct Ho5 as (_&_&_&_&_&_&_&->). simpl.
    destruct Ho4 as (_&_&_&_&_&_&_&->). rewrite (Hret v Hv).
    by destruct Ho2 as (_ & _ & _ & _ & _ & _ & _ & ->).
Qed.
End GetFacts.

(** ** [observe] *)

Lemma count_if_insert {A : Type} (P : A → bool) l i x y :
  l !! i = Some x →
  count_if P (<[i := y]> l) + (if P x then 1 else 0) =
  count_if P l + (if P y then 1 else 0).
Proof.
  revert i. induction l as [|z l IH]; intros [|i] H; simplify_eq/=.
  - lia.
  - specialize (IH i H). lia.
Qed.

Lemma count_if_ext {A : Type} (P Q : A → bool) l :
  (∀ x, P x = Q x) → count_if P l = count_if Q l.
Proof. intros E. induction l; simpl; [done|]. by rewrite E, IHl. Qed.

Lemma keeps_refl o : keeps o o.
Proof. by split_and!. Qed.

Lemma keeps_trans o1 o2 o3 : keeps o1 o2 → keeps o2 o3 → keeps o1 o3.
Proof.
  intros (?&?&?&?&?&Hk1) (?&?&?&?&?&Hk2). split_and!; try congruence.
  intros d Hd. by apply Hk2, Hk1.
Qed.

Global Instance grows_preorder : PreOrder grows.
Proof.
  split.
  - intros w. split_and!; try done. intros a o H. exists o. split; [done|apply keeps_refl].
  - intros w1 w2 w3 (?&?&?&?&?&?&?&?&Hk1) (?&?&?&?&?&?&?&?&Hk2).
    split_and!; try congruence.
    intros a o Ha. destruct (Hk1 a o Ha) as (o' & Ha' & Hk).
    destruct (Hk2 a o' Ha') as (o'' & Ha'' & Hk').
    exists o''. split; [done|]. by eapply keeps_trans.
Qed.

Lemma wheap_set_obj a o w : wheap (set_obj a o w) = <[a := o]> (wheap w).
Proof. done. Qed.

Lemma grows_set_obj a o o' w :
  wheap w !! a = Some o → keeps o o' → grows w (set_obj a o' w).
Proof.
  intros Ha Hk. split_and!; try done.
  - by rewrite wheap_set_obj, length_insert.
  - intros b ob Hb. rewrite wheap_set_obj. destruct (decide (b = a)) as [->|Hne].
    + exists o'. split; [|congruence].
      apply list_lookup_insert_eq. by eapply lookup_lt_Some.
    + exists ob. split; [|apply keeps_refl]. by rewrite list_lookup_insert_ne.
Qed.

Lemma grows_new_dep w : grows w (new_dep w).2.
Proof.
  split_and!; try done. intros a o H. exists o. split; [done|apply keeps_refl].
Qed.

Lemma grows_set_observers obs w : grows w (set_observers obs w).
Proof.
  split_and!; try done. intros a o H. exists o. split; [done|apply keeps_refl].
Qed.

Lemma wrappable_keeps cfg w w' o o' :
  shouldObserve w' = shouldObserve w → keeps o o' →
  observer_of o' = observer_of o →
  wrappable cfg w' o' = wrappable cfg w o.
Proof.
  intros Hs (Hc & Hv & Hi & He & _ & _) Ho.
  unfold wrappable, observable. by rewrite Hs, Hc, Hv, Hi, He, Ho.
Qed.

Lemma unwrapped_same_heap cfg w w' :
  wheap w' = wheap w → shouldObserve w' = shouldObserve w →
  unwrapped cfg w' = unwrapped cfg w.
Proof.
  intros Hh Hs. unfold unwrapped. rewrite Hh. apply count_if_ext.
  intros o. unfold wrappable, observable. by rewrite Hs.
Qed.

Lemma unwrapped_set_obj cfg a o o' w :
  wheap w !! a = Some o →
  unwrapped cfg (set_obj a o' w) + (if wrappable cfg w o then 1 else 0) =
  unwrapped cfg w + (if wrappable cfg w o' then 1 else 0).
Proof.
  intros Ha. unfold unwrapped. rewrite wheap_set_obj.
  rewrite (count_if_ext (wrappable cfg (set_obj a o' w)) (wrappable cfg w)) by done.
  by apply count_if_insert.
Qed.

Lemma isObject_Some h v a o :
  isObject h v = Some (a, o) ↔ v = VRef a ∧ h !! a = Some o ∧ o_class o ≠ CFunction.
Proof.
  unfold isObject. split.
  - destruct v; try done. destruct (h !! a0) as [o0|] eqn:E; [|done].
    case_bool_decide; [done|]. intros [= -> ->]. done.
  - intros (-> & -> & Hc). by rewrite bool_decide_eq_false_2.
Qed.

Lemma isObject_grows w w' v a o :
  grows w w' → isObject (wheap w) v = Some (a, o) →
  ∃ o', isObject (wheap w') v = Some (a, o') ∧ keeps o o'.
Proof.
  intros (_&_&_&_&_&_&_&_&Hk) (-> & Ha & Hc)%isObject_Some.
  destruct (Hk a o Ha) as (o' & Ha' & Hkeep). exists o'. split; [|done].
  apply isObject_Some. split_and!; try done.
  destruct Hkeep as (-> & _). done.
Qed.

Lemma observed_in_grows w w' v d :
  grows w w' → observed_in w v d → observed_in w' v d.
Proof.
  intros Hg (a & o & Hv & Hd).
  destruct (isObject_grows w w' v a o Hg Hv) as (o' & Hv' & Hk).
  exists a, o'. split; [done|]. by apply Hk.
Qed.

Lemma to_observe_grows cfg w w' v :
  grows w w' → to_observe cfg w v → to_observe cfg w' v.
Proof.
  intros Hg (a & o & Hv & Hvn & Hor).
  destruct (isObject_grows w w' v a o Hg Hv) as (o' & Hv' & Hk).
  exists a, o'. split; [done|].
  pose proof Hk as (Hc & Hvn' & Hi & He & _ & Hob).
  split; [congruence|].
  destruct Hor as [[d Hd]|Hobs].
  - left. exists d. unfold observer_of in *.
    destruct (o_ob o) as [[d'|]|] eqn:E; try done. simplify_eq.
    by rewrite (Hob d eq_refl).
  - right. unfold observable in *.
    destruct Hg as (_&_&_&_&_&Hs&_). by rewrite Hs, Hc, He, Hi.
Qed.

Lemma for_each_inv {A : Type} (I : world → Prop)
    (step : A → world → option world) (xs : list A) :
  (∀ x w, x ∈ xs → I w → ∃ w', step x w = Some w' ∧ I w') →
  ∀ w, I w → ∃ w', for_each step xs w = Some w' ∧ I w'.
Proof.
  induction xs as [|x xs IH]; intros Hstep w Hw; simpl; [eauto|].
  destruct (Hstep x w) as (w1 & -> & Hw1); [by left|done|].
  apply IH; [|done]. intros y w0 Hy. apply Hstep. by right.
Qed.

Section ObserveFacts.
Variable cfg : config.

Variable bound : nat.
Variable rec : value → bool → world → option (option nat * world).
Hypothesis rec_ok : observe_ok cfg bound rec.

Lemma defineReactive_ok a key val customSetter shallow w :
  unwrapped cfg w < bound →
  ∃ w', defineReactive_with rec a key val customSetter shallow w = Some w' ∧
    grows w w' ∧ unwrapped cfg w' ≤ unwrapped cfg w.
Proof.
  intros Hb. unfold defineReactive_with, new_dep.
  set (w1 := set_dep_uid (S (dep_uid w)) w).
  assert (grows w w1) as Hg1 by apply (grows_new_dep w).
  assert (unwrapped cfg w1 = unwrapped cfg w) as Hu1 by (by apply unwrapped_same_heap).
  destruct (wheap w1 !! a) as [o|] eqn:Ha; [|exists w1; split_and!; [done..|lia]].
  case_bool_decide; [exists w1; split_and!; [done..|lia]|].
  set (v := if _ : bool then read_own o key else default VUndef val).
  assert (∃ c w2, (if shallow then Some (None, w1) else rec v false w1) = Some (c, w2)
                  ∧ grows w1 w2 ∧ unwrapped cfg w2 ≤ unwrapped cfg w1)
    as (c & w2 & -> & Hg2 & Hu2).
  { destruct shallow; [exists None, w1; split_and!; [done|reflexivity|lia]|].
    destruct (rec_ok v false w1) as (r & w2 & -> & ? & ? & _); [lia|]. eauto. }
  pose proof Hg2 as (_&_&_&_&_&Hs2&_&_&Hk2).
  destruct (Hk2 a o Ha) as (o2 & Ha2 & Hkeep). rewrite Ha2.
  eexists. split; [done|]. split.
  - etrans; [exact Hg1|]. etrans; [exact Hg2|].
    eapply grows_set_obj; [done|]. by split_and!.
  - match goal with |- unwrapped cfg (set_obj a ?o' w2) ≤ _ =>
      pose proof (unwrapped_set_obj cfg a o2 o' w2 Ha2) as Hcount;
      assert (wrappable cfg w2 o' = wrappable cfg w2 o2) as Hsame
        by (apply wrappable_keeps; try done; by split_and!)
    end.
    rewrite Hsame in Hcount. lia.
Qed.

Lemma walk_ok a w :
  unwrapped cfg w < bound →
  ∃ w', walk_with rec a w = Some w' ∧ grows w w' ∧
    unwrapped cfg w' ≤ unwrapped cfg w.
Proof.
  intros Hb. unfold walk_with.
  destruct (wheap w !! a) as [o|]; [|exists w; split_and!; [done|reflexivity|lia]].
  destruct (for_each_inv
    (λ w', grows w w' ∧ unwrapped cfg w' ≤ unwrapped cfg w)
    (λ key w, defineReactive_with rec a key None false false w)
    (own_keys o)) with (w := w) as (w' & -> & Hg & Hu).
  - intros key w0 _ [Hg Hu].
    destruct (defineReactive_ok a key None false false w0) as (w' & -> & Hg' & Hu');
      [lia|].
    exists w'. split; [done|]. split; [by etrans|lia].
  - split; [reflexivity|lia].
  - eauto.
Qed.

Lemma observeArray_ok items w :
  unwrapped cfg w < bound →
  ∃ w', observeArray_with rec items w = Some w' ∧ grows w w' ∧
    unwrapped cfg w' ≤ unwrapped cfg w ∧
    ∀ v, v ∈ items → to_observe cfg w v → ∃ d, observed_in w' v d.
Proof.
  unfold observeArray_with. revert w.
  induction items as [|v items IH]; intros w Hb; simpl.
  - exists w. split_and!; [done|reflexivity|lia|]. by intros v ?%elem_of_nil.
  - destruct (rec_ok v false w Hb) as (r & w1 & -> & Hg1 & Hu1 & Hyes & _). simpl.
    destruct (IH w1) as (w' & -> & Hg' & Hu' & Hall); [lia|].
    exists w'. split_and!; [done|by etrans|lia|].
    intros v' [->|Hin]%elem_of_cons Hto.
    + destruct (Hyes Hto) as (d & _ & Hd). exists d. by eapply observed_in_grows.
    + apply Hall; [done|]. by eapply to_observe_grows.
Qed.

Lemma new_observer_ok a o w :
  wheap w !! a = Some o → wrappable cfg w o = true →
  unwrapped cfg w < S bound →
  ∃ d w', new_observer rec a o w = Some (d, w') ∧ grows w w' ∧
    unwrapped cfg w' ≤ unwrapped cfg w ∧
    ∃ o', wheap w' !! a = Some o' ∧ o_ob o' = Some (ObObserver d).
Proof.
  intros Ha Hwr Hb. unfold new_observer, new_dep.
  set (d := dep_uid w).
  set (w1 := set_observers _ (set_dep_uid (S d) w)).
  assert (grows w w1) as Hg1.
  { etrans; [apply (grows_new_dep w)|apply grows_set_observers]. }
  assert (wheap w1 !! a = Some o) as Ha1 by done.
  assert (wrappable cfg w1 o = true) as Hwr1 by done.
  assert (unwrapped cfg w1 = unwrapped cfg w) as Hu1 by (by apply unwrapped_same_heap).
  assert (∀ o', keeps o o' → o_ob o' = Some (ObObserver d) →
            grows w (set_obj a o' w1) ∧
            unwrapped cfg (set_obj a o' w1) + 1 = unwrapped cfg w ∧
            wheap (set_obj a o' w1) !! a = Some o') as Hmark.
  { intros o' Hk Hob. split_and!.
    - etrans; [exact Hg1|]. by eapply grows_set_obj.
    - pose proof (unwrapped_set_obj cfg a o o' w1 Ha1) as Hc.
      rewrite Hwr1 in Hc.
      assert (wrappable cfg w1 o' = false) as Hf.
      { unfold wrappable, observer_of. rewrite Hob.
        rewrite (bool_decide_eq_true_2 (is_Some (Some d))) by eauto.
        by rewrite andb_false_r. }
      rewrite Hf in Hc. lia.
    - rewrite wheap_set_obj. apply list_lookup_insert_eq. by eapply lookup_lt_Some. }
  assert (keeps o (set_ob (Some (ObObserver d)) o)) as Hk1.
  { split_and!; try done. intros d' Hd'. unfold wrappable, observer_of in Hwr.
    rewrite Hd' in Hwr.
    rewrite (bool_decide_eq_true_2 (is_Some (Some d'))) in Hwr by eauto.
    by rewrite andb_false_r in Hwr. }
  cbn [o_class set_ob o_elems].
  case_bool_decide as Hc.
  - destruct (Hmark (set_intercepted true (set_ob (Some (ObObserver d)) o)))
      as (Hg2 & Hu2 & Ha2); [by destruct Hk1 as (?&?&?&?&?&?); split_and!|done|].
    destruct (observeArray_ok (o_elems o)
                (set_obj a (set_intercepted true (set_ob (Some (ObObserver d)) o)) w1))
      as (w' & -> & Hg' & Hu' & _); [lia|].
    exists d, w'. split; [done|]. split_and!; [by etrans|lia|].
    destruct Hg' as (_&_&_&_&_&_&_&_&Hk).
    destruct (Hk a _ Ha2) as (o' & Ha' & Hkeep). exists o'. split; [done|].
    by apply Hkeep.
  - destruct (Hmark (set_ob (Some (ObObserver d)) o)) as (Hg2 & Hu2 & Ha2);
      [done..|].
    destruct (walk_ok a (set_obj a (set_ob (Some (ObObserver d)) o) w1))
      as (w' & -> & Hg' & Hu'); [lia|].
    exists d, w'. split; [done|]. split_and!; [by etrans|lia|].
    destruct Hg' as (_&_&_&_&_&_&_&_&Hk).
    destruct (Hk a _ Ha2) as (o' & Ha' & Hkeep). exists o'. split; [done|].
    by apply Hkeep.
Qed.

Lemma grows_bump d w : grows w (bump_vmCount d w).
Proof. apply grows_set_observers. Qed.

Lemma observe_body_ok : observe_ok cfg (S bound) (observe_body cfg rec).
Proof.
  intros v asRoot w Hb. unfold observe_body.
  destruct (isObject (wheap w) v) as [[a o]|] eqn:Hv.
  2:{ exists None, w. split_and!; [done|reflexivity|lia| |done].
      intros (a & o & Hv' & _). congruence. }
  destruct (o_vnode o) eqn:Hvn.
  { exists None, w. split_and!; [done|reflexivity|lia| |done].
    intros (a' & o' & Hv' & Hvn' & _). congruence. }
  pose proof Hv as (-> & Ha & Hcl)%isObject_Some.
  destruct (observer_of o) as [d|] eqn:Hob.
  - assert (o_ob o = Some (ObObserver d)) as Hmark.
    { unfold observer_of in Hob. by destruct (o_ob o) as [[]|]; simplify_eq. }
    rewrite Hmark.
    exists (Some d), (if asRoot then bump_vmCount d w else w).
    split_and!; try done.
    + destruct asRoot; [apply grows_bump|reflexivity].
    + destruct asRoot; [|lia]. by rewrite (unwrapped_same_heap cfg w (bump_vmCount d w)).
    + intros _. exists d. split; [done|]. exists a, o. by destruct asRoot.
    + intros Hn. exfalso. apply Hn. exists a, o. split_and!; eauto.
  - assert (match o_ob o with
            | Some (ObObserver d) => Some (Some d, w)
            | _ => if observable cfg w o
                   then (λ '(d, w), (Some d, w)) <$> new_observer rec a o w
                   else Some (None, w)
            end =
            if observable cfg w o
            then (λ '(d, w), (Some d, w)) <$> new_observer rec a o w
            else Some (None, w)) as ->.
    { unfold observer_of in Hob. by destruct (o_ob o) as [[]|]. }
    destruct (observable cfg w o) eqn:Hobs.
    + assert (wrappable cfg w o = true) as Hwr.
      { unfold wrappable. rewrite Hvn, Hob, Hobs.
        by rewrite bool_decide_eq_false_2 by (by intros []). }
      destruct (new_observer_ok a o w Ha Hwr Hb)
        as (d & w' & -> & Hg & Hu & o' & Ha' & Hd).
      simpl.
      exists (Some d), (if asRoot then bump_vmCount d w' else w').
      split_and!; try done.
      * destruct asRoot; [|done]. etrans; [exact Hg|apply grows_bump].
      * destruct asRoot; [|lia].
        by rewrite (unwrapped_same_heap cfg w' (bump_vmCount d w')).
      * intros _. exists d. split; [done|]. exists a, o'.
        split; [|done]. apply isObject_Some.
        assert (wheap (if asRoot then bump_vmCount d w' else w') = wheap w') as ->
          by (by destruct asRoot).
        split_and!; try done.
        destruct Hg as (_&_&_&_&_&_&_&_&Hk).
        destruct (Hk a o Ha) as (o'' & Ha'' & Hc' & _). simplify_eq. congruence.
      * intros Hn. exfalso. apply Hn. exists a, o. split_and!; eauto.
    + exists None, w. split_and!; [done|reflexivity|lia| |done].
      intros (a' & o' & Hv' & _ & [[d Hd]|Ho]); simplify_eq; congruence.
Qed.
End ObserveFacts.

Lemma observe_spec cfg fuel : observe_ok cfg fuel (observe cfg fuel).
Proof.
  induction fuel as [|fuel IH].
  - intros v asRoot w Hb. lia.
  - apply (observe_body_ok cfg fuel (observe cfg fuel) IH).
Qed.

(** [observe] returns: the objects that can still be wrapped bound the
    depth of the nested calls. *)
Lemma observe_total cfg fuel v asRoot w :
  unwrapped cfg w < fuel → is_Some (observe cfg fuel v asRoot w).
Proof.
  intros Hb. destruct (observe_spec cfg fuel v asRoot w Hb) as (r & w' & -> & _).
  eauto.
Qed.

Lemma unwrapped_le_heap cfg w : unwrapped cfg w ≤ length (wheap w).
Proof.
  unfold unwrapped. induction (wheap w) as [|o h IH]; simpl; [done|].
  destruct (wrappable cfg w o); lia.
Qed.

(** ** Code that runs without a current reader *)

Global Instance reported_only_preorder : PreOrder reported_only.
Proof.
  split.
  - intros w. by split_and!.
  - intros w1 w2 w3 (?&?&?) (?&?&?). split_and!; [by etrans|congruence..].
Qed.

Lemma run_code_no_reader h w :
  target w = None → run_code h w = ((h false (wheap w)).2, w).
Proof.
  intros Ht. unfold run_code. rewrite Ht.
  rewrite bool_decide_eq_false_2 by (by intros []).
  destruct (h false (wheap w)) as [reads o]. simpl.
  by rewrite depend_all_no_reader.
Qed.

Lemma invoke_no_reader cfg h ancestors w :
  target w = None → wf_target w →
  reported_only w (invokeWithErrorHandling cfg h ancestors w).2 ∧
  invokeWithErrorHandling cfg h ancestors w =
  invokeWithErrorHandling cfg (untracked h) ancestors w.
Proof.
  intros Ht Hwf. unfold invokeWithErrorHandling.
  rewrite !run_code_no_reader by done. unfold untracked.
  split; [|done].
  destruct (h false (wheap w)) as [reads [v|e]]; simpl; [reflexivity|].
  destruct (handleError_spec cfg e ancestors w Hwf) as (Hr & _ & Ht' & Hts' & _).
  destruct (handleError cfg e ancestors w) as [[] w1]; by split_and!.
Qed.

Lemma invoke_all_no_reader cfg hs ancestors : ∀ w,
  target w = None → wf_target w →
  reported_only w (invoke_all cfg hs ancestors w).2 ∧
  invoke_all cfg hs ancestors w = invoke_all cfg (untracked <$> hs) ancestors w.
Proof.
  induction hs as [|h hs IH]; intros w Ht Hwf; [by split|].
  rewrite fmap_cons. cbn [invoke_all].
  destruct (invoke_no_reader cfg h ancestors w Ht Hwf) as [Hr <-].
  destruct (invokeWithErrorHandling cfg h ancestors w) as [[v|e] w1] eqn:E;
    cbn [snd] in *; [|done].
  destruct Hr as (Hrep & Ht1 & Hts1).
  destruct (IH w1) as [Hr' <-].
  - congruence.
  - unfold wf_target. rewrite Ht1, Hts1. exact Hwf.
  - split; [|done]. etrans; [|exact Hr']. by split_and!.
Qed.


Lemma occ_perm id l1 l2 : l1 ≡ₚ l2 → occ id l1 = occ id l2.
Proof. intros H. unfold occ. by rewrite H. Qed.

Lemma occ_fire_order cfg id l : occ id (fire_order cfg l) = occ id l.
Proof.
  unfold fire_order. destruct (dev_sync cfg); [|done].
  apply occ_perm, sort_by_id_perm.
Qed.

Lemma updates_of_app id l1 l2 :
  updates_of id (l1 ++ l2) = updates_of id l1 + updates_of id l2.
Proof. unfold updates_of. by rewrite filter_app, length_app. Qed.

Lemma updates_of_cons_other id e l :
  e ≠ EvUpdate id → updates_of id (e :: l) = updates_of id l.
Proof. intros H. unfold updates_of. by rewrite filter_cons_False. Qed.

Lemma updates_of_fmap id l : updates_of id (EvUpdate <$> l) = occ id l.
Proof.
  unfold updates_of, occ. induction l as [|y l IH]; [done|].
  rewrite fmap_cons. destruct (decide (y = id)) as [->|Hne].
  - rewrite !filter_cons_True by done. simpl. by rewrite IH.
  - rewrite !filter_cons_False by congruence. done.
Qed.

Lemma notifies_of_app d l1 l2 :
  notifies_of d (l1 ++ l2) = notifies_of d l1 + notifies_of d l2.
Proof. unfold notifies_of. by rewrite filter_app, length_app. Qed.

Lemma notifies_of_updates d l : notifies_of d (EvUpdate <$> l) = 0.
Proof.
  unfold notifies_of. induction l as [|y l IH]; [done|].
  rewrite fmap_cons. by rewrite filter_cons_False.
Qed.

(** *** [dep.notify()] *)

Lemma notify_loop_log snapshot : ∀ calls w,
  (notify_loop (λ id w, log (EvUpdate id) w) snapshot calls w).2 =
  World (wheap w) (observers w) (subs w) (dep_uid w) (watchers w)
        (watcher_uid w) (target w) (targetStack w) (shouldObserve w)
        (events w ++ (EvUpdate <$> snapshot)).
Proof.
  induction snapshot as [|id rest IH]; intros calls w; simpl.
  - rewrite app_nil_r. by destruct w.
  - rewrite IH. simpl. by rewrite <- app_assoc.
Qed.

Lemma dep_notify_spec cfg d w :
  dep_notify cfg d w =
  World (wheap w) (observers w) (subs w) (dep_uid w) (watchers w)
        (watcher_uid w) (target w) (targetStack w) (shouldObserve w)
        (events w ++ EvNotify d :: (EvUpdate <$> fire_order cfg (subs_of w d))).
Proof.
  unfold dep_notify, notify. rewrite notify_loop_log. simpl.
  unfold fire_order. by rewrite <- app_assoc.
Qed.

(** *** [reactiveSetter] *)

Lemma strict_eq_self_false v : strict_eq v v = false ↔ v = VNum NaN.
Proof.
  split.
  - destruct v as [| |b|[| |z]|s|a]; simpl; try done;
      rewrite ?bool_decide_eq_true_2 by done; try done.
    by rewrite Z.eqb_refl.
  - by intros ->.
Qed.

Lemma same_value_spec newVal value :
  same_value newVal value = true ↔
  strict_eq newVal value = true ∨ (newVal = VNum NaN ∧ value = VNum NaN).
Proof.
  unfold same_value. rewrite orb_true_iff, andb_true_iff, !negb_true_iff.
  by rewrite !strict_eq_self_false.
Qed.

Lemma find_define_prop key p props key' :
  is_Some (find_prop props key) →
  find_prop (define_prop key p props) key' =
  if decide (key' = key) then Some p else find_prop props key'.
Proof.
  induction props as [|[k q] props IH]; simpl; [by intros []|].
  case_bool_decide as E.
  - intros _. subst. simpl. destruct (decide (key' = key)) as [->|Hne].
    + by rewrite bool_decide_eq_true_2.
    + by rewrite bool_decide_eq_false_2.
  - intros Hs. simpl. rewrite (IH Hs).
    case_bool_decide as E'; [|done]. subst. by rewrite decide_False.
Qed.

Lemma set_reactive_grows a key f w :
  grows w (set_reactive a key f w).
Proof.
  unfold set_reactive. destruct (wheap w !! a) as [o|] eqn:Ha; [|reflexivity].
  destruct (find_prop (o_props o) key); [|reflexivity].
  eapply grows_set_obj; [done|]. by split_and!.
Qed.

Lemma set_reactive_unwrapped cfg a key f w :
  unwrapped cfg (set_reactive a key f w) = unwrapped cfg w.
Proof.
  unfold set_reactive. destruct (wheap w !! a) as [o|] eqn:Ha; [|done].
  destruct (find_prop (o_props o) key); [|done].
  match goal with |- unwrapped cfg (set_obj a ?o' w) = _ =>
    pose proof (unwrapped_set_obj cfg a o o' w Ha) as Hc;
    assert (wrappable cfg w o' = wrappable cfg w o) as Hs
      by (apply wrappable_keeps; try done; by split_and!)
  end.
  rewrite Hs in Hc. lia.
Qed.

(** A write that changes the value, through a setter that stores. *)
Lemma reactiveSetter_notifies cfg fuel a key newVal w o p r :
  wheap w !! a = Some o → find_prop (o_props o) key = Some p →
  p_reactive p = Some r →
  same_value newVal (reactive_value p r) = false →
  r_getter r && negb (r_setter r) = false →
  unwrapped cfg w < fuel →
  ∃ w', reactiveSetter cfg fuel a key newVal w = Some w' ∧
    subs w' = subs w ∧ watchers w' = watchers w ∧
    ∃ pre,
      events w' = events w ++ pre ++
                  EvNotify (r_dep r) :: (EvUpdate <$> fire_order cfg (subs_of w (r_dep r))) ∧
      (pre = [] ∨ pre = [EvCustomSetter]).
Proof.
  intros Ha Hp Hr Hdiff Hstore Hfuel. unfold reactiveSetter.
  rewrite Ha, Hp, Hr. fold (same_value newVal (reactive_value p r)).
  rewrite Hdiff, Hstore.
  set (w1 := if negb (production cfg) && r_customSetter r
             then log EvCustomSetter w else w).
  assert (∃ pre, events w1 = events w ++ pre ∧ (pre = [] ∨ pre = [EvCustomSetter])
                 ∧ subs w1 = subs w ∧ watchers w1 = watchers w
                 ∧ unwrapped cfg w1 = unwrapped cfg w)
    as (pre & Hev1 & Hpre & Hs1 & Hw1 & Hu1).
  { unfold w1. destruct (negb (production cfg) && r_customSetter r).
    - exists [EvCustomSetter]. split_and!; eauto.
    - exists []. rewrite app_nil_r. split_and!; eauto. }
  set (w2 := if r_setter r then set_reactive a key (with_slot newVal) w1
             else set_reactive a key (with_val newVal) w1).
  assert (grows w1 w2 ∧ unwrapped cfg w2 = unwrapped cfg w1) as [Hg2 Hu2].
  { unfold w2. destruct (r_setter r);
      (split; [apply set_reactive_grows|apply set_reactive_unwrapped]). }
  assert (∃ c w3, (if r_shallow r then Some (None, w2)
                   else observe cfg fuel newVal false w2) = Some (c, w3)
                  ∧ grows w2 w3) as (c & w3 & -> & Hg3).
  { destruct (r_shallow r); [exists None, w2; split; [done|reflexivity]|].
    destruct (observe_spec cfg fuel newVal false w2) as (c & w3 & -> & Hg & _);
      [lia|]. eauto. }
  eexists. split; [done|].
  rewrite dep_notify_spec. simpl.
  pose proof (set_reactive_grows a key (with_childOb c) w3) as Hg4.
  assert (grows w1 (set_reactive a key (with_childOb c) w3)) as Hg.
  { etrans; [exact Hg2|]. etrans; [exact Hg3|exact Hg4]. }
  destruct Hg as (Hsub & Hwat & _ & _ & _ & _ & Hev & _).
  split_and!; [congruence|congruence|].
  exists pre. split; [|done].
  rewrite Hev, Hev1, <- app_assoc. do 4 f_equal.
  unfold subs_of. by rewrite Hsub, Hs1.
Qed.

(** C3.  Assigning to a reactive property a value that is [===] to its
    current value, or [NaN] when the current value is [NaN], changes
    nothing: the setter returns at once, so the stored value, the
    subscriber lists and the events are the same and no [notify()] and
    no [update()] is recorded. *)
Theorem setter_same_value_is_silent (cfg : config) (fuel a : nat)
    (key : jsstring) (newVal : value) (w : world)
    (o : jsobj) (p : prop) (r : reactive) :
  wheap w !! a = Some o →
  find_prop (o_props o) key = Some p →
  p_reactive p = Some r →
  strict_eq newVal (reactive_value p r) = true ∨
    (newVal = VNum NaN ∧ reactive_value p r = VNum NaN) →
  ∃ w', reactiveSetter cfg fuel a key newVal w = Some w' ∧
    w' = w ∧
    notifies_of (r_dep r) (events w') = notifies_of (r_dep r) (events w) ∧
    ∀ id, updates_of id (events w') = updates_of id (events w).
Proof.
  intros Ha Hp Hr Hsame. exists w. split; [|done].
  unfold reactiveSetter. rewrite Ha, Hp, Hr.
  fold (same_value newVal (reactive_value p r)).
  by rewrite (proj2 (same_value_spec _ _) Hsame).
Qed.

(** ** [observe] *)

Lemma skipped_not_to_observe cfg w v : skipped w v → ¬ to_observe cfg w v.
Proof.
  intros [Hn|(a & o & Hv & Hor)] (a' & o' & Hv' & Hvn & Hto); simplify_eq.
  destruct Hor as [?|(Hob & Hcases)]; [congruence|].
  destruct Hto as [[d Hd]|Hobs]; [congruence|].
  unfold observable in Hobs.
  destruct Hcases as [[Ha Hp]|[He|Hi]].
  - rewrite !bool_decide_eq_false_2 in Hobs by done.
    by rewrite andb_false_r in Hobs.
  - rewrite He in Hobs. simpl in Hobs. by rewrite andb_false_r in Hobs.
  - rewrite Hi in Hobs. by rewrite andb_false_r in Hobs.
Qed.

Lemma observe_existing cfg fuel v asRoot w a o d :
  isObject (wheap w) v = Some (a, o) → o_vnode o = false →
  o_ob o = Some (ObObserver d) →
  observe cfg (S fuel) v asRoot w =
  Some (Some d, if asRoot then bump_vmCount d w else w).
Proof.
  intros Hv Hvn Hob. simpl. unfold observe_body. by rewrite Hv, Hvn, Hob.
Qed.

Lemma observe_skipped cfg fuel v asRoot w :
  skipped w v → observe cfg (S fuel) v asRoot w = Some (None, w).
Proof.
  intros Hs. pose proof (skipped_not_to_observe cfg w v Hs) as Hn.
  simpl. unfold observe_body.
  destruct Hs as [->|(a & o & Hv & Hor)]; [done|]. rewrite Hv.
  destruct (o_vnode o) eqn:Hvn; [done|].
  destruct Hor as [?|(Hob & Hcases)]; [done|].
  assert (observable cfg w o = false) as Hf.
  { destruct (observable cfg w o) eqn:E; [|done].
    exfalso. apply Hn. exists a, o. split_and!; eauto. }
  unfold observer_of in Hob. destruct (o_ob o) as [[]|]; try done; by rewrite Hf.
Qed.

(** C7.  [observe] is idempotent.  A value that carries an [Observer] in
    its own [__ob__] gets that observer back and nothing is created or
    instrumented (for root data only [vmCount] is counted up); what
    [observe] answers once it answers again, in the state it left.  And
    [observe] returns [undefined] and changes nothing for values that
    are not objects, for nodes of the render tree and, when they carry
    no observer, for values that are neither arrays nor plain objects,
    that are not extensible or that are marked [_isVue]. *)
Theorem observe_idempotent_and_skips (cfg : config) (fuel : nat) (v : value)
    (w : world) :
  (∀ a o d asRoot,
     isObject (wheap w) v = Some (a, o) → o_vnode o = false →
     o_ob o = Some (ObObserver d) →
     observe cfg (S fuel) v asRoot w =
       Some (Some d, if asRoot then bump_vmCount d w else w) ∧
     wheap (if asRoot then bump_vmCount d w else w) = wheap w ∧
     dep_uid (if asRoot then bump_vmCount d w else w) = dep_uid w ∧
     dom (observers (if asRoot then bump_vmCount d w else w)) = dom (observers w)) ∧
  (∀ asRoot, skipped w v → observe cfg (S fuel) v asRoot w = Some (None, w)) ∧
  (unwrapped cfg w < fuel →
   ∃ r w', observe cfg fuel v false w = Some (r, w') ∧
     observe cfg fuel v false w' = Some (r, w')).
Proof.
  split_and!.
  - intros a o d asRoot Hv Hvn Hob. split; [by eapply observe_existing|].
    destruct asRoot; [|done]. split_and!; try done.
    unfold bump_vmCount; simpl. apply dom_alter_L.
  - intros asRoot Hs. by apply observe_skipped.
  - intros Hb.
    destruct (observe_spec cfg fuel v false w Hb) as (r & w' & Hobs & Hg & Hu & Hyes & Hno).
    exists r, w'. split; [done|].
    destruct fuel as [|fuel]; [lia|].
    destruct (isObject (wheap w) v) as [[a o]|] eqn:Hv.
    + destruct (o_vnode o) eqn:Hvn.
      { destruct Hno as [-> ->]; [|done].
        intros (a' & o' & Hv' & Hvn' & _). congruence. }
      destruct (decide (is_Some (observer_of o) ∨ observable cfg w o = true)) as [Hor|Hn].
      * destruct Hyes as (d & -> & a' & o' & Hv' & Hd'); [by exists a, o|].
        destruct (isObject_grows w w' v a o Hg Hv) as (o'' & Hv'' & Hk).
        simplify_eq. eapply (observe_existing cfg fuel v false); [done| |done].
        destruct Hk as (_ & -> & _). done.
      * destruct Hno as [-> ->]; [|done].
        intros (a' & o' & Hv' & _ & Hor). simplify_eq. tauto.
    + destruct Hno as [-> ->]; [|done].
      intros (a' & o' & Hv' & _). congruence.
Qed.

(** ** Array methods *)

Lemma to_observe_set_elems cfg w this o es v :
  wheap w !! this = Some o →
  to_observe cfg w v → to_observe cfg (set_obj this (set_elems es o) w) v.
Proof.
  intros Ha (a & o0 & (-> & Ha0 & Hc)%isObject_Some & Hvn & Hor).
  destruct (decide (a = this)) as [->|Hne].
  - simplify_eq. exists this, (set_elems es o). split_and!; try done.
    apply isObject_Some. split_and!; try done.
    rewrite wheap_set_obj. apply list_lookup_insert_eq. by eapply lookup_lt_Some.
  - exists a, o0. split_and!; try done.
    apply isObject_Some. split_and!; try done.
    rewrite wheap_set_obj. by rewrite list_lookup_insert_ne.
Qed.

Lemma unwrapped_set_elems cfg w this o es :
  wheap w !! this = Some o →
  unwrapped cfg (set_obj this (set_elems es o) w) = unwrapped cfg w.
Proof.
  intros Ha.
  pose proof (unwrapped_set_obj cfg this o (set_elems es o) w Ha) as Hc.
  assert (wrappable cfg w (set_elems es o) = wrappable cfg w o) as Hs by done.
  rewrite Hs in Hc. lia.
Qed.

(** C5.  Each patched method returns what the original method returns
    and leaves the array as the original leaves it; it observes the
    inserted elements (the arguments of push and unshift, the arguments
    after the first two of splice, nothing for the other four), so that
    each of them that [observe] wraps carries an observer afterwards;
    and it calls [notify()] on the node of the array's observer exactly
    once, which calls [update()] once for every subscription. *)
Theorem mutator_contract (cfg : config)
    (original : method → list value → list value → mresult * list value)
    (fuel : nat) (m : method) (this : nat) (args : list value) (w : world)
    (o : jsobj) (ob : nat) :
  wheap w !! this = Some o →
  o_ob o = Some (ObObserver ob) →
  unwrapped cfg w < fuel →
  ∃ w', mutator cfg original fuel m this args w =
          Some ((original m (o_elems o) args).1, w') ∧
    (∃ o', wheap w' !! this = Some o' ∧
           o_elems o' = (original m (o_elems o) args).2) ∧
    default [] (inserted m args) = new_items m args ∧
    (∀ v, v ∈ new_items m args → to_observe cfg w v → ∃ d, observed_in w' v d) ∧
    (new_items m args = [] →
       observers w' = observers w ∧ dep_uid w' = dep_uid w) ∧
    events w' =
      events w ++ EvNotify ob :: (EvUpdate <$> fire_order cfg (subs_of w ob)) ∧
    notifies_of ob (events w') = notifies_of ob (events w) + 1 ∧
    ∀ id, updates_of id (events w') = updates_of id (events w) + occ id (subs_of w ob).
Proof.
  intros Ha Hob Hfuel. unfold mutator. rewrite Ha.
  destruct (original m (o_elems o) args) as [result elems] eqn:Horig.
  rewrite Hob. cbn [fst snd].
  set (w1 := set_obj this (set_elems elems o) w).
  assert (unwrapped cfg w1 < fuel) as Hfuel1.
  { unfold w1. by rewrite unwrapped_set_elems. }
  assert (wheap w1 !! this = Some (set_elems elems o)) as Ha1.
  { unfold w1. rewrite wheap_set_obj.
    apply list_lookup_insert_eq. by eapply lookup_lt_Some. }
  assert (∃ w2, match inserted m args with
                | Some items => observeArray cfg fuel items w1
                | None => Some w1
                end = Some w2 ∧ grows w1 w2 ∧
                (∀ v, v ∈ new_items m args → to_observe cfg w v →
                      ∃ d, observed_in w2 v d) ∧
                (new_items m args = [] →
                   observers w2 = observers w ∧ dep_uid w2 = dep_uid w))
    as (w2 & -> & Hg & Hitems & Hnone).
  { assert (∀ items, new_items m args = items →
              ∃ w2, observeArray cfg fuel items w1 = Some w2 ∧ grows w1 w2 ∧
                (∀ v, v ∈ new_items m args → to_observe cfg w v →
                      ∃ d, observed_in w2 v d) ∧
                (new_items m args = [] →
                   observers w2 = observers w ∧ dep_uid w2 = dep_uid w)) as Hins.
    { intros items <-.
      destruct (observeArray_ok cfg fuel (observe cfg fuel) (observe_spec cfg fuel)
                  (new_items m args) w1 Hfuel1) as (w2 & Hw2 & Hg & _ & Hall).
      exists w2. split_and!; try done.
      - intros v Hin Hto. apply Hall; [done|]. by apply to_observe_set_elems.
      - intros Hnil. unfold observeArray in Hw2. rewrite Hnil in Hw2.
        unfold observeArray_with in Hw2. simpl in Hw2.
        injection Hw2 as <-. by unfold w1. }
    destruct m; simpl; try (by apply Hins).
    all: exists w1; split_and!; try done; try reflexivity.
    all: by intros v ?%elem_of_nil. }
  eexists. split; [done|].
  rewrite dep_notify_spec. cbn [wheap events].
  pose proof Hg as (Hsub & _ & _ & _ & _ & _ & Hev & _ & Hk).
  destruct (Hk this _ Ha1) as (o' & Ha' & Hkeep).
  assert (subs_of w2 ob = subs_of w ob) as ->.
  { unfold subs_of. by rewrite Hsub. }
  rewrite Hev. cbn [events w1 set_obj set_heap].
  split_and!; try done.
  - exists o'. split; [done|]. by destruct Hkeep as (_&_&_&_&->&_).
  - by destruct m.
  - rewrite notifies_of_app. f_equal.
    unfold notifies_of. rewrite filter_cons_True by done. simpl.
    fold (notifies_of ob (EvUpdate <$> fire_order cfg (subs_of w ob))).
    by rewrite notifies_of_updates.
  - intros id. rewrite updates_of_app. f_equal.
    rewrite updates_of_cons_other by done.
    by rewrite updates_of_fmap, occ_fire_order.
Qed.

(** ** Reads of reactive properties *)

Lemma depend_element_reads h e d :
  d ∈ (depend_element h e).1 → observer_node h d.
Proof.
  unfold depend_element. destruct e; simpl; try by intros ?%elem_of_nil.
  destruct (h !! a) as [o|] eqn:Ha; simpl; [|by intros ?%elem_of_nil].
  destruct (o_ob o) as [[d'|v]|] eqn:Hob; simpl.
  - intros ->%list_elem_of_singleton. exists a, o. split; [done|].
    unfold observer_of. by rewrite Hob.
  - destruct (truthy v); by intros ?%elem_of_nil.
  - by intros ?%elem_of_nil.
Qed.

Lemma dependArray_reads stack h : ∀ es d,
  d ∈ (dependArray stack h es).1 → observer_node h d.
Proof.
  induction stack as [|stack IH]; intros es d; simpl; [by intros ?%elem_of_nil|].
  induction es as [|e es IHes]; [by intros ?%elem_of_nil|].
  pose proof (depend_element_reads h e) as He.
  destruct (depend_element h e) as [r1 [v1|x1]]; simpl in *; [|by apply He].
  destruct (is_array h e).
  - pose proof (IH (elems_of h e)) as Hin.
    destruct (dependArray stack h (elems_of h e)) as [r2 [v2|x2]]; simpl in *.
    + destruct ((fix loop (es : list value) : list nat * outcome := _) es) as [r3 o3].
      simpl in *. rewrite !elem_of_app. intros [?|[?|?]]; eauto.
    + rewrite elem_of_app. intros [?|?]; eauto.
  - destruct ((fix loop (es : list value) : list nat * outcome := _) es) as [r3 o3].
    simpl in *. rewrite !elem_of_app. intros [?|?]; eauto.
Qed.

Lemma reactiveGetter_reads stack h p r d :
  d ∈ (reactiveGetter stack true h p r).1 →
  d = r_dep r ∨ r_childOb r = Some d ∨ observer_node h d.
Proof.
  unfold reactiveGetter. destruct (r_childOb r) as [c|]; simpl.
  - destruct (is_array h (reactive_value p r)).
    + pose proof (dependArray_reads stack h (elems_of h (reactive_value p r)) d) as Hd.
      destruct (dependArray stack h _) as [rs [|]]; simpl in *;
        rewrite !elem_of_cons; intros [->|[->|?]]; eauto.
    + simpl. rewrite !elem_of_cons. intros [->|[->|Hnil]]; eauto.
      by apply elem_of_nil in Hnil.
  - intros ->%list_elem_of_singleton. eauto.
Qed.

Lemma reactiveGetter_first stack h p r :
  r_dep r ∈ (reactiveGetter stack true h p r).1.
Proof.
  unfold reactiveGetter. destruct (r_childOb r) as [c|]; simpl.
  - destruct (is_array h (reactive_value p r)).
    + destruct (dependArray stack h _) as [rs [|]]; simpl; by left.
    + simpl. by left.
  - by left.
Qed.

Lemma get_prop_reactive stack h vm o key p r :
  h !! vm = Some o → find_prop (o_props o) key = Some p → p_reactive p = Some r →
  get_prop stack true h (VRef vm) key = reactiveGetter stack true h p r.
Proof. intros Ho Hp Hr. unfold get_prop. by rewrite Ho, Hp, Hr. Qed.

Lemma eval_ternary_true stack h vm o c a b pc rc pa ra vc :
  h !! vm = Some o →
  find_prop (o_props o) c = Some pc → p_reactive pc = Some rc →
  find_prop (o_props o) a = Some pa → p_reactive pa = Some ra →
  (reactiveGetter stack true h pc rc).2 = Return vc → truthy vc = true →
  (eval stack (ternary vm c a b) true h).1 =
    (reactiveGetter stack true h pc rc).1 ++ (reactiveGetter stack true h pa ra).1.
Proof.
  intros Ho Hpc Hrc Hpa Hra Hvc Htr. unfold ternary. cbn [eval].
  rewrite (get_prop_reactive stack h vm o c pc rc Ho Hpc Hrc).
  destruct (reactiveGetter stack true h pc rc) as [r1 oc]. cbn [fst snd] in *.
  subst oc. cbn [app]. rewrite Htr. cbn [eval].
  rewrite (get_prop_reactive stack h vm o a pa ra Ho Hpa Hra).
  destruct (reactiveGetter stack true h pa ra) as [r2 oa]. done.
Qed.

(** *** Writes *)

Lemma reactiveSetter_updates cfg fuel a key newVal w o p r id :
  wheap w !! a = Some o → find_prop (o_props o) key = Some p →
  p_reactive p = Some r → unwrapped cfg w < fuel →
  ∃ w', reactiveSetter cfg fuel a key newVal w = Some w' ∧
    (updates_of id (events w') = updates_of id (events w) ∨
     updates_of id (events w') =
       updates_of id (events w) + occ id (subs_of w (r_dep r))).
Proof.
  intros Ha Hp Hr Hfuel.
  destruct (same_value newVal (reactive_value p r)) eqn:Hsame.
  { exists w. split; [|by left]. unfold reactiveSetter. rewrite Ha, Hp, Hr.
    fold (same_value newVal (reactive_value p r)). by rewrite Hsame. }
  destruct (r_getter r && negb (r_setter r)) eqn:Hstore.
  { unfold reactiveSetter. rewrite Ha, Hp, Hr.
    fold (same_value newVal (reactive_value p r)). rewrite Hsame, Hstore.
    eexists. split; [done|]. left.
    destruct (negb (production cfg) && r_customSetter r); [|done].
    simpl. rewrite updates_of_app. unfold updates_of at 2.
    rewrite filter_cons_False by done. simpl. lia. }
  destruct (reactiveSetter_notifies cfg fuel a key newVal w o p r)
    as (w' & -> & _ & _ & pre & Hev & Hpre); try done.
  exists w'. split; [done|]. right. rewrite Hev.
  rewrite !updates_of_app, updates_of_cons_other by done.
  rewrite updates_of_fmap, occ_fire_order.
  destruct Hpre as [-> | ->]; [done|].
  unfold updates_of at 2. rewrite filter_cons_False by done. done.
Qed.

Lemma addDeps_present id rs : ∀ w x,
  watchers w !! id = Some x → is_Some (watchers (addDeps id rs w) !! id).
Proof.
  unfold addDeps. induction rs as [|d rs IH]; intros w x Hx; simpl; [eauto|].
  destruct (decide (d ∈ w_newDepIds x)) as [Hin|Hnin].
  - rewrite (addDep_known id d w x) by done. by eapply IH.
  - destruct (addDep_new id d w x Hx Hnin) as [Hw _]. by eapply IH.
Qed.

Lemma cleanupDeps_done id w x :
  watchers w !! id = Some x →
  ∃ x', watchers (cleanupDeps id w) !! id = Some x' ∧
    w_newDeps x' = [] ∧ w_newDepIds x' = ∅ ∧
    w_deps x' = w_newDeps x ∧ w_depIds x' = w_newDepIds x.
Proof.
  intros Hx. unfold cleanupDeps. rewrite Hx. simpl.
  rewrite lookup_insert_eq. eexists. split; [done|]. by split_and!.
Qed.

Section GetTheorems.
Variable cfg : config.
Variable traverse : heap → value → list nat.


(** C1.  After an evaluation through [get] that starts from a watcher
    with nothing pending, the dependency set of the watcher is exactly
    the set of nodes whose [depend()] ran during the evaluation: the
    watcher is subscribed once to each of them, to no other node, and
    in particular no longer to a node of the previous cycle that was
    not read; the subscriptions of other watchers are not touched.
    For the getter [vm.c ? vm.a : vm.b] over reactive properties,
    evaluated while [vm.c] is truthy, a later write to [vm.b] calls
    [update()] of the watcher zero times and a later write that
    changes [vm.a] calls it exactly once. *)
Theorem deps_are_exactly_the_reads (id : nat) (w : world) (x : watcher) :
  watchers w !! id = Some x → wf_target w → idle id w →
  let reads := get_reads traverse x (wheap w) in
  ∃ o w' x', get cfg traverse id w = Some (o, w') ∧
    watchers w' !! id = Some x' ∧
    NoDup (w_deps x') ∧ (∀ d, d ∈ w_deps x' ↔ d ∈ reads) ∧
    w_depIds x' = list_to_set reads ∧
    (∀ d, d ∈ w_deps x → d ∉ reads → id ∉ subs_of w' d) ∧
    (∀ d, d ∈ reads → occ id (subs_of w' d) = 1) ∧
    (∀ d, d ∉ reads → id ∉ subs_of w' d) ∧
    (∀ id' d, id' ≠ id → occ id' (subs_of w' d) = occ id' (subs_of w d)) ∧
    idle id w' ∧ wf_target w' ∧
    (∀ stack vm o c a b pc rc pa ra pb rb vc,
       w_getter x = eval stack (ternary vm c a b) → w_deep x = false →
       wheap w !! vm = Some o →
       find_prop (o_props o) c = Some pc → p_reactive pc = Some rc →
       find_prop (o_props o) a = Some pa → p_reactive pa = Some ra →
       find_prop (o_props o) b = Some pb → p_reactive pb = Some rb →
       (reactiveGetter stack true (wheap w) pc rc).2 = Return vc →
       truthy vc = true →
       r_dep rb ≠ r_dep rc → r_dep rb ≠ r_dep ra →
       r_childOb rc ≠ Some (r_dep rb) → r_childOb ra ≠ Some (r_dep rb) →
       ¬ observer_node (wheap w) (r_dep rb) →
       ∀ newVal fuel, unwrapped cfg w' < fuel →
         (∃ w2, reactiveSetter cfg fuel vm b newVal w' = Some w2 ∧
                updates_of id (events w2) = updates_of id (events w')) ∧
         (same_value newVal (reactive_value pa ra) = false →
          r_getter ra && negb (r_setter ra) = false →
          ∃ w2, reactiveSetter cfg fuel vm a newVal w' = Some w2 ∧
                updates_of id (events w2) = updates_of id (events w') + 1)).
Proof.
  intros Hx Hwf Hidle reads.
  destruct (get_spec cfg traverse id w x Hx Hwf)
    as (w' & Hget & [Hsubs Hwat] & Ht & Hts & Hheap & _).
  destruct (collect_spec id w x reads Hx Hidle)
    as (nd & Hx' & Hnodup & Hmem & Hother & Hocc & Hocc').
  fold reads in Hsubs, Hwat.
  assert (∀ d, subs_of w' d = subs_of (collect id reads w) d) as Hso.
  { intros d. unfold subs_of. by rewrite Hsubs. }
  assert (∀ d, d ∉ reads → id ∉ subs_of w' d) as Hnot.
  { intros d Hd. rewrite Hso. apply occ_zero. by rewrite Hocc, decide_False. }
  assert (idle id w') as Hidle'.
  { destruct (collect_idle id w x reads Hx Hidle)
      as (x2 & Hx2 & ? & ? & ? & ? & Hocc2).
    exists x2. rewrite Hwat. split_and!; try done.
    intros d. by rewrite Hso. }
  exists (get_outcome cfg x w), w', (set_collect nd [] (list_to_set reads) ∅ x).
  split_and!; try done.
  - by rewrite Hwat.
  - intros d _ Hd. by apply Hnot.
  - intros d Hd. by rewrite Hso, Hocc, decide_True.
  - intros id' d Hne. rewrite Hso. by apply Hocc'.
  - unfold wf_target. by rewrite Ht, Hts.
  - intros stack vm o c a b pc rc pa ra pb rb vc Hg Hdeep Ho Hpc Hrc Hpa Hra Hpb Hrb
      Hvc Htr Hbc Hba Hcc Hca Hnode newVal fuel Hfuel.
    assert (reads = (reactiveGetter stack true (wheap w) pc rc).1 ++
                    (reactiveGetter stack true (wheap w) pa ra).1) as Hreads.
    { unfold reads, get_reads. rewrite Hdeep, app_nil_r, Hg.
      by eapply eval_ternary_true. }
    assert (r_dep ra ∈ reads) as Hina.
    { rewrite Hreads, elem_of_app. right. apply reactiveGetter_first. }
    assert (r_dep rb ∉ reads) as Hninb.
    { rewrite Hreads, elem_of_app.
      intros [Hin|Hin]; apply reactiveGetter_reads in Hin as [?|[?|?]]; done. }
    rewrite <- Hheap in Ho.
    split.
    + destruct (reactiveSetter_updates cfg fuel vm b newVal w' o pb rb id)
        as (w2 & -> & Hup); try done.
      exists w2. split; [done|].
      destruct Hup as [->| ->]; [done|].
      rewrite Hso. rewrite Hocc, decide_False by done. lia.
    + intros Hdiff Hstore.
      destruct (reactiveSetter_notifies cfg fuel vm a newVal w' o pa ra)
        as (w2 & -> & _ & _ & pre & Hev & Hpre); try done.
      exists w2. split; [done|]. rewrite Hev.
      rewrite !updates_of_app, updates_of_cons_other by done.
      rewrite updates_of_fmap, occ_fire_order, Hso, Hocc, decide_True by done.
      destruct Hpre as [-> | ->]; [done|].
      unfold updates_of at 2. rewrite filter_cons_False by done. done.
Qed.
End GetTheorems.

(** ** [parsePath] *)

Lemma split_dot_nonempty path : split_dot path ≠ [].
Proof.
  destruct path as [|c rest]; simpl; [done|].
  destruct (c =? 46)%N; [done|]. by destruct (split_dot rest).
Qed.

Lemma join_split_dot path : join_dot (split_dot path) = path.
Proof.
  induction path as [|c rest IH]; [done|]. simpl.
  destruct (c =? 46)%N eqn:E.
  - apply N.eqb_eq in E as ->.
    pose proof (split_dot_nonempty rest).
    destruct (split_dot rest) as [|seg segs] eqn:Es; [done|].
    simpl in *. by rewrite IH.
  - pose proof (split_dot_nonempty rest).
    destruct (split_dot rest) as [|seg segs] eqn:Es; [done|].
    simpl in *. rewrite <- IH. by destruct segs.
Qed.

Lemma split_dot_no_dot path :
  Forall (λ seg, 0x2E%N ∉ seg) (split_dot path).
Proof.
  induction path as [|c rest IH]; simpl.
  - constructor; [apply not_elem_of_nil|constructor].
  - destruct (c =? 46)%N eqn:E.
    + constructor; [apply not_elem_of_nil|done].
    + pose proof (split_dot_nonempty rest).
      destruct (split_dot rest) as [|seg segs]; [done|].
      inversion IH as [|? ? Hseg Hsegs]; subst.
      constructor; [|done].
      apply N.eqb_neq in E. rewrite not_elem_of_cons. by split.
Qed.

Lemma bailRE_test_true path :
  bailRE_test path = true ↔ ∃ c, c ∈ path ∧ path_char c = false.
Proof.
  unfold bailRE_test. rewrite existsb_exists. split.
  - intros (c & Hin & Hc). exists c. split; [by apply list_elem_of_In|].
    by apply negb_true_iff.
  - intros (c & Hin & Hc). exists c. split; [by apply list_elem_of_In|].
    by apply negb_true_iff.
Qed.

Lemma bailRE_test_false path :
  bailRE_test path = false ↔ ∀ c, c ∈ path → path_char c = true.
Proof.
  split.
  - intros Hf c Hin. destruct (path_char c) eqn:E; [done|].
    assert (bailRE_test path = true) by (apply bailRE_test_true; eauto).
    congruence.
  - intros Hall. destruct (bailRE_test path) eqn:E; [|done].
    apply bailRE_test_true in E as (c & Hin & Hc). rewrite (Hall c Hin) in Hc. done.
Qed.

Lemma path_getter_falsy stack segments obj t h :
  truthy obj = false → segments ≠ [] →
  path_getter stack segments obj t h = ([], Return VUndef).
Proof. intros Hf Hne. destruct segments; [done|]. simpl. by rewrite Hf. Qed.

Lemma path_getter_undef stack segments t h :
  path_getter stack segments VUndef t h = ([], Return VUndef).
Proof. by destruct segments. Qed.

Lemma path_getter_app stack pre post : ∀ obj t h,
  path_getter stack (pre ++ post) obj t h =
  match path_getter stack pre obj t h with
  | (r1, Return v) =>
      let '(r2, o) := path_getter stack post v t h in (r1 ++ r2, o)
  | (r1, Throw x) => (r1, Throw x)
  end.
Proof.
  induction pre as [|seg pre IH]; intros obj t h; simpl.
  - by destruct (path_getter stack post obj t h).
  - destruct (truthy obj); simpl.
    + destruct (get_prop stack t h obj seg) as [r1 [v|x]]; [|done].
      rewrite IH. destruct (path_getter stack pre v t h) as [r2 [v'|x]]; [|done].
      destruct (path_getter stack post v' t h) as [r3 o]. by rewrite app_assoc.
    + by rewrite path_getter_undef.
Qed.

(** The walk stops with [undefined] at the first value that is absent
    (or falsy in any other way). *)
Lemma path_getter_stops stack pre post obj t h r v :
  path_getter stack pre obj t h = (r, Return v) →
  truthy v = false → post ≠ [] →
  path_getter stack (pre ++ post) obj t h = (r, Return VUndef).
Proof.
  intros Hpre Hf Hne. rewrite path_getter_app, Hpre.
  rewrite path_getter_falsy by done. by rewrite app_nil_r.
Qed.

Lemma same_watcher_refl x : same_watcher x x.
Proof. by split_and!. Qed.

Lemma same_watcher_trans x1 x2 x3 :
  same_watcher x1 x2 → same_watcher x2 x3 → same_watcher x1 x3.
Proof.
  intros (?&?&?&?&?&?&?&?&?) (?&?&?&?&?&?&?&?&?). split_and!; congruence.
Qed.

Lemma addDep_same_watcher id d w x :
  watchers w !! id = Some x →
  ∃ x', watchers (addDep id d w) !! id = Some x' ∧ same_watcher x x'.
Proof.
  intros Hx. destruct (decide (d ∈ w_newDepIds x)) as [Hin|Hnin].
  - rewrite (addDep_known id d w x) by done. exists x. split; [done|apply same_watcher_refl].
  - destruct (addDep_new id d w x Hx Hnin) as [-> _]. eexists. split; [done|].
    by split_and!.
Qed.

Lemma addDeps_same_watcher id rs : ∀ w x,
  watchers w !! id = Some x →
  ∃ x', watchers (addDeps id rs w) !! id = Some x' ∧ same_watcher x x'.
Proof.
  unfold addDeps. induction rs as [|d rs IH]; intros w x Hx; simpl.
  - exists x. split; [done|apply same_watcher_refl].
  - destruct (addDep_same_watcher id d w x Hx) as (x1 & Hx1 & Hs1).
    destruct (IH _ x1 Hx1) as (x2 & Hx2 & Hs2).
    exists x2. split; [done|]. by eapply same_watcher_trans.
Qed.

Lemma collect_same_watcher id rs w x :
  watchers w !! id = Some x →
  ∃ x', watchers (collect id rs w) !! id = Some x' ∧ same_watcher x x'.
Proof.
  intros Hx. destruct (addDeps_same_watcher id rs w x Hx) as (x1 & Hx1 & Hs1).
  unfold collect, cleanupDeps. rewrite Hx1. simpl. rewrite lookup_insert_eq.
  eexists. split; [done|]. eapply same_watcher_trans; [exact Hs1|]. by split_and!.
Qed.

Section PathWatcher.
Variable cfg : config.
Variable traverse : heap → value → list nat.
Variable stack : nat.

Lemma get_noop id w x :
  watchers w !! id = Some x → w_getter x = noop → wf_target w →
  ∃ w', get cfg traverse id w = Some (Return VUndef, w') ∧
    events w' = events w ∧ wf_target w' ∧
    watcher_uid w' = watcher_uid w ∧
    ∃ x', watchers w' !! id = Some x' ∧ same_watcher x x'.
Proof.
  intros Hx Hg Hwf.
  destruct (get_spec cfg traverse id w x Hx Hwf)
    as (w' & Hget & [_ Hwat] & Ht & Hts & _ & _ & _ & Hu & _ & _ & _ & _ & Hret).
  exists w'. split_and!; try done.
  - rewrite Hget. unfold get_outcome. by rewrite Hg.
  - apply (Hret VUndef). by rewrite Hg.
  - unfold wf_target. by rewrite Ht, Hts.
  - rewrite Hwat. by apply collect_same_watcher.
Qed.

End PathWatcher.

(** ** A small application

    [vm = { cond: true, a: 1, b: 2, arr: [1, 2, 3] }], observed as root
    data, and the watcher of [() => vm.cond ? vm.a : vm.b]. *)

Lemma demo_idle : idle 1 demo.
Proof.
  exists demo_watcher. split_and!; try done.
  constructor.
Qed.

Lemma demo_no_observer_node : ¬ observer_node (wheap demo) 3.
Proof.
  intros (a & o & Ha & Ho).
  destruct a as [|[|a]]; vm_compute in Ha; simplify_eq; by vm_compute in Ho.
Qed.



Lemma deps_are_exactly_the_reads_witness :
  ∃ o w' x', get demo_cfg no_traverse 1 demo = Some (o, w') ∧
    watchers w' !! 1 = Some x' ∧
    w_depIds x' = list_to_set [1; 2] ∧
    occ 1 (subs_of w' 1) = 1 ∧ occ 1 (subs_of w' 2) = 1 ∧
    (1 ∉ subs_of w' 3) ∧
    (∃ w2, reactiveSetter demo_cfg 1 0 (js "b") (VNum (Num 7)) w' = Some w2 ∧
           updates_of 1 (events w2) = updates_of 1 (events w')) ∧
    (∃ w2, reactiveSetter demo_cfg 1 0 (js "a") (VNum (Num 7)) w' = Some w2 ∧
           updates_of 1 (events w2) = updates_of 1 (events w') + 1).
Proof.
  destruct (deps_are_exactly_the_reads demo_cfg no_traverse 1 demo demo_watcher
              eq_refl eq_refl demo_idle)
    as (o & w' & x' & Hget & Hx' & _ & _ & Hids & _ & Hocc & Hnot & _ & _ & _ & Htern).
  assert (unwrapped demo_cfg w' < 1) as Hfuel.
  { clear - Hget. vm_compute in Hget. injection Hget as _ <-. vm_compute. lia. }
  opose proof (Htern 8 0 _ (js "cond") (js "a") (js "b") _ _ _ _ _ _ _
                 _ _ _ _ _ _ _ _ _ _ _ _ _ _ _ _ (VNum (Num 7)) 1 Hfuel)
    as [Hb Ha];
    [reflexivity|reflexivity|vm_compute; reflexivity|
     vm_compute; reflexivity|reflexivity|
     vm_compute; reflexivity|reflexivity|
     vm_compute; reflexivity|reflexivity|
     vm_compute; reflexivity|reflexivity|
     vm_compute; lia|vm_compute; lia|discriminate|discriminate|
     exact demo_no_observer_node|].
  exists o, w', x'.
  split; [exact Hget|]. split; [exact Hx'|]. split; [exact Hids|].
  split; [apply Hocc; left|]. split; [apply Hocc; right; left|].
  split.
  { apply Hnot. clear. apply (bool_decide_unpack _). vm_compute. exact I. }
  split; [exact Hb|].
  apply Ha; reflexivity.
Defined.

Lemma setter_same_value_is_silent_witness :
  reactiveSetter demo_cfg 1 0 (js "a") (VNum (Num 1)) demo = Some demo.
Proof.
  edestruct (setter_same_value_is_silent demo_cfg 1 0 (js "a") (VNum (Num 1)) demo)
    as (w' & Hset & -> & _);
    [vm_compute; reflexivity|vm_compute; reflexivity|vm_compute; reflexivity|
     left; vm_compute; reflexivity|].
  exact Hset.
Defined.

Lemma mutator_contract_witness :
  ∃ w', mutator demo_cfg (arrayProto (λ _ _, true)) 1 Push 1 [VNum (Num 4)] demo =
          Some (RValue (VNum (Num 4)), w') ∧
        notifies_of 5 (events w') = 1 ∧
        elems_of (wheap w') (VRef 1) =
          [VNum (Num 1); VNum (Num 2); VNum (Num 3); VNum (Num 4)].
Proof.
  edestruct (mutator_contract demo_cfg (arrayProto (λ _ _, true)) 1 Push 1
               [VNum (Num 4)] demo)
    as (w' & Hm & (o' & Ho' & Hel) & _ & _ & _ & _ & Hn & _);
    [vm_compute; reflexivity|reflexivity|vm_compute; lia|].
  exists w'. split_and!.
  - exact Hm.
  - exact Hn.
  - unfold elems_of. rewrite Ho'. exact Hel.
Defined.

Lemma observe_idempotent_and_skips_witness :
  observe demo_cfg 2 (VRef 0) false demo = Some (Some 0, demo) ∧
  observe demo_cfg 2 (VNum (Num 3)) false demo = Some (None, demo).
Proof.
  destruct (observe_idempotent_and_skips demo_cfg 1 (VRef 0) demo) as (Hex & _ & _).
  destruct (observe_idempotent_and_skips demo_cfg 1 (VNum (Num 3)) demo) as (_ & Hsk & _).
  split.
  - edestruct (Hex 0) as [H _]; [vm_compute; reflexivity|reflexivity|reflexivity|].
    exact (H : observe demo_cfg 2 (VRef 0) false demo = Some (Some 0, demo)).
  - apply Hsk. by left.
Defined.



(** ** error.js: what [handleError] lets through *)

Lemma run_captured_pass cfg hooks w :
  Forall (λ h, h = CapturedReturns false) hooks →
  run_captured cfg hooks w = (None, w).
Proof.
  induction 1 as [|h hooks -> _ IH]; simpl; done.
Qed.

Lemma run_captured_stop cfg hooks1 hooks2 w :
  Forall (λ h, h = CapturedReturns false) hooks1 →
  run_captured cfg (hooks1 ++ CapturedReturns true :: hooks2) w =
  (Some (Return VUndef), w).
Proof.
  induction 1 as [|h hooks -> _ IH]; simpl; done.
Qed.

Lemma walk_parents_pass cfg ancestors w :
  Forall (Forall (λ h, h = CapturedReturns false)) ancestors →
  walk_parents cfg ancestors w = (None, w).
Proof.
  induction 1 as [|hooks ancestors Hh _ IH]; simpl; [done|].
  by rewrite run_captured_pass.
Qed.

Lemma walk_parents_stop cfg below hooks1 hooks2 above w :
  Forall (Forall (λ h, h = CapturedReturns false)) below →
  Forall (λ h, h = CapturedReturns false) hooks1 →
  walk_parents cfg (below ++ (hooks1 ++ CapturedReturns true :: hooks2) :: above) w =
  (Some (Return VUndef), w).
Proof.
  intros Hb Hh. induction Hb as [|hooks ancestors Hp _ IH]; simpl.
  - by rewrite run_captured_stop.
  - by rewrite run_captured_pass.
Qed.

Lemma popTarget_pushTarget_events t w :
  events (popTarget (pushTarget t w)) = events w.
Proof. done. Qed.



(** X2.  An [errorCaptured] hook that returns [false] stops the error: when
    the hooks met before it, from the parent upwards, return something else,
    [handleError] returns at that hook, also without a console; no later
    hook, [config.errorHandler] or the console receives the error, and the
    only trace is the call of [handleError] itself. *)
Theorem errorCaptured_false_stops_propagation (cfg : config) (err : value)
    (below : list (list captured)) (hooks1 hooks2 : list captured)
    (above : list (list captured)) (w : world) :
  Forall (Forall (λ h, h = CapturedReturns false)) below →
  Forall (λ h, h = CapturedReturns false) hooks1 →
  ∃ w', handleError cfg err
          (below ++ (hooks1 ++ CapturedReturns true :: hooks2) :: above) w =
        (Return VUndef, w') ∧
    events w' = events w ++ [EvHandleError err] ∧
    same_state w' w ∧ targetStack w' = targetStack w.
Proof.
  intros Hb Hh. unfold handleError.
  rewrite walk_parents_stop by done.
  eexists. split; [done|]. by split_and!.
Qed.

Lemma errorCaptured_false_stops_propagation_witness :
  ∃ w', handleError (Config true true false false true
                       (Some (λ e, Throw e)))
          (VStr (js "boom"))
          ([[CapturedReturns false]] ++
           ([CapturedReturns false] ++ CapturedReturns true ::
              [CapturedThrows (VStr (js "late"))]) :: [[CapturedThrows VNull]])
          (World [] ∅ ∅ 0 ∅ 0 None [] true []) = (Return VUndef, w') ∧
    events w' = [] ++ [EvHandleError (VStr (js "boom"))] ∧
    same_state w' (World [] ∅ ∅ 0 ∅ 0 None [] true []) ∧ targetStack w' = [].
Proof.
  apply (errorCaptured_false_stops_propagation
           (Config true true false false true (Some (λ e, Throw e)))
           (VStr (js "boom")) [[CapturedReturns false]]
           [CapturedReturns false] [CapturedThrows (VStr (js "late"))]
           [[CapturedThrows VNull]] (World [] ∅ ∅ 0 ∅ 0 None [] true [])).
  - repeat constructor.
  - repeat constructor.
Defined.



(** ** dep.js: the reader stack *)

Lemma pop_times_S n w : pop_times (S n) w = pop_times n (popTarget w).
Proof. unfold pop_times. by rewrite Nat.iter_succ_r. Qed.

Lemma push_all_snoc ts t w : push_all (ts ++ [t]) w = pushTarget t (push_all ts w).
Proof. unfold push_all. by rewrite foldl_app. Qed.

Lemma wf_target_push_all ts w : wf_target w → wf_target (push_all ts w).
Proof.
  intros Hwf. destruct ts as [|t ts] using rev_ind; [done|].
  rewrite push_all_snoc. apply wf_target_push.
Qed.

Lemma popTarget_ext w1 w2 :
  targetStack w1 = targetStack w2 →
  target (popTarget w1) = target (popTarget w2) ∧
  targetStack (popTarget w1) = targetStack (popTarget w2).
Proof. intros H. unfold popTarget; simpl. by rewrite H. Qed.

Lemma pop_times_ext n : ∀ w1 w2,
  target w1 = target w2 → targetStack w1 = targetStack w2 →
  target (pop_times n w1) = target (pop_times n w2) ∧
  targetStack (pop_times n w1) = targetStack (pop_times n w2).
Proof.
  induction n as [|n IH]; intros w1 w2 Ht Hs; [done|].
  rewrite !pop_times_S. by apply IH; apply popTarget_ext.
Qed.

Lemma pop_push_all ts : ∀ w,
  wf_target w →
  target (pop_times (length ts) (push_all ts w)) = target w ∧
  targetStack (pop_times (length ts) (push_all ts w)) = targetStack w.
Proof.
  induction ts as [|t ts IH] using rev_ind; intros w Hwf; [done|].
  rewrite length_app, Nat.add_comm, push_all_snoc. cbn [length Nat.add].
  rewrite pop_times_S.
  destruct (pop_push t (push_all ts w)) as [Ht Hs]; [by apply wf_target_push_all|].
  destruct (pop_times_ext (length ts) _ _ Ht Hs) as [-> ->]. by apply IH.
Qed.

(** X4.  [pushTarget] and [popTarget] keep a stack: after any number of
    pushes and as many pops, [Dep.target] and the stack are what they were,
    provided [Dep.target] was the top of the stack to begin with (as it is
    when the module is loaded, and after every push and pop).  Each push
    makes its argument the reader.  A pop on the empty stack leaves the
    stack empty and no reader. *)
Theorem target_stack_discipline (ts : list (option nat)) (w : world) :
  wf_target w →
  (target (pop_times (length ts) (push_all ts w)) = target w ∧
   targetStack (pop_times (length ts) (push_all ts w)) = targetStack w) ∧
  (∀ t, target (pushTarget t (push_all ts w)) = t ∧
        length (targetStack (pushTarget t (push_all ts w))) =
          S (length ts + length (targetStack w))) ∧
  (∀ n, length (targetStack w) ≤ n →
        target (pop_times (S n) w) = None ∧ targetStack (pop_times (S n) w) = []).
Proof.
  intros Hwf. split; [by apply pop_push_all|]. split.
  - intros t. split; [done|]. simpl. f_equal.
    clear Hwf. induction ts as [|t' ts IH] using rev_ind; [done|].
    rewrite push_all_snoc, length_app. simpl. rewrite IH. lia.
  - intros n Hn. clear Hwf. revert w Hn.
    induction n as [|n IH]; intros w Hn.
    + destruct (targetStack w) as [|t s] eqn:E; [|simpl in Hn; lia].
      unfold pop_times, popTarget; simpl. by rewrite E.
    + rewrite pop_times_S. apply IH.
      unfold popTarget; simpl. destruct (targetStack w); simpl in *; lia.
Qed.

Lemma target_stack_discipline_witness :
  let w := World [] ∅ ∅ 0 ∅ 0 (Some 4) [Some 4; None] true [] in
  let ts := [Some 1; None; Some 2] in
  (target (pop_times 3 (push_all ts w)) = Some 4 ∧
   targetStack (pop_times 3 (push_all ts w)) = [Some 4; None]) ∧
  (∀ t, target (pushTarget t (push_all ts w)) = t ∧
        length (targetStack (pushTarget t (push_all ts w))) = 6) ∧
  (∀ n, 2 ≤ n →
        target (pop_times (S n) w) = None ∧ targetStack (pop_times (S n) w) = []).
Proof.
  intros w ts. apply (target_stack_discipline ts w). reflexivity.
Defined.

(** ** dep.js and watcher.js: [depend] and [addDep] *)

(** X5.  While a watcher is being evaluated, [depend()] on a node subscribes
    it at most once: a second [depend()] on the same node changes nothing, a
    node of the previous evaluation is recorded without a second
    subscription, and a node that is new is subscribed to by one [addSub],
    at the end of its subscriber list.  No other subscriber list changes. *)
Theorem depend_subscribes_once (d id : nat) (w : world) (x : watcher) :
  target w = Some id → watchers w !! id = Some x →
  depend d (depend d w) = depend d w ∧
  (d ∈ w_newDepIds x → depend d w = w) ∧
  (d ∉ w_newDepIds x → d ∈ w_depIds x → subs (depend d w) = subs w) ∧
  (d ∉ w_newDepIds x → d ∉ w_depIds x →
   subs_of (depend d w) d = subs_of w d ++ [id]) ∧
  (∀ d', d' ≠ d → subs_of (depend d w) d' = subs_of w d').
Proof.
  intros Ht Hx.
  assert (target (depend d w) = Some id) as Ht'.
  { unfold depend. rewrite Ht. by destruct (addDep_outside id d w) as (_&_&_&_&->&_). }
  destruct (decide (d ∈ w_newDepIds x)) as [Hin|Hnin].
  - assert (depend d w = w) as Hw.
    { unfold depend. rewrite Ht. by eapply addDep_known. }
    rewrite !Hw. by split_and!.
  - destruct (addDep_new id d w x Hx Hnin) as [Hx' Hs].
    split_and!.
    + unfold depend at 1. rewrite Ht'. unfold depend. rewrite Ht.
      eapply addDep_known; [done|]. simpl. set_solver.
    + done.
    + intros _ Hd. unfold depend, addDep. rewrite Ht, Hx.
      by rewrite bool_decide_eq_false_2, bool_decide_eq_true_2.
    + intros _ Hd. unfold depend. rewrite Ht, Hs. by rewrite decide_True.
    + intros d' Hne. unfold depend. rewrite Ht, Hs.
      rewrite decide_False by tauto. by rewrite app_nil_r.
Qed.

(** ** scheduler.js: inserting into a running flush *)

(** What the scan of [queueWatcher] stops at. *)
Lemma insert_pos_scan q idx id : ∀ p0,
  (∀ j, insert_pos q idx id p0 ≤ j < p0 → id < default 0 (q !! j)) ∧
  (S idx < insert_pos q idx id p0 →
   default 0 (q !! (insert_pos q idx id p0 - 1)) ≤ id) ∧
  insert_pos q idx id p0 ≤ p0 ∧
  (idx < p0 → idx < insert_pos q idx id p0).
Proof.
  induction p0 as [|i IH]; simpl; [split_and!; intros; lia|].
  destruct (idx <? i) eqn:Ei; simpl.
  - apply Nat.ltb_lt in Ei.
    destruct (id <? default 0 (q !! i)) eqn:Eq.
    + apply Nat.ltb_lt in Eq. destruct IH as (IH1 & IH2 & IH3 & IH4).
      split_and!; [|done|lia|intros; by apply IH4].
      intros j Hj. destruct (decide (j = i)) as [->|]; [done|]. apply IH1. lia.
    + apply Nat.ltb_ge in Eq. split_and!; [intros; lia| |lia|lia].
      intros _. by replace (S i - 1) with i by lia.
  - apply Nat.ltb_ge in Ei. split_and!; intros; lia.
Qed.

Lemma StronglySorted_le_last (l : list nat) x y :
  StronglySorted le l → x ∈ l → last l = Some y → x ≤ y.
Proof.
  intros Hs Hx Hl.
  destruct l as [|z l] using rev_ind; [done|].
  rewrite last_snoc in Hl. injection Hl as ->.
  apply elem_of_app in Hx as [Hx| ->%list_elem_of_singleton]; [|done].
  eapply (StronglySorted_app_1_elem_of le); [done..|]. by left.
Qed.

Lemma queueWatcher_inserts_sorted cfg flushNow id st :
  pending st id = false → flushing st = true → waiting st = true →
  index st < length (queue st) →
  Sorted le (drop (S (index st)) (queue st)) →
  ∃ st', queueWatcher cfg flushNow id st = Some st' ∧
    take (S (index st)) (queue st') = take (S (index st)) (queue st) ∧
    drop (S (index st)) (queue st') ≡ₚ id :: drop (S (index st)) (queue st) ∧
    Sorted le (drop (S (index st)) (queue st')) ∧
    index st' = index st ∧ pending st' id = true ∧
    runs st' = runs st ∧ ticks st' = ticks st.
Proof.
  intros Hp Hf Hw Hi Hs. unfold queueWatcher. rewrite Hp. simpl.
  rewrite Hf. simpl. rewrite Hw. simpl.
  destruct (insert_pos_scan (queue st) (index st) id (length (queue st)))
    as (Hafter & Hbefore & Hle & Hlt).
  specialize (Hlt Hi).
  set (q := queue st) in *. set (idx := index st) in *.
  set (p := insert_pos q idx id (length q)) in *.
  eexists. split; [done|]. simpl.
  assert (drop (S idx) (take p q ++ id :: drop p q) =
          drop (S idx) (take p q) ++ id :: drop p q) as Hdrop.
  { rewrite drop_app_le; [done|]. rewrite length_take. lia. }
  assert (drop (S idx) q = drop (S idx) (take p q) ++ drop p q) as Hsplit.
  { rewrite <- (take_drop p q) at 1. rewrite drop_app_le; [done|].
    rewrite length_take. lia. }
  split_and!; try done.
  - rewrite take_app_le by (rewrite length_take; lia).
    rewrite take_take. f_equal. lia.
  - rewrite Hdrop, Hsplit. symmetry. apply Permutation_middle.
  - rewrite Hdrop. apply Sorted_StronglySorted in Hs; [|apply _].
    rewrite Hsplit in Hs. apply StronglySorted_Sorted.
    apply StronglySorted_app in Hs as (Hab & Ha & Hb).
    apply StronglySorted_app_2; [| done |].
    + intros x1 x2 Hx1 [->|Hx2]%elem_of_cons; [|by apply Hab].
      destruct (decide (S idx < p)) as [Hlong|Hshort].
      * specialize (Hbefore Hlong).
        eapply Nat.le_trans; [|exact Hbefore].
        eapply (StronglySorted_le_last (drop (S idx) (take p q))); [exact Ha|exact Hx1|].
        rewrite last_lookup, length_drop, length_take.
        rewrite lookup_drop, lookup_take_lt by lia.
        replace (S idx + pred (p `min` length q - S idx)) with (p - 1) by lia.
        destruct (lookup_lt_is_Some_2 q (p - 1)) as [y Hy]; [lia|].
        by rewrite Hy.
      * assert (p = S idx) as -> by lia.
        rewrite drop_ge in Hx1 by (rewrite length_take; lia).
        by apply elem_of_nil in Hx1.
    + constructor; [done|]. apply Forall_forall. intros y Hy.
      apply list_elem_of_lookup in Hy as [j Hj]. rewrite lookup_drop in Hj.
      assert (p + j < length q) as Hlen by (by eapply lookup_lt_Some).
      specialize (Hafter (p + j)). rewrite Hj in Hafter. simpl in Hafter. lia.
  - unfold pending; simpl. by rewrite lookup_insert_eq.
Qed.

(** X6.  A watcher that becomes stale while the queue is being flushed is
    inserted by id into the part of the queue that is still to run: the
    entries up to the one that is running stay where they are, and when the
    entries after it are in ascending id order they still are with the new
    watcher among them, so that it runs in this flush, in its place.  No new
    flush is registered and nothing runs during the call. *)
Theorem queueWatcher_inserts_in_order (cfg : config)
    (flushNow : sched → option sched) (id : nat) (st : sched) :
  pending st id = false → flushing st = true → waiting st = true →
  index st < length (queue st) →
  Sorted le (drop (S (index st)) (queue st)) →
  ∃ st', queueWatcher cfg flushNow id st = Some st' ∧
    take (S (index st)) (queue st') = take (S (index st)) (queue st) ∧
    drop (S (index st)) (queue st') =
      sort_by_id (id :: drop (S (index st)) (queue st)) ∧
    index st' = index st ∧ pending st' id = true ∧
    runs st' = runs st ∧ ticks st' = ticks st.
Proof.
  intros Hp Hf Hw Hi Hs.
  destruct (queueWatcher_inserts_sorted cfg flushNow id st Hp Hf Hw Hi Hs)
    as (st' & Hq & Ht & Hperm & Hsorted & Hrest).
  exists st'. split_and!; try done; try apply Hrest.
  by apply sort_by_id_unique.
Qed.

Lemma queueWatcher_inserts_in_order_witness :
  ∃ st', queueWatcher (Config true true false true true None) (λ _, None) 4
           (Sched [1; 2; 3; 5; 8] (<[5 := FTrue]> (<[8 := FTrue]> ∅)) ∅
                  true true 2 1 [1; 2] [] []) = Some st' ∧
    take 3 (queue st') = take 3 [1; 2; 3; 5; 8] ∧
    drop 3 (queue st') = sort_by_id (4 :: drop 3 [1; 2; 3; 5; 8]) ∧
    index st' = 2 ∧ pending st' 4 = true ∧
    runs st' = [1; 2] ∧ ticks st' = 1.
Proof.
  apply (queueWatcher_inserts_in_order (Config true true false true true None)
           (λ _, None) 4
           (Sched [1; 2; 3; 5; 8] (<[5 := FTrue]> (<[8 := FTrue]> ∅)) ∅
                  true true 2 1 [1; 2] [] [])).
  - vm_compute; reflexivity.
  - reflexivity.
  - reflexivity.
  - vm_compute; lia.
  - vm_compute. repeat constructor.
Defined.

(** ** scheduler.js: what a flush hands to the [updated] hooks *)

Lemma queued_behind_refl st : in_flush st → queued_behind st st.
Proof. intros H. by split_and!. Qed.

Lemma queued_behind_trans st1 st2 st3 :
  queued_behind st1 st2 → queued_behind st2 st3 → queued_behind st1 st3.
Proof.
  intros (H1 & Hi & Ht & Hl & Hr & Hw & Hu & Hk & Hc)
         (H1' & Hi' & Ht' & Hl' & Hr' & Hw' & Hu' & Hk' & Hc').
  rewrite Hi in *. split_and!; try done; try congruence; lia.
Qed.

Lemma queueWatcher_behind cfg flushNow id st :
  in_flush st → index st < length (queue st) →
  ∃ st', queueWatcher cfg flushNow id st = Some st' ∧ queued_behind st st'.
Proof.
  intros [Hf Hw] Hi.
  destruct (pending st id) eqn:Hp.
  - exists st. rewrite queueWatcher_pending by done.
    split; [done|]. by apply queued_behind_refl.
  - unfold queueWatcher. rewrite Hp. simpl. rewrite Hf. simpl. rewrite Hw. simpl.
    eexists. split; [done|].
    pose proof (insert_pos_bounds (queue st) (index st) id _ Hi) as Hb.
    set (p := insert_pos (queue st) (index st) id (length (queue st))) in *.
    unfold queued_behind, in_flush; simpl. split_and!; try done.
    + rewrite take_app_le by (rewrite length_take; lia).
      rewrite take_take. f_equal. lia.
    + rewrite length_app, length_take. simpl. rewrite length_drop. lia.
Qed.

Lemma queue_all_behind cfg flushNow ids : ∀ st,
  in_flush st → index st < length (queue st) →
  ∃ st', queue_all cfg flushNow ids st = Some st' ∧ queued_behind st st'.
Proof.
  induction ids as [|id ids IH]; intros st Hin Hi; simpl.
  - exists st. split; [done|]. by apply queued_behind_refl.
  - destruct (queueWatcher_behind cfg flushNow id st Hin Hi) as (st1 & -> & H1).
    destruct (IH st1) as (st2 & -> & H2).
    + apply H1.
    + destruct H1 as (_ & -> & _ & Hl & _). lia.
    + exists st2. split; [done|]. by eapply queued_behind_trans.
Qed.

Lemma take_S_agree {A} (l1 l2 : list A) i x :
  take (S i) l1 = take (S i) l2 → l2 !! i = Some x →
  l1 !! i = Some x ∧ take i l1 = take i l2.
Proof.
  intros Ht Hx. split.
  - rewrite <- (lookup_take_lt l1 (S i)) by lia.
    rewrite Ht. by rewrite lookup_take_lt by lia.
  - apply (f_equal (take i)) in Ht. rewrite !take_take in Ht.
    by replace (i `min` S i) with i in Ht by lia.
Qed.

Section FlushFacts.
Variable cfg : config.
Variable before_effect : nat → option (list nat).
Variable run_effect : nat → list nat → list nat.

(** The loop of a flush, from any state inside it: when it is left,
    the watchers that ran are the entries of the queue from the cursor
    on, all of them unless the loop was broken off with a warning. *)
Lemma flush_loop_runs flushNow fuel : ∀ st st',
  in_flush st → index st ≤ length (queue st) →
  flush_loop cfg before_effect run_effect flushNow fuel st = Some st' →
  ∃ k, index st ≤ k ≤ length (queue st') ∧
    runs st' = runs st ++ drop (index st) (take k (queue st')) ∧
    take (index st) (queue st') = take (index st) (queue st) ∧
    length (queue st) ≤ length (queue st') ∧
    updated st' = updated st ∧ ticks st' = ticks st ∧
    ((production cfg = true ∨ warned st' = warned st) →
     k = length (queue st') ∧ warned st' = warned st) ∧
    (production cfg = false → length (warned st) ≤ length (warned st')).
Proof.
  induction fuel as [|fuel IH]; intros st st' Hin Hi Hloop; [done|].
  cbn [flush_loop] in Hloop.
  destruct (queue st !! index st) as [id|] eqn:Hid.
  2:{ injection Hloop as <-. apply lookup_ge_None in Hid.
      exists (length (queue st)). split_and!; try done; try lia.
      rewrite firstn_all, drop_ge by lia. by rewrite app_nil_r. }
  assert (index st < length (queue st)) as Hlt by (by eapply lookup_lt_Some).
  assert (∃ st1, match before_effect id with
                 | Some ws => queue_all cfg flushNow ws st
                 | None => Some st
                 end = Some st1 ∧ queued_behind st st1) as (st1 & E1 & H1).
  { destruct (before_effect id) as [ws|].
    - by apply queue_all_behind.
    - exists st. split; [done|]. by apply queued_behind_refl. }
  rewrite E1 in Hloop.
  set (st2 := log_run id (set_has (<[id:=FNull]> (has st1)) st1)) in *.
  assert (queued_behind st1 (set_has (<[id:=FNull]> (has st1)) st1)) as H2'.
  { apply (queued_behind_refl st1). apply H1. }
  destruct H1 as (Hin1 & Hi1 & Ht1 & Hl1 & Hr1 & Hw1 & Hu1 & Hk1 & Hc1).
  destruct (queue_all_behind cfg flushNow (run_effect id (runs st2)) st2)
    as (st3 & E3 & H3).
  { apply Hin1. }
  { unfold st2; simpl. lia. }
  rewrite E3 in Hloop.
  destruct H3 as (Hin3 & Hi3 & Ht3 & Hl3 & Hr3 & Hw3 & Hu3 & Hk3 & Hc3).
  unfold st2 in Hi3, Ht3, Hl3, Hr3, Hw3, Hu3, Hk3, Hc3. simpl in *.
  rewrite Hi1 in *.
  assert (take (S (index st)) (queue st3) = take (S (index st)) (queue st)) as Ht.
  { by rewrite Ht3, Ht1. }
  destruct (take_S_agree _ _ _ _ Ht Hid) as [Hid3 Hpre].
  assert (∀ c st4,
    flush_loop cfg before_effect run_effect flushNow fuel
      (set_index (S (index st3)) (set_circular c st3)) = Some st4 →
    ∃ k, index st ≤ k ≤ length (queue st4) ∧
      runs st4 = runs st ++ drop (index st) (take k (queue st4)) ∧
      take (index st) (queue st4) = take (index st) (queue st) ∧
      length (queue st) ≤ length (queue st4) ∧
      updated st4 = updated st ∧ ticks st4 = ticks st ∧
      ((production cfg = true ∨ warned st4 = warned st) →
       k = length (queue st4) ∧ warned st4 = warned st) ∧
      (production cfg = false → length (warned st) ≤ length (warned st4)))
    as Hnext.
  { intros c st4 Hl4.
    apply IH in Hl4 as (k & Hk & Hr4 & Ht4 & Hl4 & Hu4 & Hk4 & Hw4 & Hm4).
    2:{ destruct Hin3. by split. }
    2:{ simpl. rewrite Hi3. apply lookup_lt_Some in Hid3. lia. }
    simpl in *. rewrite Hi3 in *.
    destruct (take_S_agree _ _ _ _ Ht4 Hid3) as [Hid4 Hpre4].
    exists k. split_and!; try lia; try congruence.
    - rewrite Hr4, Hr3, Hr1. rewrite <- app_assoc. f_equal.
      rewrite (drop_S (take k (queue st4)) id (index st)); [done|].
      rewrite lookup_take_lt by lia. done.
    - rewrite Hw3, Hw1 in Hw4. done.
    - rewrite Hw3, Hw1 in Hm4. done. }
  destruct (negb (production cfg) && pending st3 id) eqn:Hguard.
  - apply andb_true_iff in Hguard as [Hprod%negb_true_iff Hpend].
    destruct (MAX_UPDATE_COUNT <? default 0 (circular st3 !! id) + 1) eqn:Hmax.
    + injection Hloop as <-. simpl.
      exists (S (index st)). apply lookup_lt_Some in Hid3 as Hlen3.
      split_and!; try lia; try congruence.
      * rewrite Hr3, Hr1. f_equal.
        rewrite (drop_S _ id); [|by rewrite lookup_take_lt by lia].
        rewrite drop_ge; [done|]. rewrite length_take. lia.
      * intros [Hp|Hw]; [congruence|].
        rewrite Hw3, Hw1 in Hw.
        apply (f_equal length) in Hw. rewrite length_app in Hw. simpl in Hw. lia.
      * intros _. rewrite length_app, Hw3, Hw1. lia.
    + by apply Hnext in Hloop.
  - replace st3 with (set_circular (circular st3) st3) in Hloop by (by destruct st3).
    by apply Hnext in Hloop.
Qed.

Lemma flush_outcome (fuel : nat) (st st' : sched) :
  waiting st = true →
  flushSchedulerQueue cfg before_effect run_effect fuel st = Some st' →
  ∃ q k, updated st' = updated st ++ [q] ∧
    runs st' = runs st ++ take k q ∧
    ((production cfg = true ∨ warned st' = warned st) →
     runs st' = runs st ++ q) ∧
    length (queue st) ≤ length q ∧
    queue st' = [] ∧ has st' = ∅ ∧ index st' = 0 ∧
    waiting st' = false ∧ flushing st' = false ∧ ticks st' = ticks st.
Proof.
  intros Hw Hflush. destruct fuel as [|fuel]; [done|]. simpl in Hflush.
  destruct (flush_loop cfg before_effect run_effect _ fuel _) as [st1|] eqn:Hloop;
    [|done].
  injection Hflush as <-.
  apply flush_loop_runs in Hloop
    as (k & Hk & Hr & _ & Hl & Hu & Ht & Hall & _); [|by split|simpl; lia].
  simpl in *. rewrite drop_0 in Hr. rewrite sort_by_id_length in Hl.
  exists (queue st1), k. split_and!; try done; try congruence.
  intros H. destruct (Hall H) as [-> _]. by rewrite Hr, firstn_all.
Qed.

(** X7.  When [flushSchedulerQueue] returns, the scheduler is idle again and
    one queue was handed to [callUpdatedHooks], which is not shorter than
    the queue was when the flush began.  The watchers that ran are an
    initial part of that queue, in its order, and they are all of it unless
    the loop was broken off with the infinite-loop warning, which a
    production build never does. *)
Theorem flush_reports_what_ran (fuel : nat) (st st' : sched) :
  waiting st = true →
  flushSchedulerQueue cfg before_effect run_effect fuel st = Some st' →
  ∃ q k, updated st' = updated st ++ [q] ∧
    runs st' = runs st ++ take k q ∧
    ((production cfg = true ∨ warned st' = warned st) →
     runs st' = runs st ++ q) ∧
    length (queue st) ≤ length q ∧
    queue st' = [] ∧ has st' = ∅ ∧ index st' = 0 ∧
    waiting st' = false ∧ flushing st' = false ∧ ticks st' = ticks st.
Proof.
  intros Hw Hflush. destruct fuel as [|fuel]; [done|]. simpl in Hflush.
  destruct (flush_loop cfg before_effect run_effect _ fuel _) as [st1|] eqn:Hloop;
    [|done].
  injection Hflush as <-.
  apply flush_loop_runs in Hloop
    as (k & Hk & Hr & _ & Hl & Hu & Ht & Hall & _); [|by split|simpl; lia].
  simpl in *. rewrite drop_0 in Hr. rewrite sort_by_id_length in Hl.
  exists (queue st1), k. split_and!; try done; try congruence.
  intros H. destruct (Hall H) as [-> _]. by rewrite Hr, firstn_all.
Qed.
End FlushFacts.

Lemma flush_reports_what_ran_witness :
  ∃ q k,
    updated (Sched [] ∅ ∅ false false 0 1 [1; 2; 1] [] [[1; 2; 1]]) = [] ++ [q] ∧
    runs (Sched [] ∅ ∅ false false 0 1 [1; 2; 1] [] [[1; 2; 1]]) = [] ++ take k q ∧
    ((production (Config false true false true true None) = true ∨
      warned (Sched [] ∅ ∅ false false 0 1 [1; 2; 1] [] [[1; 2; 1]]) = []) →
     runs (Sched [] ∅ ∅ false false 0 1 [1; 2; 1] [] [[1; 2; 1]]) = [] ++ q) ∧
    length [2; 1] ≤ length q ∧
    queue (Sched [] ∅ ∅ false false 0 1 [1; 2; 1] [] [[1; 2; 1]]) = [] ∧
    has (Sched [] ∅ ∅ false false 0 1 [1; 2; 1] [] [[1; 2; 1]]) = ∅ ∧
    index (Sched [] ∅ ∅ false false 0 1 [1; 2; 1] [] [[1; 2; 1]]) = 0 ∧
    waiting (Sched [] ∅ ∅ false false 0 1 [1; 2; 1] [] [[1; 2; 1]]) = false ∧
    flushing (Sched [] ∅ ∅ false false 0 1 [1; 2; 1] [] [[1; 2; 1]]) = false ∧
    ticks (Sched [] ∅ ∅ false false 0 1 [1; 2; 1] [] [[1; 2; 1]]) = 1.
Proof.
  apply (flush_reports_what_ran (Config false true false true true None)
           (λ _, None) (λ id h, if bool_decide (id = 2) then [1] else [])
           10
           (Sched [2; 1] (<[2 := FTrue]> (<[1 := FTrue]> ∅)) ∅
                  true false 0 1 [] [] [])).
  - reflexivity.
  - vm_compute; reflexivity.
Defined.

(** ** scheduler.js: the synchronous development mode *)

Lemma sync_queueWatcher cfg before_effect run_effect fuel id st :
  dev_sync cfg = true → quiet before_effect run_effect id → 2 < fuel →
  at_rest st →
  ∃ st', queueWatcher cfg (flushSchedulerQueue cfg before_effect run_effect fuel)
           id st = Some st' ∧
    at_rest st' ∧ runs st' = runs st ++ [id] ∧ ticks st' = ticks st ∧
    updated st' = updated st ++ [[id]] ∧ warned st' = warned st.
Proof.
  intros Hs Hq Hfuel (Hqu & Hh & Hw & Hf).
  unfold queueWatcher, pending. rewrite Hh, lookup_empty. simpl.
  rewrite Hf. simpl. rewrite Hw, Hs. simpl. rewrite Hqu. simpl.
  set (st1 := set_waiting true _).
  destruct (quiet_flush cfg before_effect run_effect fuel st1)
    as (st' & Hflush & Hr & Hq' & Hw' & Hf' & Hwn' & Ht').
  { intros x Hx. unfold st1 in Hx. simpl in Hx.
    apply list_elem_of_singleton in Hx as ->. done. }
  { unfold st1; simpl. lia. }
  destruct (flush_outcome cfg before_effect run_effect fuel st1 st')
    as (q & k & Hu & _ & Hall & _ & _ & Hh' & _); [done..|].
  exists st'. split; [done|].
  unfold st1 in Hr, Hwn', Ht', Hu, Hall. simpl in *.
  specialize (Hall (or_intror Hwn')). rewrite Hr in Hall.
  apply app_inv_head in Hall as <-.
  by split_and!.
Qed.

(** X8.  In a build that is not a production build, with [config.async]
    false, nothing is batched: every [queueWatcher] that finds the scheduler
    at rest flushes before it returns, so the watcher has run when the call
    returns, no flush is handed to [nextTick], and a watcher queued N times
    runs N times, in the order of the calls.  (Stated for watchers whose
    runs and [before] hooks queue nothing.) *)
Theorem sync_mode_runs_at_once (cfg : config)
    (before_effect : nat → option (list nat))
    (run_effect : nat → list nat → list nat) (ws : list nat) (fuel : nat)
    (st : sched) :
  dev_sync cfg = true →
  (∀ id, id ∈ ws → quiet before_effect run_effect id) → 2 < fuel →
  at_rest st →
  ∃ st', queue_all cfg (flushSchedulerQueue cfg before_effect run_effect fuel)
           ws st = Some st' ∧
    at_rest st' ∧ runs st' = runs st ++ ws ∧ ticks st' = ticks st ∧
    updated st' = updated st ++ ((λ id, [id]) <$> ws) ∧ warned st' = warned st.
Proof.
  intros Hs Hq Hfuel. revert st.
  induction ws as [|id ws IH]; intros st Hrest; simpl.
  - exists st. by rewrite !app_nil_r.
  - destruct (sync_queueWatcher cfg before_effect run_effect fuel id st)
      as (st1 & -> & Hrest1 & Hr1 & Ht1 & Hu1 & Hw1); try done.
    { apply Hq. by left. }
    destruct (IH (λ x Hx, Hq x (list_elem_of_further _ _ _ Hx)) st1 Hrest1)
      as (st' & -> & Hrest' & Hr' & Ht' & Hu' & Hw').
    exists st'. split; [done|].
    rewrite Hr', Hr1, Ht', Ht1, Hu', Hu1, Hw', Hw1, <- !app_assoc.
    by split_and!.
Qed.

Lemma sync_mode_runs_at_once_witness :
  ∃ st', queue_all (Config false false false true true None)
           (flushSchedulerQueue (Config false false false true true None)
              (λ _, None) (λ _ _, []) 3)
           [3; 1; 3] sched_init = Some st' ∧
    at_rest st' ∧ runs st' = [] ++ [3; 1; 3] ∧ ticks st' = 0 ∧
    updated st' = [] ++ ((λ id, [id]) <$> [3; 1; 3]) ∧ warned st' = [].
Proof.
  apply (sync_mode_runs_at_once (Config false false false true true None)
           (λ _, None) (λ _ _, []) [3; 1; 3] 3 sched_init).
  - reflexivity.
  - intros id _. split; [by left|done].
  - lia.
  - by split_and!.
Defined.

(** ** observer/index.js: writing through [reactiveSetter] *)

Lemma set_reactive_heap a key f w o p :
  wheap w !! a = Some o → find_prop (o_props o) key = Some p →
  wheap (set_reactive a key f w) =
  <[a := set_props (define_prop key (f p) (o_props o)) o]> (wheap w).
Proof. intros Ha Hp. unfold set_reactive. by rewrite Ha, Hp. Qed.

Lemma find_define_prop_twice key p1 p2 props key' :
  is_Some (find_prop props key) →
  find_prop (define_prop key p2 (define_prop key p1 props)) key' =
  if decide (key' = key) then Some p2 else find_prop props key'.
Proof.
  intros Hs. rewrite find_define_prop.
  - destruct (decide (key' = key)); [done|].
    rewrite find_define_prop by done. by rewrite decide_False.
  - rewrite find_define_prop by done. by rewrite decide_True.
Qed.

Lemma observe_primitive cfg fuel v asRoot w :
  isObject (wheap w) v = None → observe cfg (S fuel) v asRoot w = Some (None, w).
Proof. intros Hv. simpl. unfold observe_body. by rewrite Hv. Qed.

Lemma notifies_of_cons d e l :
  notifies_of d (e :: l) =
  (if decide (e = EvNotify d) then 1 else 0) + notifies_of d l.
Proof.
  unfold notifies_of. destruct (decide (e = EvNotify d)).
  - by rewrite filter_cons_True.
  - by rewrite filter_cons_False.
Qed.

(** X9.  A write that changes a reactive data property to a value that is
    not an object is read back: reading the property afterwards yields the
    value written, with or without a reader, and with a reader it registers
    the node of the property and nothing else.  The node is notified exactly
    once.  The other properties of the object and the other objects are as
    they were. *)
Theorem write_is_read_back (cfg : config) (fuel a : nat) (key : jsstring)
    (newVal : value) (w : world) (o : jsobj) (p : prop) (r : reactive) :
  wheap w !! a = Some o → find_prop (o_props o) key = Some p →
  p_reactive p = Some r →
  r_getter r = false → r_setter r = false →
  isObject (wheap w) newVal = None →
  same_value newVal (r_val r) = false →
  ∃ w' o', reactiveSetter cfg (S fuel) a key newVal w = Some w' ∧
    (∀ stack tracking,
       get_prop stack tracking (wheap w') (VRef a) key =
       (if tracking then [r_dep r] else [], Return newVal)) ∧
    notifies_of (r_dep r) (events w') = S (notifies_of (r_dep r) (events w)) ∧
    wheap w' !! a = Some o' ∧
    (∀ key', key' ≠ key → find_prop (o_props o') key' = find_prop (o_props o) key') ∧
    (∀ a', a' ≠ a → wheap w' !! a' = wheap w !! a').
Proof.
  intros Ha Hp Hr Hg Hs Hprim Hdiff. unfold reactiveSetter.
  rewrite Ha, Hp, Hr. unfold reactive_value. rewrite Hg.
  fold (same_value newVal (r_val r)). rewrite Hdiff, Hs. cbn [negb andb].
  set (w1 := if negb (production cfg) && r_customSetter r
             then log EvCustomSetter w else w).
  assert (wheap w1 = wheap w) as Hh1 by (unfold w1; by destruct (negb (production cfg) && r_customSetter r)).
  assert (notifies_of (r_dep r) (events w1) = notifies_of (r_dep r) (events w)) as Hn1.
  { unfold w1. destruct (negb (production cfg) && r_customSetter r); [|done]. simpl.
    rewrite notifies_of_app, notifies_of_cons. rewrite decide_False by done.
    unfold notifies_of. simpl. lia. }
  set (w2 := set_reactive a key (with_val newVal) w1).
  assert (wheap w2 = <[a := set_props (define_prop key (with_val newVal p) (o_props o)) o]>
                       (wheap w)) as Hh2.
  { unfold w2. rewrite (set_reactive_heap a key _ w1 o p) by (by rewrite ?Hh1).
    by rewrite Hh1. }
  assert (a < length (wheap w)) as Hlen by (by eapply lookup_lt_Some).
  assert (isObject (wheap w2) newVal = None) as Hprim2.
  { unfold isObject in *. destruct newVal as [| | | | |b]; try done.
    rewrite Hh2. destruct (decide (b = a)) as [->|Hne].
    - rewrite list_lookup_insert_eq by done. rewrite Ha in Hprim. simpl.
      by destruct (bool_decide (o_class o = CFunction)).
    - by rewrite list_lookup_insert_ne. }
  assert ((if r_shallow r then Some (None, w2)
           else observe cfg (S fuel) newVal false w2) = Some (None, w2)) as ->.
  { destruct (r_shallow r); [done|]. by apply observe_primitive. }
  set (o2 := set_props (define_prop key (with_val newVal p) (o_props o)) o) in *.
  assert (wheap w2 !! a = Some o2) as Ha2.
  { rewrite Hh2. by apply list_lookup_insert_eq. }
  assert (find_prop (o_props o2) key = Some (with_val newVal p)) as Hp2.
  { unfold o2. simpl. rewrite find_define_prop by (by rewrite Hp).
    by rewrite decide_True. }
  set (o3 := set_props (define_prop key (with_childOb None (with_val newVal p))
                          (o_props o2)) o2).
  exists (dep_notify cfg (r_dep r) (set_reactive a key (with_childOb None) w2)), o3.
  split; [done|].
  rewrite dep_notify_spec. cbn [wheap events].
  rewrite (set_reactive_heap a key _ w2 o2 _ Ha2 Hp2). fold o3.
  assert (<[a:=o3]> (wheap w2) !! a = Some o3) as Ha3.
  { apply list_lookup_insert_eq. rewrite Hh2, length_insert. done. }
  assert (∀ key', find_prop (o_props o3) key' =
                  if decide (key' = key)
                  then Some (with_childOb None (with_val newVal p))
                  else find_prop (o_props o) key') as Hp3.
  { intros key'. unfold o3, o2. simpl.
    apply find_define_prop_twice. by rewrite Hp. }
  split_and!.
  - intros stack tracking. unfold get_prop. rewrite Ha3, Hp3, decide_True by done.
    unfold with_childOb, with_val. simpl. rewrite Hr. simpl.
    unfold reactiveGetter, reactive_value. simpl. rewrite Hg.
    by destruct tracking.
  - assert (events (set_reactive a key (with_childOb None) w2) = events w1) as ->.
    { destruct (set_reactive_grows a key (with_childOb None) w2)
        as (_&_&_&_&_&_&->&_).
      unfold w2.
      by destruct (set_reactive_grows a key (with_val newVal) w1)
        as (_&_&_&_&_&_&->&_). }
    rewrite notifies_of_app, notifies_of_cons, decide_True by done.
    rewrite notifies_of_updates. lia.
  - done.
  - intros key' Hne. rewrite Hp3. by rewrite decide_False.
  - intros a' Hne. rewrite list_lookup_insert_ne by done.
    rewrite Hh2. by rewrite list_lookup_insert_ne.
Qed.

Lemma write_is_read_back_witness :
  ∃ w' o', reactiveSetter demo_cfg 1 0 (js "a") (VStr (js "x")) demo = Some w' ∧
    (∀ stack tracking,
       get_prop stack tracking (wheap w') (VRef 0) (js "a") =
       (if tracking then [2] else [], Return (VStr (js "x")))) ∧
    notifies_of 2 (events w') = S (notifies_of 2 (events demo)) ∧
    wheap w' !! 0 = Some o' ∧ o_ob o' = Some (ObObserver 0).
Proof.
  opose proof (write_is_read_back demo_cfg 0 0 (js "a") (VStr (js "x")) demo
                 _ _ _ _ _ _ _ _ _ _)
    as (w' & o' & Hset & Hget & Hn & Ha & Hkeys & Hothers);
    [vm_compute; reflexivity|vm_compute; reflexivity|vm_compute; reflexivity|
     reflexivity|reflexivity|reflexivity|reflexivity|].
  exists w', o'. split; [exact Hset|]. split; [exact Hget|].
  split; [exact Hn|]. split; [exact Ha|].
  clear -Hset Ha. vm_compute in Hset. injection Hset as <-.
  vm_compute in Ha. injection Ha as <-. reflexivity.
Defined.

(** X10.  Assigning to a reactive property, not a shallow one, a value that
    [observe] accepts observes it, so that the property stays reactive in
    depth: after the write the new value carries an [Observer], the node of
    the property was notified once, and no subscription changed. *)
Theorem write_observes_the_new_value (cfg : config) (fuel a : nat)
    (key : jsstring) (newVal : value) (w : world) (o : jsobj) (p : prop)
    (r : reactive) :
  wheap w !! a = Some o → find_prop (o_props o) key = Some p →
  p_reactive p = Some r →
  same_value newVal (reactive_value p r) = false →
  r_getter r && negb (r_setter r) = false → r_shallow r = false →
  to_observe cfg w newVal → unwrapped cfg w < fuel →
  ∃ w' d, reactiveSetter cfg fuel a key newVal w = Some w' ∧
    observed_in w' newVal d ∧
    notifies_of (r_dep r) (events w') = S (notifies_of (r_dep r) (events w)) ∧
    subs w' = subs w ∧ watchers w' = watchers w.
Proof.
  intros Ha Hp Hr Hdiff Hstore Hsh Hobs Hfuel. unfold reactiveSetter.
  rewrite Ha, Hp, Hr. fold (same_value newVal (reactive_value p r)).
  rewrite Hdiff, Hstore, Hsh.
  set (w1 := if negb (production cfg) && r_customSetter r
             then log EvCustomSetter w else w).
  assert (wheap w1 = wheap w ∧ shouldObserve w1 = shouldObserve w ∧
          subs w1 = subs w ∧ watchers w1 = watchers w ∧
          notifies_of (r_dep r) (events w1) = notifies_of (r_dep r) (events w))
    as (Hh1 & Hs1 & Hsub1 & Hwat1 & Hn1).
  { unfold w1. destruct (negb (production cfg) && r_customSetter r); [|done]. simpl. split_and!; try done.
    rewrite notifies_of_app, notifies_of_cons, decide_False by done.
    unfold notifies_of; simpl. lia. }
  set (w2 := if r_setter r then set_reactive a key (with_slot newVal) w1
             else set_reactive a key (with_val newVal) w1).
  assert (grows w1 w2 ∧ unwrapped cfg w2 = unwrapped cfg w1) as [Hg2 Hu2].
  { unfold w2. destruct (r_setter r);
      (split; [apply set_reactive_grows|apply set_reactive_unwrapped]). }
  assert (unwrapped cfg w1 = unwrapped cfg w) as Hu1
    by (by apply unwrapped_same_heap).
  assert (to_observe cfg w1 newVal) as Hobs1.
  { destruct Hobs as (a0 & o0 & Hv & Hvn & Hor). exists a0, o0.
    rewrite Hh1. split_and!; try done. unfold observable in *. by rewrite Hs1. }
  destruct (observe_spec cfg fuel newVal false w2) as (c & w3 & -> & Hg3 & _ & Hyes & _);
    [lia|].
  destruct Hyes as (d & -> & Hd); [by eapply to_observe_grows|].
  eexists _, d. split; [done|].
  rewrite dep_notify_spec. cbn [events subs watchers].
  pose proof (set_reactive_grows a key (with_childOb (Some d)) w3) as Hg4.
  split_and!.
  - destruct (observed_in_grows _ _ _ _ Hg4 Hd) as (a0 & o0 & Hv0 & Ho0).
    by exists a0, o0.
  - assert (grows w1 (set_reactive a key (with_childOb (Some d)) w3)) as Hg.
    { etrans; [exact Hg2|]. etrans; [exact Hg3|exact Hg4]. }
    destruct Hg as (_&_&_&_&_&_&->&_).
    rewrite notifies_of_app, notifies_of_cons, decide_True by done.
    rewrite notifies_of_updates. lia.
  - destruct Hg4 as (->&_). destruct Hg3 as (->&_). destruct Hg2 as (->&_). done.
  - destruct Hg4 as (_&->&_). destruct Hg3 as (_&->&_). destruct Hg2 as (_&->&_). done.
Qed.

(** X11.  A reactive property that was defined over an accessor with a
    getter and no setter cannot be written: an assignment stores nothing,
    observes nothing and notifies nobody.  Outside production builds the
    custom setter, when there is one, is still called if the value differs
    from what the getter returns. *)
Theorem getter_only_property_ignores_writes (cfg : config) (fuel a : nat)
    (key : jsstring) (newVal : value) (w : world) (o : jsobj) (p : prop)
    (r : reactive) :
  wheap w !! a = Some o → find_prop (o_props o) key = Some p →
  p_reactive p = Some r →
  r_getter r = true → r_setter r = false →
  ∃ w', reactiveSetter cfg fuel a key newVal w = Some w' ∧
    same_state w' w ∧
    events w' = events w ++
      (if same_value newVal (p_value p) then []
       else if negb (production cfg) && r_customSetter r then [EvCustomSetter]
       else []) ∧
    (∀ d, notifies_of d (events w') = notifies_of d (events w)) ∧
    (∀ id, updates_of id (events w') = updates_of id (events w)).
Proof.
  intros Ha Hp Hr Hg Hs. unfold reactiveSetter. rewrite Ha, Hp, Hr.
  unfold reactive_value. rewrite Hg. fold (same_value newVal (p_value p)).
  destruct (same_value newVal (p_value p)).
  { exists w. rewrite app_nil_r. by split_and!. }
  rewrite Hs. cbn [negb andb].
  destruct (negb (production cfg) && r_customSetter r).
  - eexists. split; [done|]. split_and!; try done.
    + intros d. simpl. rewrite notifies_of_app, notifies_of_cons.
      rewrite decide_False by done. unfold notifies_of. simpl. lia.
    + intros id. simpl. rewrite updates_of_app, updates_of_cons_other by done.
      unfold updates_of. simpl. lia.
  - exists w. rewrite app_nil_r. by split_and!.
Qed.

Lemma write_observes_the_new_value_witness :
  ∃ w' d, reactiveSetter demo_cfg 2 0 (js "a") (VRef 2) spare = Some w' ∧
    observed_in w' (VRef 2) d ∧
    notifies_of 2 (events w') = S (notifies_of 2 (events spare)) ∧
    subs w' = subs spare ∧ watchers w' = watchers spare.
Proof.
  opose proof (write_observes_the_new_value demo_cfg 2 0 (js "a") (VRef 2) spare
                 _ _ _ _ _ _ _ _ _ _ _) as H;
    [vm_compute; reflexivity|vm_compute; reflexivity|vm_compute; reflexivity|
     vm_compute; reflexivity|reflexivity|reflexivity| |vm_compute; lia|exact H].
  eexists 2, _. split; [vm_compute; reflexivity|].
  split; [reflexivity|]. right. vm_compute; reflexivity.
Defined.

Lemma getter_only_property_ignores_writes_witness :
  ∃ w', reactiveSetter demo_cfg 0 0 (js "full") (VStr (js "zz")) computed = Some w' ∧
    same_state w' computed ∧
    events w' = events computed ++ [] ∧
    (∀ d, notifies_of d (events w') = notifies_of d (events computed)) ∧
    (∀ id, updates_of id (events w') = updates_of id (events computed)).
Proof.
  opose proof (getter_only_property_ignores_writes demo_cfg 0 0 (js "full")
                 (VStr (js "zz")) computed _ _ _ _ _ _ _ _) as H;
    [vm_compute; reflexivity|vm_compute; reflexivity|vm_compute; reflexivity|
     reflexivity|reflexivity|exact H].
Defined.

(** ** observer/index.js: [dependArray] on arrays that contain themselves *)

Lemma dependArray_cons stack h e rest :
  dependArray (S stack) h (e :: rest) =
  match depend_element h e with
  | (r1, Throw x) => (r1, Throw x)
  | (r1, Return _) =>
      match
        if is_array h e then dependArray stack h (elems_of h e)
        else ([], Return VUndef)
      with
      | (r2, Throw x) => (r1 ++ r2, Throw x)
      | (r2, Return _) =>
          let '(r3, o) := dependArray (S stack) h rest in (r1 ++ r2 ++ r3, o)
      end
  end.
Proof. done. Qed.

Lemma dependArray_throws_at stack h b es :
  VRef b ∈ es → is_array h (VRef b) = true →
  (∃ e, (dependArray stack h (elems_of h (VRef b))).2 = Throw e) →
  ∃ e, (dependArray (S stack) h es).2 = Throw e.
Proof.
  intros Hin Harr Hrec. induction es as [|x es IH]; [by apply elem_of_nil in Hin|].
  rewrite dependArray_cons.
  destruct (depend_element h x) as [r1 [v|e]] eqn:Ex; [|by eexists].
  apply elem_of_cons in Hin as [<-|Hin].
  - rewrite Harr. destruct Hrec as [e He].
    destruct (dependArray stack h (elems_of h (VRef b))) as [r2 [v2|e2]];
      simpl in *; [done|by eexists].
  - destruct (if is_array h x then _ else _) as [r2 [v2|e2]]; [|by eexists].
    destruct (IH Hin) as [e He].
    destruct (dependArray (S stack) h es) as [r3 o3]. simpl in *. by eexists.
Qed.

Lemma dependArray_cycle (P : nat → Prop) (h : heap) :
  (∀ a, P a → ∃ o b, h !! a = Some o ∧ o_class o = CArray ∧
                     P b ∧ VRef b ∈ o_elems o) →
  ∀ stack a, P a → ∃ e, (dependArray stack h (elems_of h (VRef a))).2 = Throw e.
Proof.
  intros Hcyc. induction stack as [|stack IH]; intros a Ha; [by eexists|].
  destruct (Hcyc a Ha) as (o & b & Ho & Hc & Hb & Hin).
  destruct (Hcyc b Hb) as (ob & _ & Hob & Hcb & _).
  apply (dependArray_throws_at stack h b).
  - simpl. by rewrite Ho.
  - simpl. rewrite Hob. by apply bool_decide_eq_true_2.
  - by apply IH.
Qed.



(** ** watcher.js: [update], [run] and [evaluate] *)

Lemma get_keeps_watcher cfg traverse id w x :
  watchers w !! id = Some x → wf_target w →
  ∃ w' x', get cfg traverse id w = Some (get_outcome cfg x w, w') ∧
    watchers w' !! id = Some x' ∧ same_watcher x x' ∧
    target w' = target w ∧ targetStack w' = targetStack w ∧
    wheap w' = wheap w ∧
    (∀ id', id' ≠ id → watchers w' !! id' = watchers w !! id').
Proof.
  intros Hx Hwf.
  destruct (get_spec cfg traverse id w x Hx Hwf)
    as (w' & Hget & [_ Hwat] & Ht & Hts & Hh & _).
  destruct (collect_same_watcher id (get_reads traverse x (wheap w)) w x Hx)
    as (x' & Hx' & Hsame).
  exists w', x'. rewrite Hwat. split_and!; try done.
  intros id' Hne. unfold collect, cleanupDeps.
  assert (∀ rs w0, watchers (addDeps id rs w0) !! id' = watchers w0 !! id') as Hadd.
  { intros rs. induction rs as [|d rs IH]; intros w0; [done|].
    unfold addDeps in *. simpl. rewrite IH. by apply addDep_watchers_ne. }
  destruct (watchers (addDeps id _ w) !! id) as [x1|] eqn:E; [|apply Hadd].
  simpl. rewrite lookup_insert_ne by done.
  destruct (cleanup_loop_same_deps id (w_newDepIds x1) (w_deps x1)
              (addDeps id (get_reads traverse x (wheap w)) w)
              (addDeps id (get_reads traverse x (wheap w)) w)) as [_ Hw];
    [done|].
  assert (∀ D w0, watchers (foldr (λ d w1, if bool_decide (d ∈ w_newDepIds x1)
                                           then w1 else removeSub d id w1) w0 D)
                  = watchers w0) as Hloop.
  { intros D. induction D as [|d D IH]; intros w0; simpl; [done|].
    destruct (bool_decide (d ∈ w_newDepIds x1)); [apply IH|]. simpl. apply IH. }
  rewrite Hloop. apply Hadd.
Qed.

Lemma get_outcome_ext cfg x x' w w' :
  w_user x' = w_user x → w_getter x' = w_getter x →
  w_ancestors x' = w_ancestors x → wheap w' = wheap w →
  (∀ e, (handleError cfg e (w_ancestors x) w').1 =
        (handleError cfg e (w_ancestors x) w).1) →
  get_outcome cfg x' w' = get_outcome cfg x w.
Proof.
  intros Hu Hg Ha Hh He. unfold get_outcome.
  rewrite Hg, Hh, Hu, Ha.
  destruct (w_getter x true (wheap w)).2; [done|]. by rewrite He.
Qed.

Section WatcherFacts.
Variable cfg : config.
Variable traverse : heap → value → list nat.
Variable cb : nat → value → value → behaviour.

(** X13.  A lazy watcher is evaluated on demand.  [update] does not call its
    getter and does not reach the scheduler: it only sets [dirty].  The
    [evaluate] that follows calls the getter once; when the evaluation
    returns a value, the watcher holds it and is clean again, and when it
    throws, the exception propagates and the watcher keeps its old value and
    stays dirty. *)
Theorem lazy_watcher_is_evaluated_on_demand
    (flushNow : sched → option sched) (id : nat) (w : world) (s : sched)
    (x : watcher) :
  watchers w !! id = Some x → w_lazy x = true → wf_target w →
  ∃ w1 w2 x2,
    update cfg traverse cb flushNow id (w, s) = Some (Return VUndef, [], (w1, s)) ∧
    watchers w1 = <[id := set_dirty true x]> (watchers w) ∧
    same_outside w w1 ∧ subs w1 = subs w ∧
    evaluate cfg traverse id w1 =
      Some (match get_outcome cfg x w with
            | Return _ => Return VUndef
            | Throw e => Throw e
            end, w2) ∧
    watchers w2 !! id = Some x2 ∧ w_lazy x2 = true ∧
    match get_outcome cfg x w with
    | Return v => w_value x2 = v ∧ w_dirty x2 = false
    | Throw _ => w_value x2 = w_value x ∧ w_dirty x2 = true
    end.
Proof.
  intros Hx Hlazy Hwf.
  set (w1 := set_watchers (<[id := set_dirty true x]> (watchers w)) w).
  assert (watchers w1 !! id = Some (set_dirty true x)) as Hx1.
  { unfold w1; simpl. apply lookup_insert_eq. }
  destruct (get_keeps_watcher cfg traverse id w1 (set_dirty true x) Hx1 Hwf)
    as (w2 & x2 & Hget & Hx2 & Hsame & _).
  assert (get_outcome cfg (set_dirty true x) w1 = get_outcome cfg x w) as Ho.
  { apply get_outcome_ext; [done..|].
    intros e. by destruct (handleError_spec cfg e (w_ancestors x) w Hwf)
      as (_&_&_&_&->). }
  rewrite Ho in Hget.
  destruct Hsame as (_&_&Hl&_&_&Hd&Hv&_). simpl in *.
  destruct (get_outcome cfg x w) as [v|e] eqn:Eo.
  - exists w1, (set_watchers
                  (alter (λ x, set_dirty false (set_value v x)) id (watchers w2)) w2).
    exists (set_dirty false (set_value v x2)).
    unfold update, evaluate. rewrite Hx, Hlazy, Hget.
    split_and!; try done.
    + simpl. by rewrite lookup_alter_eq, Hx2.
    + simpl. congruence.
  - exists w1, w2, x2. unfold update, evaluate. rewrite Hx, Hlazy, Hget.
    split_and!; try done. congruence.
Qed.

End WatcherFacts.

(** ** watcher.js: [depend] and [teardown] *)

Lemma addDeps_cons id d rs w : addDeps id (d :: rs) w = addDeps id rs (addDep id d w).
Proof. done. Qed.

(** Dependency collection from any state of the reader. *)
Lemma addDeps_from id rs : ∀ w x,
  watchers w !! id = Some x →
  ∃ x', watchers (addDeps id rs w) !! id = Some x' ∧
    w_newDepIds x' = w_newDepIds x ∪ list_to_set rs ∧
    w_depIds x' = w_depIds x ∧ w_deps x' = w_deps x ∧
    (∀ id', id' ≠ id → watchers (addDeps id rs w) !! id' = watchers w !! id') ∧
    ∀ d, subs_of (addDeps id rs w) d =
         subs_of w d ++
         (if decide (d ∈ rs ∧ (d ∉ w_newDepIds x) ∧ (d ∉ w_depIds x)) then [id] else []).
Proof.
  induction rs as [|r rs IH]; intros w x Hx.
  - exists x. split_and!; try done.
    + set_solver.
    + intros d. rewrite decide_False; [by rewrite app_nil_r|].
      rewrite elem_of_nil. tauto.
  - rewrite addDeps_cons.
    destruct (decide (r ∈ w_newDepIds x)) as [Hin|Hnin].
    + rewrite (addDep_known id r w x) by done.
      destruct (IH w x Hx) as (x' & Hx' & Hn & Hd & Hdeps & Hother & Hsubs).
      exists x'. split_and!; try done.
      * rewrite Hn. set_solver.
      * intros d. rewrite Hsubs.
        destruct (decide (d ∈ rs ∧ (d ∉ w_newDepIds x) ∧ (d ∉ w_depIds x))) as [H1|H1].
        -- rewrite decide_True; [done|]. set_solver.
        -- rewrite decide_False; [done|]. set_solver.
    + destruct (addDep_new id r w x Hx Hnin) as [Hx1 Hs1].
      destruct (IH _ _ Hx1) as (x' & Hx' & Hn & Hd & Hdeps & Hother & Hsubs).
      simpl in *. exists x'. split_and!; try done.
      * rewrite Hn. set_solver.
      * intros id' Hne. by rewrite Hother, addDep_watchers_ne.
      * intros d. rewrite Hsubs, Hs1, <- app_assoc. f_equal.
        destruct (decide (d = r ∧ r ∉ w_depIds x)) as [[-> Hnd]|H1].
        -- rewrite decide_False by set_solver.
           rewrite decide_True; [done|]. set_solver.
        -- simpl.
           destruct (decide (d ∈ rs ∧ (d ∉ {[r]} ∪ w_newDepIds x) ∧ (d ∉ w_depIds x)))
             as [H2|H2].
           ++ rewrite decide_True; [done|]. set_solver.
           ++ rewrite decide_False; [done|].
              intros ([->|Hd']%elem_of_cons & Hnn & Hnd); [tauto|].
              apply H2. split_and!; try done.
              intros [->%elem_of_singleton|?]%elem_of_union; [|done].
              tauto.
Qed.

(** X15.  [Watcher.prototype.depend] hands the dependencies of a watcher on
    to the current reader, which is how a computed property makes its
    consumer depend on what it read: every node of the watcher becomes a
    pending dependency of the reader, the reader is subscribed to those it
    neither is collecting nor had from its previous cycle, once to each, and
    no other subscriber list changes.  With no reader nothing changes. *)
Theorem watcher_depend_hands_on_the_deps (id reader : nat) (w : world)
    (x y : watcher) :
  watchers w !! id = Some x → target w = Some reader →
  watchers w !! reader = Some y →
  ∃ y', watchers (watcher_depend id w) !! reader = Some y' ∧
    (∀ d, d ∈ w_newDepIds y' ↔ d ∈ w_newDepIds y ∨ d ∈ w_deps x) ∧
    w_depIds y' = w_depIds y ∧ w_deps y' = w_deps y ∧
    (∀ d, subs_of (watcher_depend id w) d =
          subs_of w d ++
          (if decide (d ∈ w_deps x ∧ (d ∉ w_newDepIds y) ∧ (d ∉ w_depIds y))
           then [reader] else [])) ∧
    watcher_depend id (set_target None [] w) = set_target None [] w.
Proof.
  intros Hx Ht Hy. unfold watcher_depend. rewrite Hx.
  rewrite (depend_all_reader reader) by done.
  destruct (addDeps_from reader (reverse (w_deps x)) w y Hy)
    as (y' & Hy' & Hn & Hd & Hdeps & _ & Hsubs).
  exists y'. split_and!; try done.
  - intros d. rewrite Hn, elem_of_union, elem_of_list_to_set, elem_of_reverse. done.
  - intros d. rewrite Hsubs.
    destruct (decide (d ∈ w_deps x ∧ (d ∉ w_newDepIds y) ∧ (d ∉ w_depIds y))) as [H1|H1].
    + rewrite decide_True; [done|]. by rewrite elem_of_reverse.
    + rewrite decide_False; [done|]. by rewrite elem_of_reverse.
  - simpl. rewrite Hx. by apply depend_all_no_reader.
Qed.

Lemma teardown_loop_subs id (N : gset nat) D w :
  N = ∅ →
  foldr (λ d w, removeSub d id w) w D =
  foldr (λ d w, if bool_decide (d ∈ N) then w else removeSub d id w) w D.
Proof.
  intros HN. induction D as [|d D IH]; cbn [foldr]; [done|].
  rewrite bool_decide_eq_false_2 by set_solver. by rewrite IH.
Qed.

(** X16.  [teardown] takes an active watcher out of the subscriber lists of
    all its dependency nodes and marks it inactive; it keeps its list of
    dependencies.  The watcher is taken out of [vm._watchers] unless the
    component is being destroyed.  Other subscribers stay.  After that [run]
    does nothing for it, and a second [teardown] changes nothing.  ([remove]
    deletes the first occurrence.) *)
Theorem teardown_unsubscribes (isBeingDestroyed : bool) (id : nat) (w : world)
    (vm_watchers : list nat) (x : watcher) :
  watchers w !! id = Some x → w_active x = true → NoDup (w_deps x) →
  ∃ w' x',
    teardown isBeingDestroyed id (w, vm_watchers) =
      (w', if isBeingDestroyed then vm_watchers else remove vm_watchers id) ∧
    watchers w' !! id = Some x' ∧ w_active x' = false ∧ w_deps x' = w_deps x ∧
    (∀ d, subs_of w' d =
          if decide (d ∈ w_deps x) then remove (subs_of w d) id else subs_of w d) ∧
    (∀ d, d ∈ w_deps x → occ id (subs_of w' d) = occ id (subs_of w d) - 1) ∧
    (∀ id' d, id' ≠ id → occ id' (subs_of w' d) = occ id' (subs_of w d)) ∧
    (∀ cfg traverse cb, run cfg traverse cb id w' = Some (Return VUndef, [], w')) ∧
    (∀ b l, teardown b id (w', l) = (w', l)).
Proof.
  intros Hx Hact Hnd. unfold teardown. rewrite Hx, Hact.
  set (w1 := foldr (λ d w, removeSub d id w) w (w_deps x)).
  assert (∀ d, subs_of w1 d =
               if decide (d ∈ w_deps x) then remove (subs_of w d) id else subs_of w d)
    as Hsubs.
  { intros d. unfold w1. rewrite (teardown_loop_subs id ∅) by done.
    rewrite (cleanup_loop_subs id ∅ (w_deps x) w d Hnd).
    destruct (decide (d ∈ w_deps x)) as [Hin|Hnin].
    - rewrite decide_True; [done|]. set_solver.
    - rewrite decide_False; [done|]. tauto. }
  eexists _, (set_active false x). split; [done|].
  assert (∀ m (v : world), subs_of (set_watchers m v) = subs_of v) as Hsw by done.
  split_and!; try done.
  - simpl. apply lookup_insert_eq.
  - intros d Hd. rewrite Hsw, Hsubs, decide_True by done. apply occ_remove.
  - intros id' d Hne. rewrite Hsw, Hsubs.
    destruct (decide (d ∈ w_deps x)); [|done]. by apply occ_remove_ne.
  - intros cfg traverse cb. unfold run. simpl. by rewrite lookup_insert_eq.
  - intros b l. simpl. by rewrite lookup_insert_eq.
Qed.

(** ** The small application, continued *)

Lemma lazy_watcher_is_evaluated_on_demand_witness :
  ∃ w1 w2 x2,
    update demo_cfg no_traverse silent_cb (λ _, None) 1 (lazy_demo, sched_init) =
      Some (Return VUndef, [], (w1, sched_init)) ∧
    watchers w1 = <[1 := set_dirty true lazy_watcher]> (watchers lazy_demo) ∧
    same_outside lazy_demo w1 ∧ subs w1 = subs lazy_demo ∧
    evaluate demo_cfg no_traverse 1 w1 = Some (Return VUndef, w2) ∧
    watchers w2 !! 1 = Some x2 ∧ w_lazy x2 = true ∧
    w_value x2 = VNum (Num 1) ∧ w_dirty x2 = false.
Proof.
  pose proof (lazy_watcher_is_evaluated_on_demand demo_cfg no_traverse silent_cb
                (λ _, None) 1 lazy_demo sched_init lazy_watcher) as H.
  assert (get_outcome demo_cfg lazy_watcher lazy_demo = Return (VNum (Num 1))) as E
    by (vm_compute; reflexivity).
  rewrite E in H. apply H.
  - vm_compute; reflexivity.
  - reflexivity.
  - reflexivity.
Defined.


Lemma watcher_depend_hands_on_the_deps_witness :
  ∃ y', watchers (watcher_depend 1 consumer) !! 2 = Some y' ∧
    (∀ d, d ∈ w_newDepIds y' ↔ d ∈ (∅ : gset nat) ∨ d ∈ [1; 2]) ∧
    subs_of (watcher_depend 1 consumer) 1 = [1; 2] ∧
    subs_of (watcher_depend 1 consumer) 3 = [].
Proof.
  opose proof (watcher_depend_hands_on_the_deps 1 2 consumer _ demo_watcher _ _ _)
    as (y' & Hy' & Hn & _ & _ & Hs & _);
    [vm_compute; reflexivity|reflexivity|vm_compute; reflexivity|].
  exists y'. split; [exact Hy'|]. split; [exact Hn|]. split.
  - rewrite Hs. vm_compute. reflexivity.
  - rewrite Hs. vm_compute. reflexivity.
Defined.

Lemma teardown_unsubscribes_witness :
  ∃ w' x',
    teardown false 1 (tracked, [1]) = (w', remove [1] 1) ∧
    watchers w' !! 1 = Some x' ∧ w_active x' = false ∧ w_deps x' = [1; 2] ∧
    subs_of w' 1 = [] ∧ subs_of w' 2 = [] ∧
    run demo_cfg no_traverse silent_cb 1 w' = Some (Return VUndef, [], w').
Proof.
  opose proof (teardown_unsubscribes false 1 tracked [1] _ _ _ _)
    as (w' & x' & Ht & Hx' & Ha & Hd & Hs & _ & _ & Hrun & _);
    [vm_compute; reflexivity|reflexivity|
     apply (bool_decide_unpack _); vm_compute; exact I|].
  exists w', x'. split; [exact Ht|]. split; [exact Hx'|]. split; [exact Ha|].
  split; [exact Hd|]. split; [rewrite Hs; vm_compute; reflexivity|].
  split; [rewrite Hs; vm_compute; reflexivity|]. apply Hrun.
Defined.

Lemma depend_subscribes_once_witness :
  depend 3 (depend 3 consumer) = depend 3 consumer ∧
  (3 ∈ w_newDepIds demo_watcher → depend 3 consumer = consumer) ∧
  (3 ∉ w_newDepIds demo_watcher → 3 ∈ w_depIds demo_watcher →
   subs (depend 3 consumer) = subs consumer) ∧
  (3 ∉ w_newDepIds demo_watcher → 3 ∉ w_depIds demo_watcher →
   subs_of (depend 3 consumer) 3 = subs_of consumer 3 ++ [2]) ∧
  (∀ d', d' ≠ 3 → subs_of (depend 3 consumer) d' = subs_of consumer d').
Proof.
  apply (depend_subscribes_once 3 2 consumer demo_watcher).
  - reflexivity.
  - vm_compute; reflexivity.
Defined.

(** ** util/next-tick.js *)

Lemma nextTick_all_spec ts : ∀ k,
  nextTick_all ts k =
  match ts with
  | [] => k
  | _ => Ticker (callbacks k ++ ts) true
                (if tick_pending k then timers k else S (timers k))
                (ran k) (resolved k)
  end.
Proof.
  induction ts as [|t ts IH]; intros k; [done|].
  unfold nextTick_all in *. cbn [foldl]. rewrite IH.
  unfold nextTick. destruct ts as [|t' ts], (tick_pending k); simpl;
    by rewrite <- ?app_assoc.
Qed.

Lemma nextTick_all_fields (ts : list task) (k : ticker) :
  callbacks (nextTick_all ts k) = callbacks k ++ ts ∧
  tick_pending (nextTick_all ts k) = tick_pending k || nonempty ts ∧
  timers (nextTick_all ts k) =
    timers k + (if tick_pending k || negb (nonempty ts) then 0 else 1) ∧
  ran (nextTick_all ts k) = ran k ∧ resolved (nextTick_all ts k) = resolved k.
Proof.
  rewrite nextTick_all_spec. destruct ts as [|t ts]; simpl.
  - rewrite app_nil_r, !orb_false_r, orb_true_r. split_and!; try done; lia.
  - rewrite orb_true_r, orb_false_r. split_and!; try done.
    destruct (tick_pending k); lia.
Qed.

(** X17.  Calls of [nextTick] are batched: the callbacks queue up in the
    order of the calls, behind those that are waiting already, and the timer
    is set once, by the first call that finds no flush pending; nothing is
    called yet. *)
Theorem nextTick_batches (ts : list task) (k : ticker) :
  callbacks (nextTick_all ts k) = callbacks k ++ ts ∧
  tick_pending (nextTick_all ts k) = tick_pending k || nonempty ts ∧
  timers (nextTick_all ts k) =
    timers k + (if tick_pending k || negb (nonempty ts) then 0 else 1) ∧
  ran (nextTick_all ts k) = ran k ∧ resolved (nextTick_all ts k) = resolved k.
Proof.
  rewrite nextTick_all_spec. destruct ts as [|t ts]; simpl.
  - rewrite app_nil_r, !orb_false_r, orb_true_r. split_and!; try done; lia.
  - rewrite orb_true_r, orb_false_r. split_and!; try done.
    destruct (tick_pending k); lia.
Qed.

Section TickFacts.
Variable cfg : config.
Variable hasPromise : bool.

Lemma call_task_settled t k w :
  settles cfg t → wf_target w →
  ∃ w', call_task cfg hasPromise t (k, w) =
    (Return VUndef,
     (match t with
      | Callback l rs _ _ =>
          nextTick_all rs (Ticker (callbacks k) (tick_pending k) (timers k)
                                  (ran k ++ [l]) (resolved k))
      | Promised l =>
          if hasPromise
          then Ticker (callbacks k) (tick_pending k) (timers k) (ran k)
                      (resolved k ++ [l])
          else k
      end, w')) ∧
    same_state w' w ∧ target w' = target w ∧ targetStack w' = targetStack w.
Proof.
  intros Hs Hwf. destruct t as [l rs [v|e] anc|l]; simpl.
  - by exists w.
  - destruct (Hs w) as [v Hv].
    destruct (handleError_spec cfg e anc w Hwf) as ([Hst _] & _ & Ht & Hts & _).
    destruct (handleError cfg e anc w) as [[] w']; simpl in *; [|done].
    by exists w'.
  - by exists w.
Qed.

Lemma call_copies_settled copies : ∀ k w,
  Forall (settles cfg) copies → wf_target w →
  ∃ k' w', call_copies cfg hasPromise copies (k, w) = (Return VUndef, (k', w')) ∧
    callbacks k' = callbacks k ++ registered copies ∧
    tick_pending k' = tick_pending k || nonempty (registered copies) ∧
    timers k' = timers k +
      (if tick_pending k || negb (nonempty (registered copies)) then 0 else 1) ∧
    ran k' = ran k ++ cb_labels copies ∧
    resolved k' = resolved k ++
      (if hasPromise then promised_labels copies else []) ∧
    same_state w' w ∧ target w' = target w ∧ targetStack w' = targetStack w.
Proof.
  induction copies as [|t copies IH]; intros k w Hs Hwf.
  - exists k, w. simpl. rewrite !app_nil_r, orb_false_r, orb_true_r.
    destruct hasPromise; rewrite ?app_nil_r; split_and!; try done; lia.
  - apply Forall_cons in Hs as [Ht Hs].
    destruct (call_task_settled t k w Ht Hwf) as (w1 & Hcall & Hst1 & Ht1 & Hts1).
    cbn [call_copies]. rewrite Hcall.
    set (k1 := match t with Callback _ _ _ _ => _ | Promised _ => _ end).
    destruct (IH k1 w1 Hs) as (k' & w' & -> & Hc & Hp & Hti & Hr & Hre & Hst & Ht' & Hts').
    { unfold wf_target. by rewrite Ht1, Hts1. }
    exists k', w'. split; [done|].
    assert (same_state w' w) as Hsame by (by etrans).
    rewrite Hc, Hp, Hti, Hr, Hre.
    destruct t as [l rs fin anc|l]; unfold k1; simpl.
    + destruct (nextTick_all_fields rs
                  (Ticker (callbacks k) (tick_pending k) (timers k)
                          (ran k ++ [l]) (resolved k)))
        as (-> & -> & -> & -> & ->). simpl.
      rewrite <- !app_assoc.
      assert (nonempty (rs ++ registered copies) =
              nonempty rs || nonempty (registered copies)) as ->.
      { by destruct rs. }
      split_and!; try done; try congruence;
        try (by rewrite orb_assoc); try (by destruct hasPromise).
      destruct (tick_pending k), (nonempty rs), (nonempty (registered copies));
        simpl; lia.
    + destruct hasPromise; simpl; rewrite <- ?app_assoc;
        split_and!; try done; congruence.
Qed.

(** X18.  One flush calls the callbacks of the batch in the order in which
    they were handed to [nextTick], each once, and resolves its promises,
    provided [handleError] returns for every callback that throws (as it
    does with a console).  What the callbacks hand to [nextTick] meanwhile
    is not called in this flush: it is the next batch, for which the timer
    is set once. *)
Theorem flush_calls_the_batch_in_order (k : ticker) (w : world) :
  Forall (settles cfg) (callbacks k) → wf_target w →
  ∃ k' w', flushCallbacks cfg hasPromise (k, w) = (Return VUndef, (k', w')) ∧
    ran k' = ran k ++ cb_labels (callbacks k) ∧
    resolved k' = resolved k ++
      (if hasPromise then promised_labels (callbacks k) else []) ∧
    callbacks k' = registered (callbacks k) ∧
    tick_pending k' = nonempty (registered (callbacks k)) ∧
    timers k' = timers k + (if nonempty (registered (callbacks k)) then 1 else 0) ∧
    same_state w' w ∧ target w' = target w ∧ targetStack w' = targetStack w.
Proof.
  intros Hs Hwf. unfold flushCallbacks.
  destruct (call_copies_settled (callbacks k)
              (Ticker [] false (timers k) (ran k) (resolved k)) w Hs Hwf)
    as (k' & w' & -> & Hc & Hp & Hti & Hr & Hre & Hrest).
  exists k', w'. simpl in *. rewrite Hti. split_and!; try done; try apply Hrest.
  by destruct (nonempty (registered (callbacks k))).
Qed.

(** X19.  A callback whose error [handleError] throws again (which happens
    without a console) ends the flush: the exception leaves
    [flushCallbacks], and the callbacks that were behind it in the batch are
    neither called nor kept for a later flush. *)
Theorem thrown_error_drops_the_rest_of_the_batch (k : ticker) (w : world)
    (before after : list task) (l : nat) (rs : list task) (e e' : value)
    (ancestors : list (list captured)) :
  callbacks k = before ++ Callback l rs (Throw e) ancestors :: after →
  Forall (settles cfg) before → wf_target w →
  (handleError cfg e ancestors w).1 = Throw e' →
  ∃ k' w', flushCallbacks cfg hasPromise (k, w) = (Throw e', (k', w')) ∧
    ran k' = ran k ++ cb_labels before ++ [l] ∧
    callbacks k' = registered before ++ rs ∧
    timers k' = timers k +
      (if nonempty (registered before ++ rs) then 1 else 0).
Proof.
  intros Hk Hs Hwf He. unfold flushCallbacks. rewrite Hk.
  assert (∀ l1 l2 st, call_copies cfg hasPromise (l1 ++ l2) st =
            match call_copies cfg hasPromise l1 st with
            | (Throw x, st) => (Throw x, st)
            | (Return _, st) => call_copies cfg hasPromise l2 st
            end) as Happ.
  { intros l1 l2. induction l1 as [|t l1 IH]; intros st; simpl; [done|].
    destruct (call_task cfg hasPromise t st) as [[] st1]; [apply IH|done]. }
  rewrite Happ.
  destruct (call_copies_settled before
              (Ticker [] false (timers k) (ran k) (resolved k)) w Hs Hwf)
    as (k1 & w1 & -> & Hc & Hp & Hti & Hr & Hre & Hst & Ht1 & Hts1).
  simpl in Hc, Hp, Hti, Hr. cbn [call_copies call_task].
  assert (wf_target w1) as Hwf1 by (unfold wf_target; by rewrite Ht1, Hts1).
  destruct (handleError_spec cfg e ancestors w1 Hwf1) as (_ & _ & _ & _ & Hout).
  rewrite (Hout w) in He.
  destruct (handleError cfg e ancestors w1) as [[] w2]; simpl in He; [done|].
  injection He as ->.
  eexists _, w2. split; [done|].
  destruct (nextTick_all_fields rs
              (Ticker (callbacks k1) (tick_pending k1) (timers k1)
                      (ran k1 ++ [l]) (resolved k1)))
    as (-> & _ & -> & -> & _). simpl.
  rewrite Hc, Hr, Hti, Hp, <- app_assoc. split_and!; try done.
  destruct (registered before), rs; simpl; lia.
Qed.
End TickFacts.

Lemma console_settles cfg t : hasConsole cfg = true → settles cfg t.
Proof.
  intros Hc. destruct t as [l rs [v|e] anc|l]; simpl; try done.
  intros w. by apply handleError_console.
Qed.

Lemma flush_calls_the_batch_in_order_witness :
  ∃ k' w', flushCallbacks demo_cfg true (Ticker batch true 0 [] [], demo) =
             (Return VUndef, (k', w')) ∧
    ran k' = [] ++ [1; 3] ∧ resolved k' = [] ++ [2] ∧
    callbacks k' = [Callback 4 [] (Return VUndef) []] ∧
    tick_pending k' = true ∧ timers k' = 0 + 1 ∧
    same_state w' demo ∧ target w' = target demo ∧
    targetStack w' = targetStack demo.
Proof.
  apply (flush_calls_the_batch_in_order demo_cfg true (Ticker batch true 0 [] []) demo).
  - apply Forall_forall. intros t _. by apply console_settles.
  - reflexivity.
Defined.

Lemma thrown_error_drops_the_rest_of_the_batch_witness :
  ∃ k' w', flushCallbacks headless_cfg true (Ticker batch true 0 [] [], headless) =
             (Throw (VStr (js "boom")), (k', w')) ∧
    ran k' = [] ++ cb_labels [] ++ [1] ∧
    callbacks k' = registered [] ++ [Callback 4 [] (Return VUndef) []] ∧
    timers k' = 0 + 1.
Proof.
  apply (thrown_error_drops_the_rest_of_the_batch headless_cfg true
           (Ticker batch true 0 [] []) headless [] [Promised 2; Callback 3 [] (Return VUndef) []]
           1 [Callback 4 [] (Return VUndef) []] (VStr (js "boom")) (VStr (js "boom")) []).
  - reflexivity.
  - constructor.
  - reflexivity.
  - vm_compute; reflexivity.
Defined.

(** ** instance/state.js *)

Lemma addDeps_no_watcher r rs : ∀ w,
  watchers w !! r = None → addDeps r rs w = w.
Proof.
  induction rs as [|d rs IH]; intros w H0; [done|].
  rewrite addDeps_cons. unfold addDep at 1. rewrite H0. by apply IH.
Qed.

Lemma watcher_depend_keeps id w x :
  watchers w !! id = Some x →
  ∃ x', watchers (watcher_depend id w) !! id = Some x' ∧ same_watcher x x'.
Proof.
  intros Hx. unfold watcher_depend. rewrite Hx.
  destruct (target w) as [r|] eqn:Ht.
  - rewrite (depend_all_reader r) by done.
    destruct (decide (r = id)) as [->|Hne].
    + destruct (addDeps_same_watcher id (reverse (w_deps x)) w x Hx) as (x' & ? & ?).
      by exists x'.
    + exists x. split; [|apply same_watcher_refl].
      destruct (watchers w !! r) as [y|] eqn:Hy.
      * destruct (addDeps_from r (reverse (w_deps x)) w y Hy)
          as (y' & _ & _ & _ & _ & Ho & _).
        by rewrite Ho.
      * by rewrite addDeps_no_watcher.
  - rewrite depend_all_no_reader by done. exists x.
    split; [done|apply same_watcher_refl].
Qed.

Section StateFacts.
Variable cfg : config.
Variable traverse : heap → value → list nat.
Variable stack : nat.

(** X20.  A computed property is cached.  While its watcher is not dirty,
    reading the property does not call the getter: it returns the value that
    the watcher holds and, when there is a reader, hands the watcher's
    dependencies on to it; with no reader nothing changes at all.  When the
    watcher is dirty, a read with no reader evaluates it once; the value of
    the evaluation is returned and held, the watcher is clean, and a second
    read returns the same value without evaluating.  When the evaluation
    throws, the exception propagates and the watcher stays dirty. *)
Theorem computed_property_is_cached (id : nat) (w : world) (x : watcher) :
  watchers w !! id = Some x → wf_target w →
  (w_dirty x = false →
   computedGetter cfg traverse (Some id) w =
     Some (Return (w_value x), watcher_depend id w) ∧
   (target w = None → watcher_depend id w = w)) ∧
  (w_dirty x = true → target w = None →
   match get_outcome cfg x w with
   | Return v =>
       ∃ w' x', computedGetter cfg traverse (Some id) w = Some (Return v, w') ∧
         watchers w' !! id = Some x' ∧ w_dirty x' = false ∧ w_value x' = v ∧
         computedGetter cfg traverse (Some id) w' = Some (Return v, w')
   | Throw e =>
       ∃ w' x', computedGetter cfg traverse (Some id) w = Some (Throw e, w') ∧
         watchers w' !! id = Some x' ∧ w_dirty x' = true
   end).
Proof.
  intros Hx Hwf. split.
  - intros Hclean. split.
    + unfold computedGetter. rewrite Hx, Hclean.
      destruct (watcher_depend_keeps id w x Hx) as (x' & Hx' & Hsame).
      case_bool_decide as Ht.
      * rewrite Hx'. destruct Hsame as (_&_&_&_&_&_&->&_). done.
      * assert (target w = None) as Hn.
        { destruct (target w); [exfalso; apply Ht; eauto|done]. }
        unfold watcher_depend. rewrite Hx. by rewrite depend_all_no_reader.
    + intros Ht. unfold watcher_depend. rewrite Hx. by apply depend_all_no_reader.
  - intros Hdirty Ht. unfold computedGetter. rewrite Hx, Hdirty.
    destruct (get_keeps_watcher cfg traverse id w x Hx Hwf)
      as (w1 & x1 & Hget & Hx1 & Hsame & Ht1 & Hts1 & _).
    unfold evaluate. rewrite Hget.
    destruct (get_outcome cfg x w) as [v|e].
    + set (w2 := set_watchers
                   (alter (λ x, set_dirty false (set_value v x)) id (watchers w1)) w1).
      assert (target w2 = None) as Ht2 by (unfold w2; simpl; congruence).
      assert (watchers w2 !! id = Some (set_dirty false (set_value v x1))) as Hx2.
      { unfold w2; simpl. by rewrite lookup_alter_eq, Hx1. }
      exists w2, (set_dirty false (set_value v x1)).
      fold w2.
      rewrite !bool_decide_eq_false_2 by (rewrite Ht2; by intros []).
      rewrite !Hx2. cbn [w_dirty set_dirty w_value set_value].
      rewrite !bool_decide_eq_false_2 by (rewrite Ht2; by intros []).
      rewrite !Hx2. by split_and!.
    + exists w1, x1. split_and!; try done.
      destruct Hsame as (_&_&_&_&_&->&_). done.
Qed.

Lemma invoke_console h ancestors w :
  hasConsole cfg = true →
  ∃ v, (invokeWithErrorHandling cfg h ancestors w).1 = Return v.
Proof.
  intros Hc. unfold invokeWithErrorHandling.
  destruct (run_code h w) as [[v|e] w1]; [by eexists|].
  destruct (handleError_console cfg e ancestors w1 Hc) as [v Hv].
  destruct (handleError cfg e ancestors w1) as [[] w2]; simpl in *; [|done].
  by eexists.
Qed.

(** X21.  [getData] calls the [data] function with no reader, also while a
    watcher is being evaluated, so that what [data] reads subscribes nobody,
    and it puts the reader back.  What [data] returns is returned.  When
    [data] throws, the error goes to [handleError]; if that returns, the
    result is a new empty object. *)
Theorem getData_has_no_reader (data : behaviour)
    (ancestors : list (list captured)) (w : world) :
  wf_target w →
  subs (getData cfg data ancestors w).2 = subs w ∧
  watchers (getData cfg data ancestors w).2 = watchers w ∧
  target (getData cfg data ancestors w).2 = target w ∧
  targetStack (getData cfg data ancestors w).2 = targetStack w ∧
  match (data false (wheap w)).2 with
  | Return v =>
      getData cfg data ancestors w =
        (Return v, popTarget (pushTarget None w))
  | Throw e =>
      EvHandleError e ∈ events (getData cfg data ancestors w).2 ∧
      match (handleError cfg e ancestors w).1 with
      | Return _ =>
          (getData cfg data ancestors w).1 = Return (VRef (length (wheap w))) ∧
          wheap (getData cfg data ancestors w).2 =
            wheap w ++ [Obj CPlain false false true None false [] []]
      | Throw e' =>
          (getData cfg data ancestors w).1 = Throw e' ∧
          wheap (getData cfg data ancestors w).2 = wheap w
      end
  end.
Proof.
  intros Hwf. unfold getData.
  rewrite run_code_no_reader by done. cbn [wheap pushTarget set_target].
  destruct (pop_push None w Hwf) as [Hpt Hps].
  destruct (data false (wheap w)).2 as [v|e]; [by split_and!|].
  assert (wf_target (pushTarget None w)) as Hwf1 by apply wf_target_push.
  destruct (handleError_spec cfg e ancestors (pushTarget None w) Hwf1)
    as ([Hst Hpre] & Hev & Ht & Hts & Hout).
  rewrite (Hout w).
  destruct (handleError cfg e ancestors (pushTarget None w)) as [[v|e'] w1];
    simpl in *.
  - destruct Hst as (Hh & _ & Hs & _ & Hw & _).
    unfold popTarget; simpl. rewrite Hts. simpl.
    simpl in Hh, Hs, Hw. rewrite Hh.
    by split_and!.
  - destruct Hst as (Hh & _ & Hs & _ & Hw & _).
    unfold popTarget; simpl. rewrite Hts. simpl.
    simpl in Hh, Hs, Hw. by split_and!.
Qed.

Lemma new_watcher_spec vm ancestors expOrFn opts w :
  wf_target w →
  ∃ o w' x',
    new_watcher cfg traverse stack vm ancestors expOrFn (Some opts) w =
      Some (S (watcher_uid w), o, w') ∧
    watchers w' !! S (watcher_uid w) = Some x' ∧
    w_user x' = opt_user opts ∧ w_lazy x' = opt_lazy opts ∧
    w_deep x' = opt_deep opts ∧ w_sync x' = opt_sync opts ∧
    w_active x' = true ∧ w_ancestors x' = ancestors ∧
    target w' = target w ∧ targetStack w' = targetStack w ∧
    (opt_user opts = true → hasConsole cfg = true → o = Return VUndef).
Proof.
  intros Hwf. unfold new_watcher. cbn [default from_option].
  unfold Datatypes.id.
  set (id := S (watcher_uid w)).
  destruct (match expOrFn with
            | inl path =>
                match parsePath stack path with
                | Some g => (g vm, set_watcher_uid id w)
                | None => (noop, if production cfg then set_watcher_uid id w
                                 else log (EvWarn (js "Failed watching path"))
                                        (set_watcher_uid id w))
                end
            | inr f => (f, set_watcher_uid id w)
            end) as [getter w1] eqn:E1.
  assert (target w1 = target w ∧ targetStack w1 = targetStack w) as [Ht1 Hts1].
  { destruct expOrFn as [path|f]; [|by simplify_eq].
    destruct (parsePath stack path); [by simplify_eq|].
    destruct (production cfg); by simplify_eq. }
  set (x := Watcher (opt_user opts) (opt_deep opts) (opt_lazy opts)
              (opt_sync opts) true (opt_lazy opts) [] [] ∅ ∅ VUndef getter ancestors).
  set (w2 := set_watchers (<[id := x]> (watchers w1)) w1).
  assert (watchers w2 !! id = Some x) as Hx by apply lookup_insert_eq.
  assert (wf_target w2) as Hwf2.
  { unfold wf_target, w2. simpl. by rewrite Ht1, Hts1. }
  destruct (opt_lazy opts) eqn:Hlazy.
  { exists (Return VUndef), w2, x. by split_and!. }
  destruct (get_keeps_watcher cfg traverse id w2 x Hx Hwf2)
    as (w3 & x3 & -> & Hx3 & Hsame & Ht3 & Hts3 & _).
  destruct Hsame as (Hu&Hd&Hl&Hs&Ha&_&_&_&Han).
  change (target w2) with (target w1) in Ht3.
  change (targetStack w2) with (targetStack w1) in Hts3.
  rewrite Ht1 in Ht3. rewrite Hts1 in Hts3.
  destruct (get_outcome cfg x w2) as [v|e] eqn:Eo.
  - exists (Return VUndef),
           (set_watchers (alter (set_value v) id (watchers w3)) w3),
           (set_value v x3).
    split_and!; try done.
    simpl. by rewrite lookup_alter_eq, Hx3.
  - exists (Throw e), w3, x3. split_and!; try done; try congruence.
    intros Huser Hc. exfalso. unfold get_outcome in Eo. simpl in Eo.
    destruct (getter true (wheap w1)).2 as [v|e0]; [done|].
    rewrite Huser in Eo.
    destruct (handleError_console cfg e0 ancestors w2 Hc) as [v Hv].
    by rewrite Hv in Eo.
Qed.

End StateFacts.

Lemma computed_property_is_cached_witness :
  ∃ w' x', computedGetter demo_cfg no_traverse (Some 1) lazy_demo =
             Some (Return (VNum (Num 1)), w') ∧
    watchers w' !! 1 = Some x' ∧ w_dirty x' = false ∧
    w_value x' = VNum (Num 1) ∧
    computedGetter demo_cfg no_traverse (Some 1) w' =
      Some (Return (VNum (Num 1)), w').
Proof.
  opose proof (computed_property_is_cached demo_cfg no_traverse 1 lazy_demo
                 lazy_watcher _ _) as [_ H];
    [vm_compute; reflexivity|reflexivity|].
  assert (get_outcome demo_cfg lazy_watcher lazy_demo = Return (VNum (Num 1))) as E
    by (vm_compute; reflexivity).
  rewrite E in H. apply H; reflexivity.
Defined.

Lemma getData_has_no_reader_witness :
  subs (getData demo_cfg failing_getter [] consumer).2 = subs consumer ∧
  watchers (getData demo_cfg failing_getter [] consumer).2 = watchers consumer ∧
  target (getData demo_cfg failing_getter [] consumer).2 = Some 2 ∧
  targetStack (getData demo_cfg failing_getter [] consumer).2 =
    targetStack consumer ∧
  EvHandleError (VStr (js "boom")) ∈
    events (getData demo_cfg failing_getter [] consumer).2 ∧
  (getData demo_cfg failing_getter [] consumer).1 = Return (VRef 2) ∧
  wheap (getData demo_cfg failing_getter [] consumer).2 =
    wheap consumer ++ [Obj CPlain false false true None false [] []].
Proof.
  opose proof (getData_has_no_reader demo_cfg failing_getter [] consumer _)
    as (Hs & Hw & Ht & Hts & H); [reflexivity|].
  assert ((handleError demo_cfg (VStr (js "boom")) [] consumer).1 = Return VUndef)
    as E by (vm_compute; reflexivity).
  cbn [failing_getter snd] in H. rewrite E in H.
  destruct H as (Hev & Ho & Hh).
  split; [exact Hs|]. split; [exact Hw|]. split; [exact Ht|]. split; [exact Hts|].
  split; [exact Hev|]. split; [exact Ho|exact Hh].
Defined.


(** ** instance/events.js *)

Lemma cbs_of_insert e x ev h u t e' :
  cbs_of (Component (<[e := x]> ev) h u t) e' =
  if decide (e = e') then x else mjoin (ev !! e').
Proof.
  unfold cbs_of; simpl. destruct (decide (e = e')) as [->|Hne].
  - by rewrite lookup_insert_eq.
  - by rewrite lookup_insert_ne.
Qed.

Lemma off_loop_none fn cbs :
  (∀ c, c ∈ cbs → matches fn c = false) → ∀ i, off_loop fn cbs i = cbs.
Proof.
  intros Hno. induction i as [|i IH]; simpl; [done|].
  destruct (cbs !! i) as [c|] eqn:E; [|done].
  by rewrite (Hno c (list_elem_of_lookup_2 _ _ _ E)).
Qed.

Lemma off_loop_last fn l1 cb l2 :
  matches fn cb = true → (∀ c, c ∈ l2 → matches fn c = false) →
  off_loop fn (l1 ++ cb :: l2) (length (l1 ++ cb :: l2)) = l1 ++ l2.
Proof.
  intros Hm Hno.
  assert (∀ j, j ≤ length l2 →
            off_loop fn (l1 ++ cb :: l2) (S (length l1 + j)) = l1 ++ l2) as H.
  { induction j as [|j IH]; intros Hj; cbn [off_loop].
    - rewrite Nat.add_0_r, list_lookup_middle by done. rewrite Hm.
      clear. induction l1 as [|a l1 IH]; simpl; [done|]. by f_equal.
    - assert (j < length l2) as Hlt by lia.
      destruct (lookup_lt_is_Some_2 l2 j Hlt) as [c Hc].
      replace (length l1 + S j) with (S (length l1 + j)) by lia.
      rewrite (lookup_app_r l1) by lia.
      replace (S (length l1 + j) - length l1) with (S j) by lia.
      simpl. rewrite Hc, (Hno c (list_elem_of_lookup_2 _ _ _ Hc)).
      apply IH. lia. }
  rewrite length_app. simpl.
  replace (length l1 + S (length l2)) with (S (length l1 + length l2)) by lia.
  by apply H.
Qed.

Lemma off_one_spec event fn vm :
  _hasHookEvent (off_one event fn vm) = _hasHookEvent vm ∧
  once_uid (off_one event fn vm) = once_uid vm ∧
  tips (off_one event fn vm) = tips vm ∧
  (∀ e, e ≠ event → cbs_of (off_one event fn vm) e = cbs_of vm e) ∧
  cbs_of (off_one event fn vm) event =
    match cbs_of vm event, fn with
    | None, _ | _, None => None
    | Some cbs, Some f => Some (off_loop f cbs (length cbs))
    end.
Proof.
  unfold off_one. destruct (cbs_of vm event) as [cbs|] eqn:E.
  - destruct fn as [f|]; unfold set_events; rewrite cbs_of_insert;
      rewrite decide_True by done; split_and!; try done;
      intros e He; rewrite cbs_of_insert; by rewrite decide_False.
  - destruct fn; by split_and!.
Qed.

Lemma on_one_spec event fn vm :
  _hasHookEvent (on_one event fn vm) = _hasHookEvent vm || hookRE event ∧
  once_uid (on_one event fn vm) = once_uid vm ∧
  tips (on_one event fn vm) = tips vm ∧
  (∀ e, e ≠ event → cbs_of (on_one event fn vm) e = cbs_of vm e) ∧
  cbs_of (on_one event fn vm) event = Some (default [] (cbs_of vm event) ++ [fn]).
Proof.
  unfold on_one. rewrite cbs_of_insert, decide_True by done. simpl.
  split_and!; try done.
  - destruct (hookRE event), (_hasHookEvent vm); done.
  - intros e He. rewrite cbs_of_insert. by rewrite decide_False.
Qed.

Lemma once_ids_app l1 l2 : once_ids (l1 ++ l2) = once_ids l1 ++ once_ids l2.
Proof. apply omap_app. Qed.

Lemma once_ids_elem k cbs :
  k ∈ once_ids cbs ↔ ∃ ev n, OnceHandler k ev n ∈ cbs.
Proof.
  unfold once_ids. rewrite list_elem_of_omap. split.
  - intros ([n|k' ev n] & Hin & Heq); simplify_eq. eauto.
  - intros (ev & n & Hin). by exists (OnceHandler k ev n).
Qed.

Lemma once_ids_plain cbs : once_ids (filter is_plain cbs) = [].
Proof.
  induction cbs as [|[n|k ev n] cbs IH]; [done| |].
  - rewrite filter_cons_True by done. exact IH.
  - rewrite filter_cons_False; [exact IH|]. by intros [].
Qed.

Lemma wf_no_listeners : wf_component no_listeners.
Proof. intros event cbs H. done. Qed.

Lemma wf_on event n vm :
  wf_component vm → wf_component (on event (Plain n) vm).
Proof.
  assert (∀ e vm, wf_component vm → wf_component (on_one e (Plain n) vm)) as H1.
  { clear. intros e vm Hwf event cbs Hc.
    destruct (on_one_spec e (Plain n) vm) as (_ & Hu & _ & Ho & Hs).
    rewrite Hu. destruct (decide (event = e)) as [->|Hne].
    - rewrite Hs in Hc. injection Hc as <-.
      destruct (cbs_of vm e) as [cbs|] eqn:E; simpl.
      + destruct (Hwf e cbs E) as [Hnd Hin]. split.
        * rewrite once_ids_app. simpl. by rewrite app_nil_r.
        * intros k ev m [Hk|Hk]%elem_of_app; [exact (Hin _ _ _ Hk)|].
          by apply list_elem_of_singleton in Hk.
      + split; [constructor|].
        intros k ev m Hk. by apply list_elem_of_singleton in Hk.
    - rewrite Ho in Hc by done. exact (Hwf _ _ Hc). }
  intros Hwf. destruct event as [e|es]; simpl; [by apply H1|].
  revert vm Hwf. induction es as [|e es IH]; intros vm Hwf; simpl; [done|].
  apply IH. by apply H1.
Qed.

Lemma wf_once event n vm : wf_component vm → wf_component (once event n vm).
Proof.
  intros Hwf e cbs Hc. unfold once, on in Hc |- *.
  set (vm1 := Component (_events vm) (_hasHookEvent vm) (S (once_uid vm)) (tips vm))
    in *.
  destruct (on_one_spec event (OnceHandler (once_uid vm) event n) vm1)
    as (_ & Hu & _ & Ho & Hs).
  rewrite Hu. simpl.
  destruct (decide (e = event)) as [->|Hne].
  - rewrite Hs in Hc. injection Hc as <-.
    change (cbs_of vm1 event) with (cbs_of vm event).
    destruct (cbs_of vm event) as [cbs|] eqn:E; simpl.
    + destruct (Hwf event cbs E) as [Hnd Hin]. split.
      * rewrite once_ids_app. simpl. apply NoDup_app. split_and!; [done| |].
        -- intros k (ev & m & Hk)%once_ids_elem ->%list_elem_of_singleton.
           destruct (Hin _ _ _ Hk). lia.
        -- apply NoDup_singleton.
      * intros k ev m [Hk|Hk]%elem_of_app.
        -- destruct (Hin _ _ _ Hk). split; [done|lia].
        -- apply list_elem_of_singleton in Hk. simplify_eq. split; [done|lia].
    + split; [apply NoDup_singleton|].
      intros k ev m Hk. apply list_elem_of_singleton in Hk. simplify_eq.
      split; [done|lia].
  - rewrite Ho in Hc by done. change (cbs_of vm1 e) with (cbs_of vm e) in Hc.
    destruct (Hwf e cbs Hc) as [Hnd Hin]. split; [done|].
    intros k ev m Hk. destruct (Hin _ _ _ Hk). split; [done|lia].
Qed.

Section EmitFacts.
Variable cfg : config.
Variable toLowerCase : jsstring → jsstring.
Variable body : nat → list value → behaviour.

Lemma emit_loop_console event args ancestors :
  hasConsole cfg = true →
  ∀ rest pre w vm,
    cbs_of vm event = Some (pre ++ rest) →
    NoDup (once_ids rest) →
    (∀ k ev n, OnceHandler k ev n ∈ rest → ev = event) →
    ∃ w' vm',
      emit_loop cfg body rest args ancestors (w, vm) =
        (Return VUndef, (λ cb, (fn_of cb, args)) <$> rest, (w', vm')) ∧
      cbs_of vm' event = Some (pre ++ filter is_plain rest) ∧
      (∀ e, e ≠ event → cbs_of vm' e = cbs_of vm e) ∧
      _hasHookEvent vm' = _hasHookEvent vm ∧
      once_uid vm' = once_uid vm ∧ tips vm' = tips vm.
Proof.
  intros Hc. induction rest as [|cb rest IH]; intros pre w vm Hcbs Hnd Hev.
  { exists w, vm. by split_and!. }
  cbn [emit_loop call_listener]. destruct cb as [n|k ev n].
  - destruct (invoke_console cfg (body n args) ancestors w Hc) as [v Hv].
    destruct (invokeWithErrorHandling cfg (body n args) ancestors w)
      as [o w1]; simpl in Hv; subst o.
    destruct (IH (pre ++ [Plain n]) w1 vm) as (w' & vm' & -> & H1 & H2).
    + by rewrite <- app_assoc.
    + done.
    + intros k ev m Hk. apply (Hev k ev m). by right.
    + exists w', vm'. split; [done|]. split; [|done].
      rewrite H1, <- app_assoc. done.
  - assert (ev = event) as -> by (apply (Hev k ev n); left).
    cbn [off].
    destruct (off_one_spec event (Some (OnceFn k)) vm)
      as (Hh & Hu & Ht & Ho & Hs).
    rewrite Hcbs in Hs.
    rewrite off_loop_last in Hs; cycle 1.
    { simpl. by rewrite bool_decide_eq_true_2. }
    { intros [m|k' ev' m] Hin; simpl; [done|].
      rewrite orb_false_r. apply bool_decide_eq_false_2. intros [= <-].
      simpl in Hnd. apply NoDup_cons in Hnd as [Hk _].
      apply Hk, once_ids_elem. eauto. }
    destruct (invoke_console cfg (body n args) ancestors w Hc) as [v Hv].
    destruct (invokeWithErrorHandling cfg (body n args) ancestors w)
      as [o w1]; simpl in Hv; subst o.
    destruct (IH pre w1 (off_one event (Some (OnceFn k)) vm))
      as (w' & vm' & -> & H1 & H2 & H3 & H4 & H5).
    + done.
    + simpl in Hnd. by apply NoDup_cons in Hnd as [_ ?].
    + intros k' ev m Hk. apply (Hev k' ev m). by right.
    + exists w', vm'. split; [done|]. split; [done|].
      split_and!; try congruence.
      intros e He. rewrite H2 by done. by apply Ho.
Qed.

Lemma emit_console event args ancestors w vm :
  hasConsole cfg = true → wf_component vm →
  ∃ w' vm',
    emit cfg toLowerCase body event args ancestors (w, vm) =
      (Return VUndef,
       (λ cb, (fn_of cb, args)) <$> default [] (cbs_of vm event),
       (w', vm')) ∧
    cbs_of vm' event = filter is_plain <$> cbs_of vm event ∧
    (∀ e, e ≠ event → cbs_of vm' e = cbs_of vm e) ∧
    _hasHookEvent vm' = _hasHookEvent vm ∧
    wf_component vm'.
Proof.
  intros Hc Hwf. unfold emit.
  set (vm0 := if negb (production cfg) then _ else vm).
  assert (_events vm0 = _events vm ∧ _hasHookEvent vm0 = _hasHookEvent vm ∧
          once_uid vm0 = once_uid vm) as (He0 & Hh0 & Hu0).
  { unfold vm0. destruct (negb (production cfg)); [|done].
    by destruct (_ && _). }
  assert (∀ e, cbs_of vm0 e = cbs_of vm e) as Hc0
    by (intros e; unfold cbs_of; by rewrite He0).
  rewrite Hc0. destruct (cbs_of vm event) as [cbs|] eqn:E; simpl.
  - destruct (Hwf event cbs E) as [Hnd Hin].
    destruct (emit_loop_console event args ancestors Hc cbs [] w vm0)
      as (w' & vm' & -> & H1 & H2 & H3 & H4 & _).
    + by rewrite Hc0.
    + done.
    + intros k ev n Hk. by destruct (Hin _ _ _ Hk).
    + exists w', vm'. split_and!; try done.
      * intros e He. by rewrite H2, Hc0.
      * congruence.
      * intros e l Hl. rewrite H4, Hu0.
        destruct (decide (e = event)) as [->|Hne].
        -- rewrite H1 in Hl. injection Hl as <-. simpl. split.
           ++ rewrite once_ids_plain. constructor.
           ++ intros k ev n [_ Hk]%list_elem_of_filter. exact (Hin _ _ _ Hk).
        -- rewrite H2, Hc0 in Hl by done. exact (Hwf _ _ Hl).
  - exists w, vm0. split_and!; try done.
    + by rewrite Hc0, E.
    + intros e l Hl. rewrite Hu0. rewrite Hc0 in Hl. exact (Hwf _ _ Hl).
Qed.

End EmitFacts.

(** X24.  [$off(event, fn)] takes out one registration of [fn], the one made
    last, whether it was made with [$on] or with [$once]; the other
    listeners of the event stay, in their order, and so does an earlier
    registration of the same function.  When [fn] is not registered for the
    event, the listeners stay as they are.  The listeners of other events
    are not touched. *)
Theorem off_removes_the_last_registration (event : jsstring) (fn : fref)
    (vm : component) (cbs : list listener) :
  cbs_of vm event = Some cbs →
  (∀ l1 cb l2, cbs = l1 ++ cb :: l2 → matches fn cb = true →
     (∀ c, c ∈ l2 → matches fn c = false) →
     cbs_of (off (OffEvent (inl event) (Some fn)) vm) event = Some (l1 ++ l2)) ∧
  ((∀ c, c ∈ cbs → matches fn c = false) →
     cbs_of (off (OffEvent (inl event) (Some fn)) vm) event = Some cbs) ∧
  (∀ e, e ≠ event →
     cbs_of (off (OffEvent (inl event) (Some fn)) vm) e = cbs_of vm e).
Proof.
  intros Hcbs. cbn [off].
  destruct (off_one_spec event (Some fn) vm) as (_ & _ & _ & Ho & Hs).
  rewrite Hcbs in Hs. split_and!; [| |done].
  - intros l1 cb l2 -> Hm Hno. by rewrite Hs, off_loop_last.
  - intros Hno. by rewrite Hs, off_loop_none.
Qed.

(** X25.  Registering a function and taking it out again gives back the
    listeners that the event had, for [$on] and for [$once] alike: a
    listener of [$once] is found by the function it wraps.  The event is
    left with an array, empty if it had no listeners; the listeners of other
    events are not touched. *)
Theorem register_then_off_round_trip (event : jsstring) (n : nat)
    (vm : component) :
  cbs_of (off (OffEvent (inl event) (Some (UserFn n)))
              (on (inl event) (Plain n) vm)) event =
    Some (default [] (cbs_of vm event)) ∧
  cbs_of (off (OffEvent (inl event) (Some (UserFn n))) (once event n vm)) event =
    Some (default [] (cbs_of vm event)) ∧
  ∀ e, e ≠ event →
    cbs_of (off (OffEvent (inl event) (Some (UserFn n)))
                (on (inl event) (Plain n) vm)) e = cbs_of vm e ∧
    cbs_of (off (OffEvent (inl event) (Some (UserFn n))) (once event n vm)) e =
      cbs_of vm e.
Proof.
  assert (∀ cb vm0, matches (UserFn n) cb = true →
            cbs_of vm0 event = cbs_of vm event →
            (∀ e, cbs_of vm0 e = cbs_of vm e) →
            cbs_of (off_one event (Some (UserFn n)) (on_one event cb vm0)) event =
              Some (default [] (cbs_of vm event)) ∧
            ∀ e, e ≠ event →
              cbs_of (off_one event (Some (UserFn n)) (on_one event cb vm0)) e =
                cbs_of vm e) as H.
  { intros cb vm0 Hm He Hall.
    destruct (on_one_spec event cb vm0) as (_ & _ & _ & Ho & Hs).
    destruct (off_one_spec event (Some (UserFn n)) (on_one event cb vm0))
      as (_ & _ & _ & Ho' & Hs').
    rewrite Hs in Hs'. split.
    - rewrite Hs', He.
      rewrite (off_loop_last _ _ cb []); [by rewrite app_nil_r|done|].
      intros c Hc. by apply elem_of_nil in Hc.
    - intros e Hne. by rewrite Ho', Ho, Hall. }
  cbn [off on]. unfold once. cbn [on].
  set (vm1 := Component (_events vm) (_hasHookEvent vm) (S (once_uid vm)) (tips vm)).
  destruct (H (Plain n) vm) as [A1 A2]; [by apply bool_decide_eq_true_2|done..|].
  destruct (H (OnceHandler (once_uid vm) event n) vm1) as [B1 B2];
    [simpl; by apply bool_decide_eq_true_2|done..|].
  split_and!; [done..|]. intros e He. split; [by apply A2|by apply B2].
Qed.

Lemma filter_eq_absent (e : jsstring) es :
  e ∉ es → filter (λ x, x = e) es = [].
Proof.
  induction es as [|a es IH]; intros Hnin; [done|].
  apply not_elem_of_cons in Hnin as [Hne Hnin].
  rewrite filter_cons_False by done. by apply IH.
Qed.

Lemma foldl_on_spec fn es : ∀ vm e,
  cbs_of (foldl (λ vm e, on_one e fn vm) vm es) e =
    (if decide (e ∈ es)
     then Some (default [] (cbs_of vm e) ++
                replicate (length (filter (λ x, x = e) es)) fn)
     else cbs_of vm e) ∧
  _hasHookEvent (foldl (λ vm e, on_one e fn vm) vm es) =
    _hasHookEvent vm || existsb hookRE es.
Proof.
  induction es as [|a es IH]; intros vm e; simpl.
  { by rewrite orb_false_r. }
  destruct (IH (on_one a fn vm) e) as [-> ->].
  destruct (on_one_spec a fn vm) as (-> & _ & _ & Ho & Hs).
  split; [|by rewrite orb_assoc].
  destruct (decide (a = e)) as [->|Hne].
  - rewrite Hs, filter_cons_True by done. simpl.
    rewrite (decide_True (P := e ∈ e :: es)) by left.
    destruct (decide (e ∈ es)) as [Hin|Hnin].
    + by rewrite <- app_assoc.
    + by rewrite filter_eq_absent.
  - rewrite Ho, filter_cons_False by done.
    destruct (decide (e ∈ es)) as [Hin|Hnin].
    + rewrite (decide_True (P := e ∈ a :: es)); [done|by right].
    + rewrite (decide_False (P := e ∈ a :: es)); [done|].
      intros [?|?]%elem_of_cons; [by subst|done].
Qed.

Lemma foldl_off_spec es : ∀ vm e,
  cbs_of (foldl (λ vm e, off_one e None vm) vm es) e =
    (if decide (e ∈ es) then None else cbs_of vm e) ∧
  _hasHookEvent (foldl (λ vm e, off_one e None vm) vm es) = _hasHookEvent vm.
Proof.
  induction es as [|a es IH]; intros vm e; simpl; [done|].
  destruct (IH (off_one a None vm) e) as [-> ->].
  destruct (off_one_spec a None vm) as (-> & _ & _ & Ho & Hs).
  split; [|done].
  destruct (decide (a = e)) as [->|Hne].
  - rewrite Hs, (decide_True (P := e ∈ e :: es)) by left.
    destruct (decide (e ∈ es)); [done|]. by destruct (cbs_of vm e).
  - rewrite Ho by done.
    destruct (decide (e ∈ es)) as [Hin|Hnin].
    + rewrite (decide_True (P := e ∈ a :: es)); [done|by right].
    + rewrite (decide_False (P := e ∈ a :: es)); [done|].
      intros [?|?]%elem_of_cons; [by subst|done].
Qed.

(** X26.  With an array of event names, [$on] registers the function for
    each name, as many times as the name is in the array, behind the
    listeners that the name had, and [$off] without a function takes all
    listeners of each name away; names that are not in the array keep their
    listeners.  [$off] without arguments takes every listener away.  A name
    that begins with [hook:] sets [_hasHookEvent], and no [$off] clears it
    again. *)
Theorem on_and_off_with_arrays (names : list jsstring) (fn : listener)
    (vm : component) (e : jsstring) :
  cbs_of (on (inr names) fn vm) e =
    (if decide (e ∈ names)
     then Some (default [] (cbs_of vm e) ++
                replicate (length (filter (λ x, x = e) names)) fn)
     else cbs_of vm e) ∧
  _hasHookEvent (on (inr names) fn vm) =
    _hasHookEvent vm || existsb hookRE names ∧
  cbs_of (off (OffEvent (inr names) None) vm) e =
    (if decide (e ∈ names) then None else cbs_of vm e) ∧
  _hasHookEvent (off (OffEvent (inr names) None) vm) = _hasHookEvent vm ∧
  cbs_of (off OffAll vm) e = None ∧
  _hasHookEvent (off OffAll vm) = _hasHookEvent vm.
Proof.
  cbn [on off].
  destruct (foldl_on_spec fn names vm e) as [-> ->].
  destruct (foldl_off_spec names vm e) as [-> ->].
  by split_and!.
Qed.

(** ** The small application, its events *)


Lemma off_removes_the_last_registration_witness :
  cbs_of (off (OffEvent (inl (js "save")) (Some (UserFn 1))) twice_registered)
         (js "save") = Some [Plain 1; Plain 3].
Proof.
  apply (proj1 (off_removes_the_last_registration (js "save") (UserFn 1)
                  twice_registered [Plain 1; Plain 3; Plain 1]
                  ltac:(vm_compute; reflexivity))
               [Plain 1; Plain 3] (Plain 1) []).
  - reflexivity.
  - reflexivity.
  - intros c Hc. destruct (proj1 (elem_of_nil c) Hc).
Defined.
